(** * x-window-selector: the window tracking structure and its narrowing

    A shallow embedding of [src/x-window-selector.c]: the construction of the
    nested [window_setup_t] structure that labels every tracked window with a
    string of key characters, the key-by-key descent through that structure,
    the creation and destruction of the overlay windows, and the parsing of
    the [CHARACTERS] argument; and, before the structure is built, the
    command line, the keyboard grab and the choice of the windows to track.

    The program talks to an X server and ends by calling [exit].  Both are
    explicit here: a [world] holds the XID allocator, the requests sent so far
    and the window ids printed to standard output, and a computation returns
    an [outcome]: it either returns normally, or the process has exited with
    a status, or the C code has no defined behaviour (a read past the end of
    an array, a read of freed memory, a division by zero, a conversion to
    [int] of a value that is not one).

    The X server accepts every request that has no reply: the branches that
    end the process on such a request failing are not modelled.  A reply may
    be missing: the branches on the geometry reply, which the builder reads,
    and on the replies read before the structure is built (the window tree,
    the properties, the window attributes, the keyboard grab) are modelled.
    The text renderer is a single request that always succeeds.  Memory is
    not modelled: an array is a list, the [NULL] array the empty list, and
    [free] has no counterpart, but for the read of a reply that was freed in
    [ewmh_window_normal].  The logarithm, [strtol] and [atoi] of the C
    library are parameters of the program, and [argp_parse] is given by the
    calls it makes to [parse_arg] and by what ends them. *)

From Stdlib Require Import ZArith List Bool Ascii Arith Lia.
From Stdlib Require Import PrimFloat SpecFloat FloatOps Uint63.
Import ListNotations.

Set Implicit Arguments.

(** ** X protocol data *)

Definition xcb_window_t := Z.
Definition xcb_gcontext_t := Z.
Definition xcb_keysym_t := Z.

Record xcb_rectangle_t := mk_rectangle
  { rect_x : Z; rect_y : Z; rect_width : Z; rect_height : Z }.

(** The fields of a geometry reply that [initialise_window_setup] reads. *)
Record xcb_get_geometry_reply_t := mk_geometry
  { geo_x : Z; geo_y : Z; geo_width : Z; geo_height : Z;
    geo_border_width : Z }.

(** Requests that change what the X server holds or shows.  The text
    renderer ([xorg_draw_text_centred] and what it calls) is a single request
    here. *)
Inductive xreq :=
| CreateWindow (win : xcb_window_t)
| SetWmClass (win : xcb_window_t)
| ConfigureWindow (win : xcb_window_t) (x y w h : Z)
| MapWindow (win : xcb_window_t)
| CreateGC (gc : xcb_gcontext_t) (win : xcb_window_t)
| PolyFillRectangle (win : xcb_window_t) (gc : xcb_gcontext_t)
                    (rect : xcb_rectangle_t)
| RenderText (win : xcb_window_t) (gc : xcb_gcontext_t) (text : list ascii)
| DestroyWindow (win : xcb_window_t)
| FreeGC (gc : xcb_gcontext_t)
| Flush.

(** Output formats ([FORMAT_DEC] and [FORMAT_HEX]). *)
Inductive format_t := FORMAT_DEC | FORMAT_HEX.

(** [next_id] is the next XID [xcb_generate_id] hands out; [requests] is the
    list of requests sent, the latest first; [stdout] the window ids printed,
    the latest first: those that [choose_window] prints, each with the format
    whose conversion it is printed with.  Other text written to the standard
    output (the messages of [load_glyph], the texts of [argp_parse]) and what
    is written to the standard error are not recorded. *)
Record world := mk_world
  { next_id : Z;
    requests : list xreq;
    stdout : list (format_t * xcb_window_t) }.

Inductive outcome (A : Type) :=
| Ret (a : A) (w : world)
| Exit (code : Z) (w : world)
| Undef.

Arguments Exit {A} code w.
Arguments Undef {A}.

Definition M (A : Type) := world -> outcome A.

Definition ret {A} (a : A) : M A := fun w => Ret a w.

Definition bind {A B} (m : M A) (f : A -> M B) : M B :=
  fun w => match m w with
           | Ret a w' => f a w'
           | Exit code w' => Exit code w'
           | Undef => Undef
           end.

Declare Scope xcw_scope.
Delimit Scope xcw_scope with xcw.
Notation "x <- m ;; k" := (bind m (fun x => k))
  (at level 100, m at next level, right associativity) : xcw_scope.
Notation "m ;;; k" := (bind m (fun _ => k))
  (at level 100, right associativity) : xcw_scope.
Local Open Scope xcw_scope.

Definition undefined {A} : M A := fun _ => Undef.

Definition exit {A} (code : Z) : M A := fun w => Exit code w.

Definition send (r : xreq) : M unit :=
  fun w => Ret tt (mk_world (next_id w) (r :: requests w) (stdout w)).

Definition xcb_generate_id : M Z :=
  fun w => Ret (next_id w)
               (mk_world (next_id w + 1) (requests w) (stdout w)).

Definition print_window (f : format_t) (window : xcb_window_t) : M unit :=
  fun w => Ret tt (mk_world (next_id w) (requests w) ((f, window) :: stdout w)).

(** Exit statuses of <sysexits.h>. *)
Definition EX_USAGE : Z := 64.
Definition EX_SOFTWARE : Z := 70.

Definition xcw_die {A} : M A := exit EX_SOFTWARE.
Definition xcw_exit_match {A} : M A := exit 0.
Definition xcw_exit_no_match {A} : M A := exit 0.

(** ** Program data *)

Record keysyms_lookup_t := mk_ksl
  { ksl_character : ascii; ksl_keysym : xcb_keysym_t }.

(** [children] is the array of the C structure together with
    [children_size]; the [NULL] array is the empty list. *)
#[local] Unset Elimination Schemes.
Inductive window_setup_t := mk_wsetup
  { overlay_window : option xcb_window_t;
    overlay_font_gc : option xcb_gcontext_t;
    overlay_bg_gc : option xcb_gcontext_t;
    overlay_rect : option xcb_rectangle_t;
    window : option xcb_window_t;
    character : ascii;
    children : list window_setup_t }.
#[local] Set Elimination Schemes.

Definition children_size (wsetup : window_setup_t) : nat :=
  length (children wsetup).

Record xcw_input_t := mk_input
  { ksl : list keysyms_lookup_t;
    format : format_t }.

Definition ksl_size (input : xcw_input_t) : nat := length (ksl input).

Record xcw_state_t := mk_state
  { input : xcw_input_t;
    wsetups : list window_setup_t }.

Definition wsetups_size (state : xcw_state_t) : nat := length (wsetups state).

Definition choose_window {A} (input : xcw_input_t) (window : xcb_window_t)
  : M A :=
  print_window (format input) window ;;; xcw_exit_match.

(** ** Conversions between [int] and [double]

    [initialise_window_tracking] computes its depth in double precision.
    Division and the conversions are those of IEEE 754 binary64, which the
    primitive floats implement. *)

(** [(double) n] for a non-negative [int]. *)
Definition double_of_int (n : Z) : float :=
  PrimFloat.of_uint63 (Uint63.of_Z n).

(** [(int) x]: truncation toward zero, with no defined result for a NaN, an
    infinity or a value outside the range of [int]. *)
Definition int_of_double (x : float) : option Z :=
  match Prim2SF x with
  | S754_zero _ => Some 0%Z
  | S754_finite s m e =>
      let q := if (0 <=? e)%Z then Z.shiftl (Z.pos m) e
               else Z.shiftr (Z.pos m) (- e) in
      let v := if s then (- q)%Z else q in
      if ((- 2147483648 <=? v) && (v <=? 2147483647))%Z then Some v else None
  | _ => None
  end.

(** ** The [CHARACTERS] argument *)

(** Keysyms with an obvious 1-character representation (the keysym is written
    in decimal: 48 is 0x0030, 97 is 0x0061). *)
#[local] Open Scope char_scope.
#[local] Open Scope Z_scope.
Definition ALL_KEYSYMS_LOOKUP : list keysyms_lookup_t :=
  [ mk_ksl "0" 48; mk_ksl "1" 49; mk_ksl "2" 50;
    mk_ksl "3" 51; mk_ksl "4" 52; mk_ksl "5" 53;
    mk_ksl "6" 54; mk_ksl "7" 55; mk_ksl "8" 56;
    mk_ksl "9" 57; mk_ksl "a" 97; mk_ksl "b" 98;
    mk_ksl "c" 99; mk_ksl "d" 100; mk_ksl "e" 101;
    mk_ksl "f" 102; mk_ksl "g" 103; mk_ksl "h" 104;
    mk_ksl "i" 105; mk_ksl "j" 106; mk_ksl "k" 107;
    mk_ksl "l" 108; mk_ksl "m" 109; mk_ksl "n" 110;
    mk_ksl "o" 111; mk_ksl "p" 112; mk_ksl "q" 113;
    mk_ksl "r" 114; mk_ksl "s" 115; mk_ksl "t" 116;
    mk_ksl "u" 117; mk_ksl "v" 118; mk_ksl "w" 119;
    mk_ksl "x" 120; mk_ksl "y" 121; mk_ksl "z" 122 ].
#[local] Close Scope Z_scope.
#[local] Close Scope char_scope.

Fixpoint keysyms_lookup_find_char (ksl : list keysyms_lookup_t) (c : ascii)
  : option keysyms_lookup_t :=
  match ksl with
  | [] => None
  | k :: rest =>
      if Ascii.eqb (ksl_character k) c then Some k
      else keysyms_lookup_find_char rest c
  end.

Fixpoint keysyms_lookup_find_keysym (ksl : list keysyms_lookup_t)
    (ksym : xcb_keysym_t) : option keysyms_lookup_t :=
  match ksl with
  | [] => None
  | k :: rest =>
      if (ksl_keysym k =? ksym)%Z then Some k
      else keysyms_lookup_find_keysym rest ksym
  end.

(** [argp_error] prints the message and exits with [EX_USAGE]. *)
Definition argp_error {A} : M A := exit EX_USAGE.

(** The loop of [parse_arg_characters]: [found] is [input->ksl] up to
    [size]. *)
Fixpoint parse_characters (char_pool : list ascii)
    (found : list keysyms_lookup_t) : M (list keysyms_lookup_t) :=
  match char_pool with
  | [] => ret found
  | c :: rest =>
      match keysyms_lookup_find_char ALL_KEYSYMS_LOOKUP c with
      | None => argp_error
      | Some ksl_item =>
          match keysyms_lookup_find_char found c with
          | None => parse_characters rest (found ++ [ksl_item])
          | Some _ => parse_characters rest found
          end
      end
  end.

Definition parse_arg_characters (char_pool : list ascii)
    (input : xcw_input_t) : M xcw_input_t :=
  found <- parse_characters char_pool [] ;;
  if length found <? 2 then argp_error
  else ret (mk_input found (format input)).

(** ** Overlay windows and the tracking structure *)

Section Program.

(** The reply of the X server to [xcb_get_geometry], if any. *)
Variable get_geometry : xcb_window_t -> option xcb_get_geometry_reply_t.

(** [log] of <math.h>. *)
Variable log : float -> float.

Definition overlay_create (x y w h : Z) : M xcb_window_t :=
  win <- xcb_generate_id ;;
  send (CreateWindow win) ;;;
  send (SetWmClass win) ;;;
  send (ConfigureWindow win x y w h) ;;;
  send (MapWindow win) ;;;
  ret win.

Definition overlay_get_bg_gc (win : xcb_window_t) : M xcb_gcontext_t :=
  gc <- xcb_generate_id ;;
  send (CreateGC gc win) ;;;
  ret gc.

Definition overlay_get_font_gc (win : xcb_window_t) : M xcb_gcontext_t :=
  gc <- xcb_generate_id ;;
  send (CreateGC gc win) ;;;
  ret gc.

(** The renderer draws into a pixmap through a picture, with a pen (a pixmap
    and a picture) and a glyph set: five XIDs, then the text is composited
    and copied to the window.  What it does on the way is not modelled: the
    query of the text extents, whose missing reply ends the process, the
    loading of the glyphs, where [load_glyph] writes a message for a
    character that the font lacks, and the copy of the text, which is made
    into a block one byte short. *)
Definition xorg_draw_text_centred (win : xcb_window_t)
    (win_rect : xcb_rectangle_t) (gc : xcb_gcontext_t) (text : list ascii)
  : M unit :=
  pmap <- xcb_generate_id ;;
  picture <- xcb_generate_id ;;
  pen_pm <- xcb_generate_id ;;
  fg_pen <- xcb_generate_id ;;
  font <- xcb_generate_id ;;
  send (RenderText win gc text).

Definition initialise_window_setup (state : xcw_state_t)
    (window : xcb_window_t) (character : ascii) : M window_setup_t :=
  match get_geometry window with
  | None => xcw_die
  | Some ggr =>
      let rect := mk_rectangle 0 0 (geo_width ggr) (geo_height ggr) in
      overlay_window <- overlay_create
        (geo_border_width ggr + geo_x ggr)
        (geo_border_width ggr + geo_y ggr)
        (rect_width rect) (rect_height rect) ;;
      ret (mk_wsetup (Some overlay_window) None None (Some rect)
                     (Some window) character [])
  end.

(** [state->input->ksl[i].character]; reading past the end of the array has
    no defined behaviour. *)
Definition ksl_char (state : xcw_state_t) (i : nat) : M ascii :=
  match nth_error (ksl (input state)) i with
  | Some k => ret (ksl_character k)
  | None => undefined
  end.

(** The loop of the [remain_depth == 0] branch, from index [i] on, over the
    windows not yet visited. *)
Fixpoint tracking_leaves (state : xcw_state_t) (i : nat)
    (windows : list xcb_window_t) : M (list window_setup_t) :=
  match windows with
  | [] => ret []
  | window :: rest =>
      c <- ksl_char state i ;;
      wsetup <- initialise_window_setup state window c ;;
      wsetups <- tracking_leaves state (S i) rest ;;
      ret (wsetup :: wsetups)
  end.

(** The loop of the other branch: [todo] iterations are left, [i] is the
    loop index and [remain_windows] the windows not yet used up, of which the
    recursive call is given the first [children_windows_size].  [descend] is
    the recursive call with [remain_depth - 1]. *)
Fixpoint tracking_groups
    (descend : list xcb_window_t -> M (list window_setup_t))
    (state : xcw_state_t) (p r : nat) (todo i : nat)
    (remain_windows : list xcb_window_t) : M (list window_setup_t) :=
  match todo with
  | O => ret []
  | S todo' =>
      let children_windows_size := if i <? r then p + 1 else p in
      wsetup <-
        (if children_windows_size =? 1 then
           match remain_windows with
           | [] => undefined
           | window :: _ =>
               c <- ksl_char state i ;;
               initialise_window_setup state window c
           end
         else
           children <- descend (firstn children_windows_size remain_windows) ;;
           c <- ksl_char state i ;;
           ret (mk_wsetup None None None None None c children)) ;;
      wsetups <- tracking_groups descend state p r todo' (S i)
                   (skipn children_windows_size remain_windows) ;;
      ret (wsetup :: wsetups)
  end.

Fixpoint _initialise_window_tracking (state : xcw_state_t)
    (remain_depth : nat) (windows : list xcb_window_t)
  : M (list window_setup_t) :=
  match remain_depth with
  | O => tracking_leaves state 0 windows
  | S remain_depth' =>
      let windows_size := length windows in
      match ksl_size (input state) with
      | O => undefined
      | S _ as size =>
          let p := windows_size / size in
          let r := windows_size mod size in
          let n := if 0 <? p then size else r in
          tracking_groups
            (_initialise_window_tracking state remain_depth')
            state p r n 0 windows
      end
  end.

(** [(int)(log(max(windows_size - 1, 1)) / log(ksl_size))].  The logarithm is
    never negative on an argument that is at least 1, and the recursion above
    is written for a depth that counts down to 0: a negative value is given no
    behaviour. *)
Definition tracking_depth (windows_size ksl_size : nat) : option nat :=
  match int_of_double
          (log (double_of_int (Z.max (Z.of_nat windows_size - 1) 1)) /
           log (double_of_int (Z.of_nat ksl_size)))%float with
  | Some d => if (d <? 0)%Z then None else Some (Z.to_nat d)
  | None => None
  end.

Definition initialise_window_tracking (state : xcw_state_t)
    (windows : list xcb_window_t) : M xcw_state_t :=
  match tracking_depth (length windows) (ksl_size (input state)) with
  | None => undefined
  | Some depth =>
      wsetups <- _initialise_window_tracking state depth windows ;;
      ret (mk_state (input state) wsetups)
  end.

(** ** Text on the overlays *)

Definition overlay_set_text (wsetup : window_setup_t) (text : list ascii)
  : M window_setup_t :=
  match overlay_window wsetup with
  | None => ret wsetup
  | Some win =>
      bg_gc <- match overlay_bg_gc wsetup with
               | None => overlay_get_bg_gc win
               | Some gc => ret gc
               end ;;
      font_gc <- match overlay_font_gc wsetup with
                 | None => overlay_get_font_gc win
                 | Some gc => ret gc
                 end ;;
      match overlay_rect wsetup with
      | None => undefined
      | Some rect =>
          send (PolyFillRectangle win bg_gc rect) ;;;
          xorg_draw_text_centred win rect font_gc text ;;;
          ret (mk_wsetup (Some win) (Some font_gc) (Some bg_gc) (Some rect)
                         (window wsetup) (character wsetup)
                         (children wsetup))
      end
  end.

(** The loops over an array of structures: [update_each] for a body that
    changes the element it is given, [for_each] for one that does not. *)
Definition update_each (body : window_setup_t -> M window_setup_t)
  : list window_setup_t -> M (list window_setup_t) :=
  fix loop (l : list window_setup_t) : M (list window_setup_t) :=
    match l with
    | [] => ret []
    | wsetup :: l' =>
        wsetup' <- body wsetup ;;
        rest <- loop l' ;;
        ret (wsetup' :: rest)
    end.

Definition for_each (body : window_setup_t -> M unit)
  : list window_setup_t -> M unit :=
  fix loop (l : list window_setup_t) : M unit :=
    match l with
    | [] => ret tt
    | wsetup :: l' => body wsetup ;;; loop l'
    end.

(** One iteration of the loop of [_overlays_set_text] on the element
    [wsetup], with the recursive call on its children written out: the call
    does nothing when the text has reached 255 characters. *)
Fixpoint overlays_set_text_at (text : list ascii) (wsetup : window_setup_t)
  {struct wsetup} : M window_setup_t :=
  let new_text := text ++ [character wsetup] in
  wsetup' <- overlay_set_text wsetup new_text ;;
  children' <-
    (if 255 <? length new_text + 1 then ret (children wsetup)
     else update_each (overlays_set_text_at new_text) (children wsetup)) ;;
  ret (mk_wsetup (overlay_window wsetup') (overlay_font_gc wsetup')
                 (overlay_bg_gc wsetup') (overlay_rect wsetup')
                 (window wsetup') (character wsetup') children').

Definition _overlays_set_text (wsetups : list window_setup_t)
    (text : list ascii) : M (list window_setup_t) :=
  if 255 <? length text + 1 then ret wsetups
  else update_each (overlays_set_text_at text) wsetups.

Definition overlays_set_text (state : xcw_state_t) : M xcw_state_t :=
  wsetups' <- _overlays_set_text (wsetups state) [] ;;
  send Flush ;;;
  ret (mk_state (input state) wsetups').

(** ** Freeing and choosing *)

Fixpoint wsetup_free (wsetup : window_setup_t) : M unit :=
  match overlay_window wsetup with
  | Some w => send (DestroyWindow w)
  | None => ret tt
  end ;;;
  match overlay_bg_gc wsetup with
  | Some gc => send (FreeGC gc)
  | None => ret tt
  end ;;;
  match overlay_font_gc wsetup with
  | Some gc => send (FreeGC gc)
  | None => ret tt
  end ;;;
  for_each wsetup_free (children wsetup) ;;;
  send Flush.

Definition wsetup_choose (state : xcw_state_t) (wsetup : window_setup_t)
  : M xcw_state_t :=
  match window wsetup, children_size wsetup with
  | Some win, O => choose_window (input state) win
  | _, _ =>
      overlays_set_text (mk_state (input state) (children wsetup))
  end.

(** The loop of [wsetups_descend_by_index] from index [i] on; [wsetups] is
    the local copy of the array taken before the loop, [state] changes during
    the iteration. *)
Fixpoint descend_from (state : xcw_state_t) (index i : nat)
    (wsetups : list window_setup_t) : M xcw_state_t :=
  match wsetups with
  | [] => ret state
  | wsetup :: rest =>
      state' <- (if i =? index then wsetup_choose state wsetup
                 else wsetup_free wsetup ;;; ret state) ;;
      descend_from state' index (S i) rest
  end.

Definition wsetups_descend_by_index (state : xcw_state_t) (index : nat)
  : M xcw_state_t :=
  descend_from state index 0 (wsetups state).

(** The search loop of [wsetups_descend_by_char]: the first index, counted
    from [i], whose character is [c]. *)
Fixpoint find_index (c : ascii) (i : nat) (wsetups : list window_setup_t)
  : option nat :=
  match wsetups with
  | [] => None
  | wsetup :: rest =>
      if Ascii.eqb (character wsetup) c then Some i
      else find_index c (S i) rest
  end.

Definition wsetups_descend_by_char (state : xcw_state_t) (c : ascii)
  : M xcw_state_t :=
  match find_index c 0 (wsetups state) with
  | None => xcw_exit_no_match
  | Some index => wsetups_descend_by_index state index
  end.

(** ** Key lookups and key presses *)

(** The key press carries the keysym that [xcb_key_press_lookup_keysym]
    finds for it. *)
Definition handle_keypress (state : xcw_state_t) (ksym : xcb_keysym_t)
  : M xcw_state_t :=
  match keysyms_lookup_find_keysym (ksl (input state)) ksym with
  | None => xcw_exit_no_match
  | Some ksl_item => wsetups_descend_by_char state (ksl_character ksl_item)
  end.

(** ** The program

    [main] after the connection to the X server is set up.  [characters] is
    the [CHARACTERS] argument if there is one, [windows] what
    [initialise_tracked_windows] finds, and [events] the events that
    [xcb_poll_for_event] delivers, of which the model takes a finite number:
    when they are used up the program is still waiting. *)

Inductive xcb_event :=
| Error (error_code : Z)
| Expose
| KeyPress (ksym : xcb_keysym_t)
| OtherEvent.

Definition parse_args (characters : option (list ascii)) (f : format_t)
  : M xcw_input_t :=
  match characters with
  | None => exit EX_USAGE
  | Some char_pool => parse_arg_characters char_pool (mk_input [] f)
  end.

Fixpoint event_loop (state : xcw_state_t) (events : list xcb_event)
  : M xcw_state_t :=
  match events with
  | [] => ret state
  | event :: rest =>
      state' <- match event with
                | Error _ => xcw_die
                | Expose => overlays_set_text state
                | KeyPress ksym => handle_keypress state ksym
                | OtherEvent => ret state
                end ;;
      event_loop state' rest
  end.

Definition start (state : xcw_state_t) : M xcw_state_t :=
  match wsetups state with
  | [] => xcw_exit_no_match
  | [wsetup] => wsetup_choose state wsetup
  | _ => overlays_set_text state
  end.

Definition main (characters : option (list ascii)) (f : format_t)
    (windows : list xcb_window_t) (events : list xcb_event)
  : M xcw_state_t :=
  input <- parse_args characters f ;;
  state <- initialise_window_tracking (mk_state input []) windows ;;
  state' <- start state ;;
  event_loop state' events.

End Program.

Unset Implicit Arguments.

(** * Before the tracking structure is built

    The keyboard grab, the choice of the windows to track and the command
    line.  What the X server answers is given with the connection: a request
    that asks for a reply is answered by a field of [xcb_connection_t] and is
    not recorded among the [requests] of the [world].  [initialise_xorg],
    which opens the connection and interns the atoms, is not modelled: the
    root window and the atoms are given. *)

Definition xcb_atom_t := Z.

Definition XCB_ATOM_ATOM : xcb_atom_t := 4%Z.
Definition XCB_ATOM_WINDOW : xcb_atom_t := 33%Z.
Definition XCB_MAP_STATE_VIEWABLE : Z := 2%Z.
Definition XCB_GRAB_STATUS_SUCCESS : Z := 0%Z.
Definition XCB_GRAB_STATUS_ALREADY_GRABBED : Z := 1%Z.

(** Number of windows requested from [_NET_CLIENT_LIST]. *)
Definition MAX_WINDOWS : Z := 1024%Z.

(** The fields of an attributes reply that [xorg_window_normal] reads. *)
Record xcb_get_window_attributes_reply_t := mk_attributes
  { map_state : Z; override_redirect : Z }.

(** The replies of the X server.  A property value is given as the 32-bit
    items it holds; the reply to [xcb_get_property] depends on the window, the
    property, the type and the number of items asked for.  The keyboard grab
    is asked for again and again, and [grab_keyboard_reply] gives the reply to
    each attempt. *)
Record xcb_connection_t := mk_xcon
  { query_tree_reply : xcb_window_t -> option (list xcb_window_t);
    list_properties_reply : xcb_window_t -> option (list xcb_atom_t);
    get_property_reply :
      xcb_window_t -> xcb_atom_t -> xcb_atom_t -> Z -> option (list Z);
    get_window_attributes_reply :
      xcb_window_t -> option xcb_get_window_attributes_reply_t;
    grab_keyboard_reply : nat -> option Z }.

(** The atoms of [xcb_ewmh_connection_t] with which the program asks for a
    property.  The six atoms of window types (toolbar, menu, utility, splash,
    dialog, normal) are only compared with a value that [ewmh_window_normal]
    reads from freed memory, and are left out. *)
Record xcb_ewmh_connection_t := mk_ewmh
  { _NET_CLIENT_LIST : xcb_atom_t;
    _NET_WM_WINDOW_TYPE : xcb_atom_t }.

(** The fields of [xcw_state_t] that [initialise_xorg] sets and the windows
    to track are chosen with. *)
Record xcw_display_t := mk_display
  { xcon : xcb_connection_t;
    xroot : xcb_window_t;
    ewmh : xcb_ewmh_connection_t }.

(** The fields of the C [xcw_input_t] that the tracking structure does not
    read; [font_path] is [None] for the [NULL] pointer. *)
Record xcw_options_t := mk_options
  { blacklist : list xcb_window_t;
    whitelist : list xcb_window_t;
    font_size : Z;
    font_path : option (list ascii) }.

(** ** The windows to track *)

(** The search loop of [xorg_window_has_property]. *)
Fixpoint has_atom (props : list xcb_atom_t) (prop : xcb_atom_t) : bool :=
  match props with
  | [] => false
  | a :: rest => if (a =? prop)%Z then true else has_atom rest prop
  end.

Definition xorg_window_has_property (xcon : xcb_connection_t)
    (window : xcb_window_t) (prop : xcb_atom_t) : M bool :=
  match list_properties_reply xcon window with
  | None => xcw_die
  | Some props => ret (has_atom props prop)
  end.

Definition xorg_window_normal (xcon : xcb_connection_t)
    (window : xcb_window_t) : M bool :=
  match get_window_attributes_reply xcon window with
  | None => xcw_die
  | Some gwar =>
      ret ((map_state gwar =? XCB_MAP_STATE_VIEWABLE)%Z &&
           (override_redirect gwar =? 0)%Z)
  end.

(** One item of [_NET_WM_WINDOW_TYPE] is asked for, and the reply is freed
    before the result is computed.  When the value is empty
    ([prop_len == 0]) the result is 1 and nothing more is read.  When it is
    not, [window_type[0]] is read from the freed reply to be compared with
    the six window types: a read of freed memory, which has no defined
    behaviour. *)
Definition ewmh_window_normal (display : xcw_display_t)
    (window : xcb_window_t) : M bool :=
  match get_property_reply (xcon display) window
          (_NET_WM_WINDOW_TYPE (ewmh display)) XCB_ATOM_ATOM 1 with
  | None => xcw_die
  | Some window_type =>
      match window_type with
      | [] => ret true
      | _ :: _ => undefined
      end
  end.

Definition xorg_get_windows (display : xcw_display_t)
  : M (list xcb_window_t) :=
  match query_tree_reply (xcon display) (xroot display) with
  | None => xcw_die
  | Some referenced_windows => ret referenced_windows
  end.

(** [Some windows] when [is_defined] is set, [None] when it is not and
    [windows] is left unset. *)
Definition xorg_get_managed_windows (display : xcw_display_t)
  : M (option (list xcb_window_t)) :=
  is_defined <- xorg_window_has_property (xcon display) (xroot display)
                  (_NET_CLIENT_LIST (ewmh display)) ;;
  if is_defined : bool then
    match get_property_reply (xcon display) (xroot display)
            (_NET_CLIENT_LIST (ewmh display)) XCB_ATOM_WINDOW MAX_WINDOWS with
    | None => xcw_die
    | Some referenced_windows => ret (Some referenced_windows)
    end
  else ret None.

Fixpoint xorg_window_managed (window : xcb_window_t)
    (managed_windows : list xcb_window_t) : bool :=
  match managed_windows with
  | [] => false
  | m :: rest =>
      if (m =? window)%Z then true else xorg_window_managed window rest
  end.

Fixpoint xorg_contains_window (windows : list xcb_window_t)
    (window : xcb_window_t) : bool :=
  match windows with
  | [] => false
  | x :: rest =>
      if (x =? window)%Z then true else xorg_contains_window rest window
  end.

(** The tests of the loop of [initialise_tracked_windows] that ask the
    server nothing; [managed] is [managed_windows] when
    [managed_windows_defined] is set. *)
Definition listed (options : xcw_options_t)
    (managed : option (list xcb_window_t)) (window : xcb_window_t) : bool :=
  negb (match managed with
        | Some managed_windows =>
            negb (xorg_window_managed window managed_windows)
        | None => false
        end) &&
  ((length (whitelist options) =? 0) ||
   xorg_contains_window (whitelist options) window) &&
  negb (xorg_contains_window (blacklist options) window).

(** The loop of [initialise_tracked_windows] over the windows not yet
    visited: the two calls that ask the server are made only when the tests
    before them hold. *)
Fixpoint select_windows (display : xcw_display_t) (options : xcw_options_t)
    (managed : option (list xcb_window_t)) (all_windows : list xcb_window_t)
  : M (list xcb_window_t) :=
  match all_windows with
  | [] => ret []
  | window :: rest =>
      keep <- (if listed options managed window then
                 normal <- xorg_window_normal (xcon display) window ;;
                 if normal : bool then ewmh_window_normal display window
                 else ret false
               else ret false) ;;
      windows <- select_windows display options managed rest ;;
      ret (if keep : bool then window :: windows else windows)
  end.

Definition initialise_tracked_windows (display : xcw_display_t)
    (options : xcw_options_t) : M (list xcb_window_t) :=
  all_windows <- xorg_get_windows display ;;
  managed <- xorg_get_managed_windows display ;;
  select_windows display options managed all_windows.

(** ** The keyboard grab *)

(** The loop of [initialise_input] with [todo] iterations left, [s] being
    the loop counter; [status] is the local variable, which holds nothing
    before the first reply. *)
Fixpoint grab_loop (xcon : xcb_connection_t) (status : option Z)
    (todo s : nat) : M (option Z) :=
  match todo with
  | O => ret status
  | S todo' =>
      match grab_keyboard_reply xcon s with
      | Some gkr_status =>
          if (gkr_status =? XCB_GRAB_STATUS_ALREADY_GRABBED)%Z then
            grab_loop xcon (Some gkr_status) todo' (S s)
          else if (gkr_status =? XCB_GRAB_STATUS_SUCCESS)%Z then
            ret (Some gkr_status)
          else xcw_die
      | None => xcw_die
      end
  end.

Definition initialise_input (xcon : xcb_connection_t) : M unit :=
  status <- grab_loop xcon None 1000 0 ;;
  match status with
  | None => undefined
  | Some status =>
      if (status =? XCB_GRAB_STATUS_ALREADY_GRABBED)%Z then xcw_die
      else ret tt
  end.

(** ** The command line *)

(** [strcmp(a, b) == 0]. *)
Fixpoint str_equal (a b : list ascii) : bool :=
  match a, b with
  | [], [] => true
  | x :: a', y :: b' => Ascii.eqb x y && str_equal a' b'
  | _, _ => false
  end.

(** The key of the option written with the character [c]. *)
Definition option_key (c : ascii) : Z := Z.of_N (N_of_ascii c).

Definition ARGP_KEY_ARG : Z := 0%Z.

(** [ARGP_ERR_UNKNOWN] is [E2BIG]. *)
Definition ARGP_ERR_UNKNOWN : Z := 7%Z.

Definition xcw_fail {A} (code : Z) : M A := exit code.

(** What ends the calls that [argp_parse] makes: the end of the command
    line, an option that [argp_parse] serves by itself, or something that it
    refuses. *)
Inductive argp_ending_t := ARGP_END | ARGP_SERVED | ARGP_REFUSED.

Section CommandLine.

(** [strtol] of <stdlib.h> with base 0: the value it returns and the value of
    [errno] after the call.  [atoi] of <stdlib.h>. *)
Variable strtol : list ascii -> Z * Z.
Variable atoi : list ascii -> Z.

Definition parse_arg_window_list (window_id : list ascii)
    (windows : list xcb_window_t) : M (list xcb_window_t) :=
  let (window, errno) := strtol window_id in
  (if negb (errno =? 0)%Z || (window <=? 0)%Z || (4294967295 <? window)%Z
   then argp_error else ret tt) ;;;
  ret (windows ++ [window]).

Definition parse_arg_format (format : list ascii) (input : xcw_input_t)
  : M xcw_input_t :=
  if str_equal format ["d"; "e"; "c"; "i"; "m"; "a"; "l"]%char then
    ret (mk_input (ksl input) FORMAT_DEC)
  else if str_equal format
            ["h"; "e"; "x"; "a"; "d"; "e"; "c"; "i"; "m"; "a"; "l"]%char then
    ret (mk_input (ksl input) FORMAT_HEX)
  else argp_error.

Definition parse_arg_font_size (font_size : list ascii)
    (options : xcw_options_t) : M xcw_options_t :=
  ret (mk_options (blacklist options) (whitelist options) (atoi font_size)
                  (font_path options)).

Definition parse_arg_font_path (font_path : list ascii)
    (options : xcw_options_t) : M xcw_options_t :=
  ret (mk_options (blacklist options) (whitelist options)
                  (font_size options) (Some font_path)).

(** [arg_num] is [state->arg_num]; the result is the value returned with the
    input as the call leaves it. *)
Definition parse_arg (key : Z) (value : list ascii) (arg_num : nat)
    (input : xcw_input_t) (options : xcw_options_t)
  : M (Z * (xcw_input_t * xcw_options_t)) :=
  if (key =? option_key "b")%Z then
    windows <- parse_arg_window_list value (blacklist options) ;;
    ret (0%Z, (input, mk_options windows (whitelist options)
                                 (font_size options) (font_path options)))
  else if (key =? option_key "w")%Z then
    windows <- parse_arg_window_list value (whitelist options) ;;
    ret (0%Z, (input, mk_options (blacklist options) windows
                                 (font_size options) (font_path options)))
  else if (key =? option_key "f")%Z then
    input' <- parse_arg_format value input ;;
    ret (0%Z, (input', options))
  else if (key =? option_key "s")%Z then
    options' <- parse_arg_font_size value options ;;
    ret (0%Z, (input, options'))
  else if (key =? option_key "t")%Z then
    options' <- parse_arg_font_path value options ;;
    ret (0%Z, (input, options'))
  else if (key =? ARGP_KEY_ARG)%Z then
    if arg_num =? 0 then
      input' <- parse_arg_characters value input ;;
      ret (0%Z, (input', options))
    else ret (ARGP_ERR_UNKNOWN, (input, options))
  else ret (ARGP_ERR_UNKNOWN, (input, options)).

(** [argp_parse] calls [parse_arg] with each option and each argument of the
    command line, given here with their keys in the order of the calls, and
    counts the arguments that were taken.  An argument that is answered with
    [ARGP_ERR_UNKNOWN] is one too many, which ends the process as
    [argp_error] does; the same answer to another key is passed over.

    After the calls [argp_parse] is at the end of the command line, or at
    something it does not hand to [parse_arg] ([ending]).  It is called with
    the flags 0 and [argp_program_version] is set, so it serves [--help],
    [-?], [--usage], [--version] and [-V] by itself: it writes the text asked
    for and ends the process with status 0.  An option that is not one of
    [options], or one that lacks its value, is refused as [argp_error]
    does. *)
Fixpoint argp_parse (calls : list (Z * list ascii)) (ending : argp_ending_t)
    (arg_num : nat) (input : xcw_input_t) (options : xcw_options_t)
  : M (xcw_input_t * xcw_options_t) :=
  match calls with
  | [] =>
      match ending with
      | ARGP_END => ret (input, options)
      | ARGP_SERVED => exit 0
      | ARGP_REFUSED => argp_error
      end
  | (key, value) :: rest =>
      r <- parse_arg key value arg_num input options ;;
      if (fst r =? 0)%Z then
        argp_parse rest ending
          (if (key =? ARGP_KEY_ARG)%Z then S arg_num else arg_num)
          (fst (snd r)) (snd (snd r))
      else if (key =? ARGP_KEY_ARG)%Z then argp_error
      else argp_parse rest ending arg_num (fst (snd r)) (snd (snd r))
  end.

(** [parse_args] on the calls that [argp_parse] makes for [argv] and on what
    ends them. *)
Definition parse_argv (calls : list (Z * list ascii))
    (ending : argp_ending_t) : M (xcw_input_t * xcw_options_t) :=
  parsed <- argp_parse calls ending 0 (mk_input [] FORMAT_DEC)
                       (mk_options [] [] 0 None) ;;
  match ksl (fst parsed) with
  | [] => xcw_fail EX_USAGE
  | _ :: _ => ret parsed
  end.

End CommandLine.

(** ** The program from the command line on *)

(** [main] with the steps that come before the tracking structure:
    the command line, the keyboard grab and the windows to track. *)
Definition main_argv
    (get_geometry : xcb_window_t -> option xcb_get_geometry_reply_t)
    (log : float -> float) (strtol : list ascii -> Z * Z)
    (atoi : list ascii -> Z) (display : xcw_display_t)
    (calls : list (Z * list ascii)) (ending : argp_ending_t)
    (events : list xcb_event)
  : M xcw_state_t :=
  parsed <- parse_argv strtol atoi calls ending ;;
  initialise_input (xcon display) ;;;
  windows <- initialise_tracked_windows display (snd parsed) ;;
  state <- initialise_window_tracking get_geometry log
             (mk_state (fst parsed) []) windows ;;
  state' <- start state ;;
  event_loop state' events.

(** ** Printing a structure *)

(** The lines that [_wsetup_debug_print] prints: for each, the number of
    indentations, the character and the window if there is one. *)
Fixpoint _wsetup_debug_print (wsetup : window_setup_t) (depth : nat)
  : list (nat * ascii * option xcb_window_t) :=
  (depth, character wsetup, window wsetup) ::
  flat_map (fun child => _wsetup_debug_print child (S depth))
           (children wsetup).

Definition wsetup_debug_print (wsetup : window_setup_t)
  : list (nat * ascii * option xcb_window_t) :=
  _wsetup_debug_print wsetup 0.

(** * What is observed of a structure and of a world *)

Definition opt_list {A} (o : option A) : list A :=
  match o with Some a => [a] | None => [] end.

(** The overlay windows held in a structure. *)
Fixpoint handles (wsetup : window_setup_t) : list xcb_window_t :=
  opt_list (overlay_window wsetup) ++ flat_map handles (children wsetup).

(** The tracked windows of a structure, from left to right. *)
Fixpoint tracked (wsetup : window_setup_t) : list xcb_window_t :=
  opt_list (window wsetup) ++ flat_map tracked (children wsetup).

(** The number of structures without children in a structure. *)
Fixpoint leaf_count (wsetup : window_setup_t) : nat :=
  match children wsetup with
  | [] => 1
  | _ :: _ => list_sum (map leaf_count (children wsetup))
  end.

(** The strings to type, each with the window it chooses. *)
Fixpoint labels (wsetup : window_setup_t)
  : list (list ascii * xcb_window_t) :=
  map (fun win => ([character wsetup], win)) (opt_list (window wsetup)) ++
  map (fun l => (character wsetup :: fst l, snd l))
      (flat_map labels (children wsetup)).

(** The strings alone. *)
Definition paths (wsetup : window_setup_t) : list (list ascii) :=
  map fst (labels wsetup).

(** Number of levels of a structure. *)
Fixpoint levels (wsetup : window_setup_t) : nat :=
  S (list_max (map levels (children wsetup))).

Definition All {A} (P : A -> Prop) : list A -> Prop :=
  fix all (l : list A) : Prop :=
    match l with
    | [] => True
    | x :: l' => P x /\ all l'
    end.

(** A structure as the builder makes them: a node without children tracks a
    window under an overlay, a node with children has neither. *)
Fixpoint well_formed (wsetup : window_setup_t) : Prop :=
  match children wsetup with
  | [] => overlay_window wsetup <> None /\ overlay_rect wsetup <> None /\
          window wsetup <> None
  | _ :: _ => overlay_window wsetup = None /\ window wsetup = None /\
              All well_formed (children wsetup)
  end.

(** Below [wsetup], every array of children carries the first characters of
    [cs], in order. *)
Fixpoint labelled (cs : list ascii) (wsetup : window_setup_t) : Prop :=
  map character (children wsetup) = firstn (length (children wsetup)) cs /\
  All (labelled cs) (children wsetup).

(** A structure without its graphics contexts: what [overlay_set_text] leaves
    unchanged. *)
Fixpoint forget_gcs (wsetup : window_setup_t) : window_setup_t :=
  mk_wsetup (overlay_window wsetup) None None (overlay_rect wsetup)
            (window wsetup) (character wsetup)
            (map forget_gcs (children wsetup)).

Definition characters_of (state : xcw_state_t) : list ascii :=
  map ksl_character (ksl (input state)).

(** Windows created and windows destroyed, in the order of the requests. *)
Fixpoint created (rs : list xreq) : list xcb_window_t :=
  match rs with
  | [] => []
  | CreateWindow win :: rs' => created rs' ++ [win]
  | _ :: rs' => created rs'
  end.

Fixpoint destroyed (rs : list xreq) : list xcb_window_t :=
  match rs with
  | [] => []
  | DestroyWindow win :: rs' => destroyed rs' ++ [win]
  | _ :: rs' => destroyed rs'
  end.

(** An overlay window is live when it was created and not destroyed. *)
Definition live (w : world) (win : xcb_window_t) : Prop :=
  In win (created (requests w)) /\ ~ In win (destroyed (requests w)).

(** The overlay windows created and destroyed and the output are the same in
    [w'] as in [w]. *)
Definition same_windows (w w' : world) : Prop :=
  created (requests w') = created (requests w) /\
  destroyed (requests w') = destroyed (requests w) /\
  stdout w' = stdout w.

(** From [w] to [w'] the overlay windows [wins] were destroyed, in this
    order, and nothing else was created, destroyed or printed. *)
Definition released (w : world) (wins : list xcb_window_t) (w' : world)
  : Prop :=
  created (requests w') = created (requests w) /\
  destroyed (requests w') = destroyed (requests w) ++ wins /\
  stdout w' = stdout w.

(** [n] consecutive XIDs. *)
Definition ids (first : Z) (n : nat) : list Z :=
  map (fun k => (first + Z.of_nat k)%Z) (seq 0 n).

(** The requests of [overlay_create] for the overlay [id] of a window of
    geometry [ggr], the latest first. *)
Definition overlay_requests (id : xcb_window_t)
    (ggr : xcb_get_geometry_reply_t) : list xreq :=
  [ MapWindow id;
    ConfigureWindow id (geo_border_width ggr + geo_x ggr)
                    (geo_border_width ggr + geo_y ggr)
                    (geo_width ggr) (geo_height ggr);
    SetWmClass id;
    CreateWindow id ].

(** * What the builder is to do *)

(** Every geometry request for one of [windows] is answered. *)
Definition answered
    (get_geometry : xcb_window_t -> option xcb_get_geometry_reply_t)
    (windows : list xcb_window_t) : Prop :=
  forall win, In win windows -> get_geometry win <> None.

(** The depth is the exact one when it is the integer part of the logarithm
    of [max (windows_size - 1) 1] in base [ksl_size]. *)
Definition exact_depth (ksl_size windows_size depth : nat) : Prop :=
  ksl_size ^ depth <= Nat.max (windows_size - 1) 1 < ksl_size ^ S depth.

(** The sizes of the groups made by [todo] iterations from index [i]. *)
Definition group_sizes (p r i todo : nat) : list nat :=
  map (fun j => if j <? r then p + 1 else p) (seq i todo).

(** Consecutive pieces of [l] of the given sizes. *)
Fixpoint chunks {A} (sizes : list nat) (l : list A) : list (list A) :=
  match sizes with
  | [] => []
  | n :: sizes' => firstn n l :: chunks sizes' (skipn n l)
  end.

(** The partition of one level as the specification words it: [min N K]
    groups that follow each other in the order of the windows, where with
    [p = N / K] and [r = N mod K] the first [r] groups have [p + 1] windows
    and the others [p]. *)
Definition level_groups (K : nat) (windows : list xcb_window_t)
  : list (list xcb_window_t) :=
  let N := length windows in
  chunks (group_sizes (N / K) (N mod K) 0 (Nat.min N K)) windows.

(** What [_initialise_window_tracking] has done when it returns [ws] in the
    world [w'], started in [w] on [windows] with the characters [cs] and
    [depth] levels below the first: the windows are tracked in order, their
    overlays have the next XIDs, nothing was destroyed or printed. *)
Record built (cs : list ascii) (depth : nat) (windows : list xcb_window_t)
    (w : world) (ws : list window_setup_t) (w' : world) : Prop :=
  { built_tracked : flat_map tracked ws = windows;
    built_handles : flat_map handles ws = ids (next_id w) (length windows);
    built_next : next_id w' = (next_id w + Z.of_nat (length windows))%Z;
    built_created :
      created (requests w') =
      created (requests w) ++ ids (next_id w) (length windows);
    built_destroyed : destroyed (requests w') = destroyed (requests w);
    built_stdout : stdout w' = stdout w;
    built_well_formed : Forall well_formed ws;
    built_labelled : Forall (labelled cs) ws;
    built_levels : Forall (fun x => levels x <= S depth) ws }.

(** * What the parser is to do *)

(** One of the characters 0-9 and a-z. *)
Definition known (c : ascii) : bool :=
  match keysyms_lookup_find_char ALL_KEYSYMS_LOOKUP c with
  | Some _ => true
  | None => false
  end.

(** The entry of [ALL_KEYSYMS_LOOKUP] for a known character. *)
Definition lookup (c : ascii) : keysyms_lookup_t :=
  match keysyms_lookup_find_char ALL_KEYSYMS_LOOKUP c with
  | Some k => k
  | None => mk_ksl c 0%Z
  end.

(** The characters of [l] that are not in [seen], each at its first
    occurrence. *)
Fixpoint distinct_from (seen l : list ascii) : list ascii :=
  match l with
  | [] => []
  | c :: rest =>
      if existsb (Ascii.eqb c) seen then distinct_from seen rest
      else c :: distinct_from (seen ++ [c]) rest
  end.

(** * The invariant of the waiting program *)

(** What holds of the current array and the world while the program waits
    for a key: the structures are as the builder makes them, their overlays
    are pairwise different and are exactly the live ones, and every overlay
    created is either destroyed or still held. *)
Definition tracking_invariant (state : xcw_state_t) (w : world) : Prop :=
  Forall well_formed (wsetups state) /\
  wsetups state <> [] /\
  NoDup (flat_map handles (wsetups state)) /\
  (forall h, live w h <-> In h (flat_map handles (wsetups state))) /\
  length (created (requests w)) =
  length (destroyed (requests w)) +
  length (flat_map handles (wsetups state)).

(** Fewer overlay windows were destroyed than were created. *)
Definition overlays_left (w : world) : Prop :=
  length (destroyed (requests w)) < length (created (requests w)).

(** What a step of the waiting program comes to: it goes on waiting with the
    invariant, or the process has exited with overlays left. *)
Definition waiting_or_exited (o : outcome xcw_state_t) : Prop :=
  match o with
  | Ret st w => tracking_invariant st w
  | Exit _ w => overlays_left w
  | Undef => False
  end.

(** When the process has exited: no more overlay windows were destroyed than
    created, and fewer unless none was created. *)
Definition exited_with_overlays (w : world) : Prop :=
  length (destroyed (requests w)) <= length (created (requests w)) /\
  (created (requests w) <> [] -> overlays_left w).

(** * Statements of the specification that the program does not meet *)

(** The least [e], counted from [e], with [a <= k ^ e]; [fuel] bounds the
    search. *)
Fixpoint ceil_log_from (k a fuel e : nat) : nat :=
  match fuel with
  | O => e
  | S fuel' => if a <=? k ^ e then e else ceil_log_from k a fuel' (S e)
  end.

(** The depth as the specification words it:
    [max(1, ceil(log(max(N-1,1)) / log(K)))]. *)
Definition spec_depth (N K : nat) : nat :=
  Nat.max 1 (ceil_log_from K (Nat.max (N - 1) 1) (Nat.max (N - 1) 1) 0).

(** The bound on the labels as the specification states it: every window
    gets a string of its own, of at most [spec_depth] characters. *)
Definition labels_within_spec_depth
    (get_geometry : xcb_window_t -> option xcb_get_geometry_reply_t)
    (log : float -> float) (state : xcw_state_t)
    (windows : list xcb_window_t) (w : world) : Prop :=
  exists st w',
    initialise_window_tracking get_geometry log state windows w = Ret st w' /\
    map snd (flat_map labels (wsetups st)) = windows /\
    NoDup (map fst (flat_map labels (wsetups st))) /\
    Forall (fun l => length (fst l)
                     <= spec_depth (length windows) (ksl_size (input state)))
           (flat_map labels (wsetups st)).

(** Descending by a character that is found at a structure tracking a window,
    as the specification words it: the window is chosen, and every overlay
    held in the current array was destroyed. *)
Definition chooses_and_releases_all (state : xcw_state_t) (c : ascii)
    (w : world) : Prop :=
  exists win w',
    wsetups_descend_by_char state c w = Exit 0 w' /\
    stdout w' = (format (input state), win) :: stdout w /\
    forall h, In h (flat_map handles (wsetups state)) ->
              In h (destroyed (requests w')).

(** Descending by a character that is not found, as the specification words
    it: nothing is chosen, and every overlay held in the current array was
    destroyed. *)
Definition cancels_and_releases_all (state : xcw_state_t) (c : ascii)
    (w : world) : Prop :=
  exists w',
    wsetups_descend_by_char state c w = Exit 0 w' /\
    stdout w' = stdout w /\
    forall h, In h (flat_map handles (wsetups state)) ->
              In h (destroyed (requests w')).

(** The resource invariant as the specification words it: each structure of
    the current array holds a live overlay, and every live overlay is held
    by a structure of the current array. *)
Definition frontier_holds_the_overlays (state : xcw_state_t) (w : world)
  : Prop :=
  (forall x, In x (wsetups state) ->
             exists h, overlay_window x = Some h /\ live w h) /\
  (forall h, live w h ->
             exists x, In x (wsetups state) /\ overlay_window x = Some h).

(** Alphabet construction as the specification words it: it fails exactly on
    fewer than two symbols or on a repeated symbol. *)
Definition fails_on_short_or_repeated (char_pool : list ascii)
    (input : xcw_input_t) (w : world) : Prop :=
  (exists w', parse_arg_characters char_pool input w = Exit EX_USAGE w') <->
  (length char_pool < 2 \/ ~ NoDup char_pool).

(** The start on a single window as the specification words it: the window
    is chosen at once, and no overlay was created or destroyed. *)
Definition chosen_without_overlay
    (get_geometry : xcb_window_t -> option xcb_get_geometry_reply_t)
    (log : float -> float) (characters : option (list ascii)) (f : format_t)
    (win : xcb_window_t) (w : world) : Prop :=
  exists w',
    main get_geometry log characters f [win] [] w = Exit 0 w' /\
    stdout w' = (f, win) :: stdout w /\
    created (requests w') = created (requests w) /\
    destroyed (requests w') = destroyed (requests w).

(** * Sample runs *)

(** Natural logarithms as the C library returns them, rounded to the nearest
    double, for the arguments of the examples below. *)
Definition sample_log (x : float) : float :=
  if (x =? 1)%float then 0%float
  else if (x =? 2)%float then 0x1.62e42fefa39efp-1%float
  else if (x =? 3)%float then 0x1.193ea7aad030bp+0%float
  else if (x =? 4)%float then 0x1.62e42fefa39efp+0%float
  else if (x =? 5)%float then 0x1.9c041f7ed8d33p+0%float
  else if (x =? 6)%float then 0x1.cab0bfa2a2002p+0%float
  else if (x =? 243)%float then 0x1.5f8e5195843cdp+2%float
  else nan.

(** A server that answers every geometry request. *)
Definition sample_geometry (win : xcb_window_t)
  : option xcb_get_geometry_reply_t :=
  Some (mk_geometry 0 0 640 480 1).

(** The windows [1 .. n]. *)
Definition sample_windows (n : nat) : list xcb_window_t :=
  map Z.of_nat (seq 1 n).

(** The keys of the characters [cs]: for 0-9 and a-z the keysym is the
    character code. *)
Definition keys (cs : list ascii) : list keysyms_lookup_t :=
  map (fun c => mk_ksl c (Z.of_N (N_of_ascii c))) cs.

(** A state whose keys are the characters [cs], before any window is
    tracked. *)
Definition initial_state (cs : list ascii) : xcw_state_t :=
  mk_state (mk_input (keys cs) FORMAT_DEC) [].

Definition initial_world : world := mk_world 100 [] [].

(** The program run with the characters [cs] on the windows [1 .. n], given
    the events [events]. *)
Definition sample_run (cs : list ascii) (n : nat) (events : list xcb_event)
  : outcome xcw_state_t :=
  main sample_geometry sample_log (Some cs) FORMAT_DEC (sample_windows n)
       events initial_world.

(** The state and the world of a run. *)
Definition state_of (o : outcome xcw_state_t) : xcw_state_t :=
  match o with
  | Ret st _ => st
  | _ => initial_state []
  end.

Definition world_of {A} (o : outcome A) : world :=
  match o with
  | Ret _ w => w
  | Exit _ w => w
  | Undef => initial_world
  end.

(** * Keys and typing *)

(** The keysym of the character [c] in [ALL_KEYSYMS_LOOKUP]. *)
Definition keysym_of (c : ascii) : xcb_keysym_t := ksl_keysym (lookup c).

(** The keysyms of the key presses among [events], in their order. *)
Fixpoint keys_typed (events : list xcb_event) : list xcb_keysym_t :=
  match events with
  | [] => []
  | KeyPress ksym :: rest => ksym :: keys_typed rest
  | _ :: rest => keys_typed rest
  end.

(** No event of [events] is an error. *)
Definition error_free (events : list xcb_event) : Prop :=
  forall error_code, ~ In (Error error_code) events.

(** What typing relies on: the structures of the current array are as the
    builder makes them, the keys are entries of [ALL_KEYSYMS_LOOKUP] with
    different characters, and every array, the current one and those below
    it, carries the first of these characters in their order. *)
Definition selectable (st : xcw_state_t) : Prop :=
  Forall well_formed (wsetups st) /\
  Forall (fun k => In k ALL_KEYSYMS_LOOKUP) (ksl (input st)) /\
  NoDup (characters_of st) /\
  map character (wsetups st) =
    firstn (length (wsetups st)) (characters_of st) /\
  Forall (labelled (characters_of st)) (wsetups st).

(** The labels that start with the character [c], without it. *)
Definition after_key (c : ascii) (ls : list (list ascii * xcb_window_t))
  : list (list ascii * xcb_window_t) :=
  flat_map (fun l => match fst l with
                     | c' :: r => if Ascii.eqb c' c then [(r, snd l)] else []
                     | [] => []
                     end) ls.

(** The labels that start with the string [q], without it. *)
Definition after_keys (q : list ascii) (ls : list (list ascii * xcb_window_t))
  : list (list ascii * xcb_window_t) :=
  fold_left (fun ls c => after_key c ls) q ls.

(** * What is drawn *)

(** The texts drawn, each with the window it was drawn on, in the order of
    the requests. *)
Fixpoint rendered (rs : list xreq) : list (xcb_window_t * list ascii) :=
  match rs with
  | [] => []
  | RenderText win _ text :: rs' => rendered rs' ++ [(win, text)]
  | _ :: rs' => rendered rs'
  end.

(** The graphics contexts created, each with its window, and those freed,
    in the order of the requests. *)
Fixpoint gcs_created (rs : list xreq)
  : list (xcb_gcontext_t * xcb_window_t) :=
  match rs with
  | [] => []
  | CreateGC gc win :: rs' => gcs_created rs' ++ [(gc, win)]
  | _ :: rs' => gcs_created rs'
  end.

Fixpoint gcs_freed (rs : list xreq) : list xcb_gcontext_t :=
  match rs with
  | [] => []
  | FreeGC gc :: rs' => gcs_freed rs' ++ [gc]
  | _ :: rs' => gcs_freed rs'
  end.

(** The graphics contexts held in a structure: for each overlay the one of
    the background, then the one of the text. *)
Fixpoint gcs (wsetup : window_setup_t) : list xcb_gcontext_t :=
  opt_list (overlay_bg_gc wsetup) ++ opt_list (overlay_font_gc wsetup) ++
  flat_map gcs (children wsetup).

(** The places given to windows, in the order of the requests. *)
Fixpoint configured (rs : list xreq) : list (xcb_window_t * (Z * Z * Z * Z)) :=
  match rs with
  | [] => []
  | ConfigureWindow win x y w h :: rs' =>
      configured rs' ++ [(win, (x, y, w, h))]
  | _ :: rs' => configured rs'
  end.

(** The windows mapped, in the order of the requests. *)
Fixpoint mapped (rs : list xreq) : list xcb_window_t :=
  match rs with
  | [] => []
  | MapWindow win :: rs' => mapped rs' ++ [win]
  | _ :: rs' => mapped rs'
  end.

(** Where the overlay of a window of geometry [ggr] is put: on the window,
    inside its border. *)
Definition overlay_place (ggr : xcb_get_geometry_reply_t) : Z * Z * Z * Z :=
  ((geo_border_width ggr + geo_x ggr)%Z, (geo_border_width ggr + geo_y ggr)%Z,
   geo_width ggr, geo_height ggr).

(** From [w] to [w'] an overlay was made for each of [windows], in their
    order: the windows have the geometries [geometries], the overlays have
    the next XIDs, and each overlay was put on its window and mapped. *)
Definition placed
    (get_geometry : xcb_window_t -> option xcb_get_geometry_reply_t)
    (windows : list xcb_window_t) (w w' : world) : Prop :=
  exists geometries,
    map get_geometry windows = map Some geometries /\
    next_id w' = (next_id w + Z.of_nat (length windows))%Z /\
    configured (requests w') =
      configured (requests w) ++
      combine (ids (next_id w) (length windows))
              (map overlay_place geometries) /\
    mapped (requests w') =
      mapped (requests w) ++ ids (next_id w) (length windows).

(** From [w] to [w'] the overlay windows [wins] were destroyed and the
    graphics contexts [cs] freed, in this order, and nothing was created or
    printed. *)
Definition freed (w : world) (wins : list xcb_window_t)
    (cs : list xcb_gcontext_t) (w' : world) : Prop :=
  destroyed (requests w') = destroyed (requests w) ++ wins /\
  gcs_freed (requests w') = gcs_freed (requests w) ++ cs /\
  created (requests w') = created (requests w) /\
  gcs_created (requests w') = gcs_created (requests w) /\
  stdout w' = stdout w /\
  next_id w' = next_id w.

(** * The windows that are tracked *)

(** What the server says of a window: it is viewable and not one whose
    redirection is overridden. *)
Definition viewable (xcon : xcb_connection_t) (window : xcb_window_t)
  : bool :=
  match get_window_attributes_reply xcon window with
  | Some gwar =>
      (map_state gwar =? XCB_MAP_STATE_VIEWABLE)%Z &&
      (override_redirect gwar =? 0)%Z
  | None => false
  end.

(** What the server says of a window: its [_NET_WM_WINDOW_TYPE] holds
    nothing. *)
Definition untyped (display : xcw_display_t) (window : xcb_window_t)
  : bool :=
  match get_property_reply (xcon display) window
          (_NET_WM_WINDOW_TYPE (ewmh display)) XCB_ATOM_ATOM 1 with
  | Some [] => true
  | _ => false
  end.

(** What the server says of a window: its [_NET_WM_WINDOW_TYPE] holds a
    type. *)
Definition typed (display : xcw_display_t) (window : xcb_window_t)
  : bool :=
  match get_property_reply (xcon display) window
          (_NET_WM_WINDOW_TYPE (ewmh display)) XCB_ATOM_ATOM 1 with
  | Some (_ :: _) => true
  | _ => false
  end.

(** The windows of [all_windows] that are tracked, given the windows that
    the window manager manages if it tells. *)
Definition eligible (display : xcw_display_t) (options : xcw_options_t)
    (managed : option (list xcb_window_t))
    (all_windows : list xcb_window_t) : list xcb_window_t :=
  filter (fun window => listed options managed window &&
                        viewable (xcon display) window &&
                        untyped display window) all_windows.

(** The server answers the requests that [select_windows] makes for
    [all_windows], and no window whose type is asked for has one: each
    window that passes the tests of the lists has attributes, and if it is
    viewable its [_NET_WM_WINDOW_TYPE] holds nothing. *)
Definition answers_for (display : xcw_display_t) (options : xcw_options_t)
    (managed : option (list xcb_window_t))
    (all_windows : list xcb_window_t) : Prop :=
  forall window,
    In window all_windows -> listed options managed window = true ->
    get_window_attributes_reply (xcon display) window <> None /\
    (viewable (xcon display) window = true ->
     untyped display window = true).

(** A window whose type [select_windows] reads from freed memory: it passes
    the tests of the lists, it is viewable and it has a type. *)
Definition read_after_free (display : xcw_display_t)
    (options : xcw_options_t) (managed : option (list xcb_window_t))
    (window : xcb_window_t) : bool :=
  listed options managed window && viewable (xcon display) window &&
  typed display window.

(** * What the command line says *)

(** The values given with the key [key], in the order of the calls. *)
Definition values_of (key : Z) (calls : list (Z * list ascii))
  : list (list ascii) :=
  map snd (filter (fun c => (fst c =? key)%Z) calls).

(** The window ids given with the key [key], as [strtol] reads them. *)
Definition window_ids (strtol : list ascii -> Z * Z) (key : Z)
    (calls : list (Z * list ascii)) : list xcb_window_t :=
  map (fun window_id => fst (strtol window_id)) (values_of key calls).

(** [strtol] reads the window id without an error, and the value is a
    32-bit XID that is not 0. *)
Definition valid_window_id (strtol : list ascii -> Z * Z)
    (window_id : list ascii) : Prop :=
  snd (strtol window_id) = 0%Z /\
  (0 < fst (strtol window_id) <= 4294967295)%Z.

(** The output format that a value of the option [--format] stands for. *)
Definition format_of (value : list ascii) : option format_t :=
  if str_equal value ["d"; "e"; "c"; "i"; "m"; "a"; "l"]%char
  then Some FORMAT_DEC
  else if str_equal value
            ["h"; "e"; "x"; "a"; "d"; "e"; "c"; "i"; "m"; "a"; "l"]%char
  then Some FORMAT_HEX
  else None.

(** Every call of [calls] is one that [parse_arg] accepts: at most one is
    an argument that is not an option, and it has only characters of 0-9 and
    a-z, two different ones at least; [strtol] reads every window id without
    an error and as a 32-bit XID other than 0; every format is [decimal] or
    [hexadecimal]. *)
Definition accepted (strtol : list ascii -> Z * Z)
    (calls : list (Z * list ascii)) : Prop :=
  length (values_of ARGP_KEY_ARG calls) <= 1 /\
  (forall char_pool,
      In char_pool (values_of ARGP_KEY_ARG calls) ->
      forallb known char_pool = true /\
      2 <= length (distinct_from [] char_pool)) /\
  Forall (valid_window_id strtol)
         (values_of (option_key "b") calls ++
          values_of (option_key "w") calls) /\
  (forall value,
      In value (values_of (option_key "f") calls) ->
      format_of value <> None).

(** * What a computation leaves alone *)

(** [m] prints no window id, however it ends, and it ends the process with
    no other status than 70. *)
Definition quiet {A} (m : M A) : Prop :=
  forall w, match m w with
            | Ret _ w' => stdout w' = stdout w
            | Exit code w' => code = EX_SOFTWARE /\ stdout w' = stdout w
            | Undef => True
            end.

(** [m] sends no request, hands out no XID and prints no window id, however
    it ends. *)
Definition silent {A} (m : M A) : Prop :=
  forall w, match m w with
            | Ret _ w' => w' = w
            | Exit _ w' => w' = w
            | Undef => True
            end.

(** The window ids printed when [o] is reached from an output [out]: none,
    and if the process has exited it is with one of the statuses [codes], or
    one of [windows] in the format [f], and then the process has exited with
    status 0. *)
Definition prints_at_most (codes : list Z) (f : format_t)
    (windows : list xcb_window_t) (out : list (format_t * xcb_window_t))
    (o : outcome xcw_state_t) : Prop :=
  match o with
  | Ret _ w' => stdout w' = out
  | Exit code w' =>
      (stdout w' = out /\ In code codes) \/
      (code = 0%Z /\ exists win, In win windows /\ stdout w' = (f, win) :: out)
  | Undef => True
  end.

(** As [prints_at_most], for an outcome that is not the undefined one. *)
Definition ends_well (codes : list Z) (f : format_t)
    (windows : list xcb_window_t) (out : list (format_t * xcb_window_t))
    (o : outcome xcw_state_t) : Prop :=
  match o with
  | Undef => False
  | _ => prints_at_most codes f windows out o
  end.

(** * More sample runs *)

(** The tracking structure built for the characters [cs] on the windows
    [1 .. n], before any text is drawn. *)
Definition sample_tracking (cs : list ascii) (n : nat)
  : outcome xcw_state_t :=
  initialise_window_tracking sample_geometry sample_log (initial_state cs)
    (sample_windows n) initial_world.

(** The atoms of the sample server. *)
Definition sample_ewmh : xcb_ewmh_connection_t :=
  mk_ewmh 300%Z 301%Z.

(** A server whose root window 0 has the children 1 to 5.  The window
    manager manages the windows 1 to 4; window 2 has a type, the others
    none; window 3 is not mapped and the redirection of window 4 is
    overridden.  The keyboard is free at the third attempt. *)
Definition sample_xcon : xcb_connection_t :=
  mk_xcon
    (fun win => if (win =? 0)%Z then Some [1; 2; 3; 4; 5]%Z else None)
    (fun win => if (win =? 0)%Z then Some [300%Z] else Some [])
    (fun win prop type len =>
       if ((win =? 0) && (prop =? 300))%Z then Some [1; 2; 3; 4]%Z
       else if (prop =? 301)%Z then
         if (win =? 2)%Z then Some [399%Z] else Some []
       else None)
    (fun win => if (win =? 3)%Z then Some (mk_attributes 0%Z 0%Z)
                else if (win =? 4)%Z then Some (mk_attributes 2%Z 1%Z)
                else Some (mk_attributes 2%Z 0%Z))
    (fun s => if s <? 2 then Some XCB_GRAB_STATUS_ALREADY_GRABBED
              else Some XCB_GRAB_STATUS_SUCCESS).

Definition sample_display : xcw_display_t :=
  mk_display sample_xcon 0%Z sample_ewmh.

(** A [strtol] for the samples: it reads decimal digits up to the first
    character that is none, and sets no error. *)
Fixpoint sample_digits (acc : Z) (s : list ascii) : Z :=
  match s with
  | [] => acc
  | c :: rest =>
      let n := Z.of_N (N_of_ascii c) in
      if ((48 <=? n) && (n <=? 57))%Z
      then sample_digits (10 * acc + (n - 48)) rest
      else acc
  end.

Definition sample_strtol (s : list ascii) : Z * Z := (sample_digits 0 s, 0%Z).

Definition sample_atoi (s : list ascii) : Z := sample_digits 0 s.

(** The command line [-b 2 -f hexadecimal ab]. *)
Definition sample_calls : list (Z * list ascii) :=
  [ (option_key "b", ["2"]);
    (option_key "f", ["h"; "e"; "x"; "a"; "d"; "e"; "c"; "i"; "m"; "a"; "l"]);
    (ARGP_KEY_ARG, ["a"; "b"]) ]%char.

(** * Basic facts *)

Lemma wsetup_ind (P : window_setup_t -> Prop) :
  (forall ow fg bg r win c ch,
      Forall P ch -> P (mk_wsetup ow fg bg r win c ch)) ->
  forall wsetup, P wsetup.
Proof.
  intros step. fix IH 1. intros [ow fg bg r win c ch]. apply step.
  induction ch as [|x ch IHch]; constructor; [apply IH | exact IHch].
Qed.

Lemma All_Forall {A} (P : A -> Prop) (l : list A) : All P l <-> Forall P l.
Proof.
  induction l as [|x l IH]; simpl.
  - split; [constructor | trivial].
  - rewrite IH. split.
    + intros [Hx Hl]. constructor; assumption.
    + intros H. inversion H; subst. split; assumption.
Qed.

Lemma well_formed_children x :
  well_formed x -> Forall well_formed (children x).
Proof.
  destruct x as [ow fg bg r win c ch]. cbn [well_formed children].
  destruct ch as [|y ch]; [constructor|].
  intros [_ [_ H]]. now apply All_Forall.
Qed.

Lemma bind_Ret {A B} (m : M A) (f : A -> M B) w b w' :
  bind m f w = Ret b w' ->
  exists a w1, m w = Ret a w1 /\ f a w1 = Ret b w'.
Proof.
  unfold bind. destruct (m w) as [a w1| |]; intros H; try discriminate.
  exists a, w1. split; [reflexivity | exact H].
Qed.

Lemma bind_Exit {A B} (m : M A) (f : A -> M B) w code w' :
  bind m f w = Exit code w' ->
  m w = Exit code w' \/
  exists a w1, m w = Ret a w1 /\ f a w1 = Exit code w'.
Proof.
  unfold bind. destruct (m w) as [a w1|c w1|]; intros H; try discriminate.
  - right. exists a, w1. split; [reflexivity | exact H].
  - left. inversion H. reflexivity.
Qed.

Lemma bind_eq {A B} (m : M A) (f : A -> M B) w a w1 :
  m w = Ret a w1 -> bind m f w = f a w1.
Proof. unfold bind. intros ->. reflexivity. Qed.

Arguments bind_eq {A B} [m] f [w a w1] _.

(** A computation that is a [bind] has returned: its first part has, with
    [x] in the world [w], and the rest has from there. *)
Tactic Notation "bind_ret" hyp(H) "as" ident(x) ident(w) ident(Hx) :=
  apply bind_Ret in H; destruct H as [x [w [Hx H]]].

Lemma ids_S first n : ids first (S n) = first :: ids (first + 1) n.
Proof.
  unfold ids. simpl. rewrite Z.add_0_r. f_equal.
  rewrite <- seq_shift, map_map. apply map_ext. intros k. lia.
Qed.

Lemma ids_app first n m :
  ids first (n + m) = ids first n ++ ids (first + Z.of_nat n) m.
Proof.
  revert first. induction n as [|n IH]; intros first.
  - simpl. now rewrite Z.add_0_r.
  - change (S n + m) with (S (n + m)). rewrite !ids_S, IH. simpl.
    do 3 f_equal. lia.
Qed.

Lemma in_ids first n x :
  In x (ids first n) <-> (first <= x < first + Z.of_nat n)%Z.
Proof.
  unfold ids. rewrite in_map_iff. split.
  - intros [k [<- Hk]]. apply in_seq in Hk. lia.
  - intros H. exists (Z.to_nat (x - first)). split; [lia|].
    apply in_seq. lia.
Qed.

Lemma NoDup_ids first n : NoDup (ids first n).
Proof.
  revert first. induction n as [|n IH]; intros first.
  - constructor.
  - rewrite ids_S. constructor; [|apply IH].
    rewrite in_ids. lia.
Qed.

Lemma skipn_nth_error {A} (l : list A) i x :
  nth_error l i = Some x -> skipn i l = x :: skipn (S i) l.
Proof.
  revert i. induction l as [|y l IH]; intros [|i] H; simpl in *;
    try discriminate.
  - now inversion H.
  - now apply IH.
Qed.

(** * The builder *)

Lemma built_nil cs depth w : built cs depth [] w [] w.
Proof.
  constructor; simpl; try reflexivity; try constructor.
  - lia.
  - now rewrite app_nil_r.
Qed.

Lemma built_leaf cs depth win rest w w1 ws w' rect c :
  next_id w1 = (next_id w + 1)%Z ->
  created (requests w1) = created (requests w) ++ [next_id w] ->
  destroyed (requests w1) = destroyed (requests w) ->
  stdout w1 = stdout w ->
  built cs depth rest w1 ws w' ->
  built cs depth (win :: rest) w
        (mk_wsetup (Some (next_id w)) None None (Some rect) (Some win) c []
           :: ws) w'.
Proof.
  intros Hn Hc Hd Hs [Ht Hh Hn' Hc' Hd' Hs' Hwf Hl Hlv].
  constructor; simpl.
  - now rewrite Ht.
  - rewrite Hh, Hn. change (length (win :: rest)) with (S (length rest)).
    now rewrite ids_S.
  - rewrite Hn', Hn. lia.
  - rewrite Hc', Hc, Hn, <- app_assoc. simpl. f_equal.
    change (length (win :: rest)) with (S (length rest)). now rewrite ids_S.
  - congruence.
  - congruence.
  - constructor; [|exact Hwf]. simpl. repeat split; discriminate.
  - constructor; [|exact Hl]. simpl. split; [reflexivity | exact I].
  - constructor; [|exact Hlv]. simpl. lia.
Qed.

Lemma list_max_le_all l n : Forall (fun k => k <= n) l -> list_max l <= n.
Proof.
  induction 1 as [|k l Hk _ IH]; simpl; [lia|].
  apply Nat.max_lub; assumption.
Qed.

Lemma built_inner cs depth group rest w w1 chn ws w' c :
  built cs depth group w chn w1 ->
  chn <> [] ->
  map character chn = firstn (length chn) cs ->
  built cs (S depth) rest w1 ws w' ->
  built cs (S depth) (group ++ rest) w
        (mk_wsetup None None None None None c chn :: ws) w'.
Proof.
  intros [Ht Hh Hn Hc Hd Hs Hwf Hl Hlv] Hne Hchars
         [Ht' Hh' Hn' Hc' Hd' Hs' Hwf' Hl' Hlv'].
  constructor; simpl.
  - now rewrite Ht, Ht'.
  - rewrite Hh, Hh', Hn, length_app, ids_app. reflexivity.
  - rewrite Hn', Hn, length_app. lia.
  - rewrite Hc', Hc, Hn, length_app, ids_app, <- app_assoc. reflexivity.
  - congruence.
  - congruence.
  - constructor; [|exact Hwf']. simpl. destruct chn as [|x chn];
      [congruence|]. repeat split; try reflexivity.
    + now inversion Hwf.
    + apply All_Forall. now inversion Hwf.
  - constructor; [|exact Hl']. simpl. split; [exact Hchars|].
    now apply All_Forall.
  - constructor; [|exact Hlv']. simpl. apply le_n_S.
    apply list_max_le_all. rewrite Forall_map. exact Hlv.
Qed.

Lemma group_sizes_sum p r todo : forall i,
  list_sum (group_sizes p r i todo) =
  todo * p + (Nat.min r (i + todo) - Nat.min r i).
Proof.
  unfold group_sizes. induction todo as [|todo IH]; intros i; simpl.
  - rewrite Nat.add_0_r. lia.
  - rewrite IH. destruct (Nat.ltb_spec i r); lia.
Qed.

Lemma group_sizes_total n k :
  0 < k ->
  list_sum (group_sizes (n / k) (n mod k) 0
              (if 0 <? n / k then k else n mod k)) = n.
Proof.
  intros Hk. rewrite group_sizes_sum.
  pose proof (Nat.div_mod_eq n k) as E.
  pose proof (Nat.mod_upper_bound n k ltac:(lia)) as Hr.
  destruct (Nat.ltb_spec 0 (n / k)) as [Hp|Hp].
  - rewrite Nat.min_l by lia. simpl. nia.
  - assert (n / k = 0) as -> by lia. simpl.
    rewrite Nat.min_id. rewrite Nat.mul_0_r in *. simpl in E. lia.
Qed.

Section Builder.

Variable get_geometry : xcb_window_t -> option xcb_get_geometry_reply_t.
Variable state : xcw_state_t.

Let cs := characters_of state.

Lemma ksl_char_Ret i w c w1 :
  ksl_char state i w = Ret c w1 -> w1 = w /\ nth_error cs i = Some c.
Proof.
  unfold ksl_char, cs, characters_of. rewrite nth_error_map.
  destruct (nth_error (ksl (input state)) i); simpl; intros H;
    inversion H; auto.
Qed.

Lemma ksl_char_total i c w :
  nth_error cs i = Some c -> ksl_char state i w = Ret c w.
Proof.
  unfold ksl_char, cs, characters_of. rewrite nth_error_map.
  destruct (nth_error (ksl (input state)) i); simpl; intros H;
    inversion H; reflexivity.
Qed.

Lemma initialise_window_setup_Ret win c w x w1 :
  initialise_window_setup get_geometry state win c w = Ret x w1 ->
  (exists rect,
      x = mk_wsetup (Some (next_id w)) None None (Some rect) (Some win) c [])
  /\ next_id w1 = (next_id w + 1)%Z
  /\ created (requests w1) = created (requests w) ++ [next_id w]
  /\ destroyed (requests w1) = destroyed (requests w)
  /\ stdout w1 = stdout w.
Proof.
  unfold initialise_window_setup.
  destruct (get_geometry win) as [ggr|]; [|discriminate].
  cbv [overlay_create bind xcb_generate_id send ret]. simpl.
  intros H. inversion H; subst; clear H. simpl.
  repeat split; eauto.
Qed.

Lemma initialise_window_setup_total win c w :
  get_geometry win <> None ->
  exists x w1, initialise_window_setup get_geometry state win c w = Ret x w1.
Proof.
  unfold initialise_window_setup.
  destruct (get_geometry win) as [ggr|]; [|congruence]. intros _.
  cbv [overlay_create bind xcb_generate_id send ret]. simpl. eauto.
Qed.

Lemma tracking_leaves_built depth : forall windows i w ws w',
  tracking_leaves get_geometry state i windows w = Ret ws w' ->
  built cs depth windows w ws w' /\
  map character ws = firstn (length windows) (skipn i cs) /\
  length ws = length windows.
Proof.
  induction windows as [|win rest IH]; intros i w ws w' H; simpl in H.
  - inversion H; subst. split; [apply built_nil | split; reflexivity].
  - bind_ret H as c w1 Hc.
    apply ksl_char_Ret in Hc. destruct Hc as [-> Hc].
    bind_ret H as x w2 Hx.
    bind_ret H as ws' w3 Hrest.
    inversion H; subst; clear H.
    apply initialise_window_setup_Ret in Hx.
    destruct Hx as [[rect ->] [Hn [Hcr [Hd Hs]]]].
    apply IH in Hrest. destruct Hrest as [Hb [Hch Hlen]].
    split; [|split].
    + eapply built_leaf; eauto.
    + simpl. rewrite (skipn_nth_error _ _ _ Hc). simpl. now rewrite Hch.
    + simpl. now rewrite Hlen.
Qed.

Lemma tracking_groups_built descend p r depth :
  (forall g w ws w',
      descend g w = Ret ws w' ->
      built cs depth g w ws w' /\
      map character ws = firstn (length ws) cs /\
      (g <> [] -> ws <> [])) ->
  forall todo i remain w ws w',
    tracking_groups get_geometry descend state p r todo i remain w
    = Ret ws w' ->
    length remain = list_sum (group_sizes p r i todo) ->
    0 < p \/ i + todo <= r ->
    built cs (S depth) remain w ws w' /\
    map character ws = firstn todo (skipn i cs) /\
    length ws = todo.
Proof.
  intros Hdescend.
  induction todo as [|todo IH]; intros i remain w ws w' H Hlen Hpos.
  - simpl in H. inversion H; subst. simpl in Hlen.
    apply length_zero_iff_nil in Hlen. subst.
    split; [apply built_nil | split; reflexivity].
  - cbn [tracking_groups] in H.
    set (size := if i <? r then p + 1 else p) in *.
    unfold group_sizes in Hlen. cbn [seq map list_sum] in Hlen.
    fold size in Hlen. fold (group_sizes p r (S i) todo) in Hlen.
    assert (Hsize : 1 <= size).
    { unfold size. destruct (Nat.ltb_spec i r); lia. }
    bind_ret H as x w1 Hx.
    bind_ret H as ws' w2 Hrest.
    inversion H; subst; clear H.
    change (list_sum (size :: group_sizes p r (S i) todo))
      with (size + list_sum (group_sizes p r (S i) todo)) in Hlen.
    apply IH in Hrest; [ | rewrite length_skipn; lia | lia ].
    destruct Hrest as [Hb [Hch Hl]].
    destruct (Nat.eqb_spec size 1) as [E|E].
    + destruct remain as [|win rest]; [discriminate|].
      bind_ret Hx as c w3 Hc.
      apply ksl_char_Ret in Hc. destruct Hc as [-> Hc].
      apply initialise_window_setup_Ret in Hx.
      destruct Hx as [[rect ->] [Hn [Hcr [Hd Hs]]]].
      rewrite E in Hb. simpl in Hb.
      split; [|split].
      * eapply built_leaf; eauto.
      * simpl. rewrite (skipn_nth_error _ _ _ Hc). simpl. now rewrite Hch.
      * simpl. congruence.
    + bind_ret Hx as chn w3 Hchn.
      bind_ret Hx as c w4 Hc.
      apply ksl_char_Ret in Hc. destruct Hc as [-> Hc].
      inversion Hx; subst; clear Hx.
      apply Hdescend in Hchn. destruct Hchn as [Hbc [Hcc Hne]].
      split; [|split].
      * rewrite <- (firstn_skipn size remain) at 1.
        eapply built_inner; eauto.
        apply Hne. intros E0. apply (f_equal (@length _)) in E0.
        rewrite length_firstn in E0. simpl in E0. lia.
      * simpl. rewrite (skipn_nth_error _ _ _ Hc). simpl. now rewrite Hch.
      * simpl. congruence.
Qed.

Lemma _initialise_window_tracking_built : forall depth windows w ws w',
  _initialise_window_tracking get_geometry state depth windows w
  = Ret ws w' ->
  built cs depth windows w ws w' /\
  map character ws = firstn (length ws) cs /\
  (windows <> [] -> ws <> []).
Proof.
  induction depth as [|depth IH]; intros windows w ws w' H.
  - simpl in H. apply (tracking_leaves_built 0) in H.
    destruct H as [Hb [Hch Hl]]. split; [exact Hb | split].
    + now rewrite Hl, Hch.
    + intros Hne ->. destruct windows; [congruence | discriminate].
  - cbn [_initialise_window_tracking] in H.
    destruct (ksl_size (input state)) as [|k] eqn:Ek; [discriminate|].
    set (K := S k) in *.
    eapply tracking_groups_built in H.
    + destruct H as [Hb [Hch Hl]]. split; [exact Hb | split].
      * now rewrite Hl, Hch.
      * intros Hne ->. change (length (@nil window_setup_t)) with 0 in Hl.
        pose proof (Nat.div_mod_eq (length windows) K) as E.
        destruct (Nat.ltb_spec 0 (length windows / K));
          [unfold K in Hl; discriminate|].
        destruct windows; [congruence|]. simpl length in *. nia.
    + exact (IH).
    + now rewrite group_sizes_total by (unfold K; lia).
    + destruct (Nat.ltb_spec 0 (length windows / K)); [left; lia|right; lia].
Qed.

(** The builder returns when every geometry request is answered and the
    windows are within reach of the depth. *)

Lemma tracking_leaves_total : forall windows i w,
  i + length windows <= length cs ->
  answered get_geometry windows ->
  exists ws w', tracking_leaves get_geometry state i windows w = Ret ws w'.
Proof.
  induction windows as [|win rest IH]; intros i w Hi Hgeo; simpl.
  - eexists _, _. reflexivity.
  - destruct (nth_error cs i) as [c|] eqn:Hc.
    2:{ apply nth_error_None in Hc. simpl in Hi. lia. }
    rewrite (bind_eq _ (ksl_char_total _ _ w Hc)).
    destruct (initialise_window_setup_total win c w) as [x [w1 Hx]].
    { apply Hgeo. now left. }
    rewrite (bind_eq _ Hx).
    destruct (IH (S i) w1) as [ws [w' Hrest]].
    { simpl in Hi. lia. }
    { intros y Hy. apply Hgeo. now right. }
    rewrite (bind_eq _ Hrest). eexists _, _. reflexivity.
Qed.

Lemma tracking_groups_total descend p r cap :
  (forall g w, length g <= cap -> answered get_geometry g ->
               exists ws w', descend g w = Ret ws w') ->
  (if 0 <? r then p + 1 else p) <= cap ->
  forall todo i remain w,
    i + todo <= length cs ->
    length remain = list_sum (group_sizes p r i todo) ->
    answered get_geometry remain ->
    exists ws w',
      tracking_groups get_geometry descend state p r todo i remain w
      = Ret ws w'.
Proof.
  intros Hdescend Hcap.
  induction todo as [|todo IH]; intros i remain w Hi Hlen Hgeo.
  - eexists _, _. reflexivity.
  - cbn [tracking_groups].
    set (size := if i <? r then p + 1 else p) in *.
    unfold group_sizes in Hlen. cbn [seq map] in Hlen.
    fold size in Hlen. fold (group_sizes p r (S i) todo) in Hlen.
    change (list_sum (size :: group_sizes p r (S i) todo))
      with (size + list_sum (group_sizes p r (S i) todo)) in Hlen.
    assert (Hsize : size <= cap).
    { unfold size. destruct (Nat.ltb_spec i r), (Nat.ltb_spec 0 r); lia. }
    destruct (nth_error cs i) as [c|] eqn:Hc.
    2:{ apply nth_error_None in Hc. lia. }
    assert (Hx : exists x w1,
      (if size =? 1
       then match remain with
            | [] => undefined
            | window :: _ =>
                c <- ksl_char state i ;;
                initialise_window_setup get_geometry state window c
            end
       else
         children <- descend (firstn size remain) ;;
         c <- ksl_char state i ;;
         ret (mk_wsetup None None None None None c children)) w
      = Ret x w1).
    { destruct (Nat.eqb_spec size 1) as [E|E].
      - destruct remain as [|win rest]; [simpl in Hlen; lia|].
        rewrite (bind_eq _ (ksl_char_total _ _ w Hc)).
        apply initialise_window_setup_total. apply Hgeo. now left.
      - destruct (Hdescend (firstn size remain) w) as [chn [w1 Hchn]].
        { rewrite length_firstn. lia. }
        { intros y Hy. apply Hgeo. rewrite <- (firstn_skipn size remain).
          apply in_or_app. now left. }
        rewrite (bind_eq _ Hchn).
        rewrite (bind_eq _ (ksl_char_total _ _ w1 Hc)).
        eexists _, _. reflexivity. }
    destruct Hx as [x [w1 Hx]]. rewrite (bind_eq _ Hx).
    destruct (IH (S i) (skipn size remain) w1) as [ws [w' Hrest]].
    { lia. }
    { rewrite length_skipn. lia. }
    { intros y Hy. apply Hgeo. rewrite <- (firstn_skipn size remain).
      apply in_or_app. now right. }
    rewrite (bind_eq _ Hrest). eexists _, _. reflexivity.
Qed.

Lemma _initialise_window_tracking_total : forall depth windows w,
  1 <= length cs ->
  length windows <= length cs ^ S depth ->
  answered get_geometry windows ->
  exists ws w',
    _initialise_window_tracking get_geometry state depth windows w
    = Ret ws w'.
Proof.
  assert (Ecs : ksl_size (input state) = length cs).
  { unfold cs, characters_of, ksl_size. now rewrite length_map. }
  induction depth as [|depth IH]; intros windows w HK Hlen Hgeo.
  - simpl. apply tracking_leaves_total; [|exact Hgeo].
    simpl in Hlen. lia.
  - cbn [_initialise_window_tracking]. rewrite Ecs.
    destruct (length cs) as [|k] eqn:Ek; [lia|].
    set (K := S k) in *.
    pose proof (Nat.div_mod_eq (length windows) K) as E.
    pose proof (Nat.mod_upper_bound (length windows) K ltac:(lia)) as Hr.
    change (K ^ S (S depth)) with (K * K ^ S depth) in Hlen.
    apply tracking_groups_total with (cap := K ^ S depth).
    + intros g w0 Hg Hgeo0. apply IH; [lia | exact Hg | exact Hgeo0].
    + destruct (Nat.ltb_spec 0 (length windows mod K)); nia.
    + rewrite Ek. fold K.
      destruct (Nat.ltb_spec 0 (length windows / K)); lia.
    + now rewrite group_sizes_total by lia.
    + exact Hgeo.
Qed.

End Builder.

(** * Labels *)

Lemma paths_unfold wsetup :
  paths wsetup =
  map (fun _ => [character wsetup]) (opt_list (window wsetup)) ++
  map (cons (character wsetup)) (flat_map paths (children wsetup)).
Proof.
  unfold paths. destruct wsetup as [ow fg bg r win c ch]. cbn [labels].
  cbn [character window children].
  rewrite map_app, !map_map. cbn [fst]. f_equal.
  induction ch as [|x ch IH]; [reflexivity|].
  cbn [flat_map]. rewrite !map_app, IH. f_equal.
  now rewrite map_map.
Qed.

Lemma labels_windows ws :
  map snd (flat_map labels ws) = flat_map tracked ws.
Proof.
  induction ws as [|x ws IH]; [reflexivity|].
  cbn [flat_map]. rewrite map_app, IH. f_equal. clear IH ws.
  induction x as [ow fg bg r win c ch IHch] using wsetup_ind.
  cbn [labels tracked window character children].
  rewrite map_app, !map_map. cbn [snd]. rewrite map_id. f_equal.
  induction IHch as [|y ch Hy _ IH]; [reflexivity|].
  cbn [flat_map]. rewrite map_app, IH. f_equal. exact Hy.
Qed.

Lemma paths_head wsetup p :
  In p (paths wsetup) -> exists q, p = character wsetup :: q.
Proof.
  rewrite paths_unfold, in_app_iff, !in_map_iff.
  intros [[_ [<- _]] | [q [<- _]]]; eauto.
Qed.

Lemma paths_levels wsetup :
  forall p, In p (paths wsetup) -> 1 <= length p <= levels wsetup.
Proof.
  induction wsetup as [ow fg bg r win c ch IHch] using wsetup_ind. intros p.
  rewrite paths_unfold. cbn [character window children levels].
  rewrite in_app_iff, !in_map_iff.
  intros [[_ [<- _]] | [q [<- Hq]]]; simpl; [lia|].
  apply in_flat_map in Hq. destruct Hq as [x [Hx Hq]].
  rewrite Forall_forall in IHch. apply (IHch x Hx) in Hq.
  assert (levels x <= list_max (map levels ch)).
  { clear - Hx. induction ch as [|y ch IH]; [contradiction|].
    simpl. destruct Hx as [->|Hx]; [lia|]. apply IH in Hx. lia. }
  lia.
Qed.

Lemma siblings_paths_NoDup ws :
  NoDup (map character ws) ->
  Forall (fun x => NoDup (paths x)) ws ->
  NoDup (flat_map paths ws).
Proof.
  induction ws as [|x ws IH]; intros Hc Hp; [constructor|].
  cbn [flat_map map] in *. inversion Hc; subst. inversion Hp; subst.
  apply NoDup_app; [assumption | now apply IH |].
  intros p Hx Hrest.
  apply paths_head in Hx. destruct Hx as [q ->].
  apply in_flat_map in Hrest. destruct Hrest as [y [Hy Hq]].
  apply paths_head in Hq. destruct Hq as [q' E]. inversion E; subst.
  match goal with H : ~ In _ _ |- _ => apply H end.
  rewrite H0. now apply in_map.
Qed.

Lemma NoDup_firstn {A} (l : list A) n : NoDup l -> NoDup (firstn n l).
Proof.
  intros H. rewrite <- (firstn_skipn n l) in H.
  now apply NoDup_app_remove_r in H.
Qed.

Lemma NoDup_map_cons {A} (a : A) (l : list (list A)) :
  NoDup l -> NoDup (map (cons a) l).
Proof.
  induction 1 as [|q l Hq _ IH]; simpl; constructor; [|exact IH].
  rewrite in_map_iff. intros [q' [E Hq']]. inversion E; subst. contradiction.
Qed.

Lemma labelled_paths_NoDup cs :
  NoDup cs -> forall wsetup, labelled cs wsetup -> NoDup (paths wsetup).
Proof.
  intros Hcs.
  induction wsetup as [ow fg bg r win c ch IHch] using wsetup_ind.
  intros [Hch Hall].
  cbn [children] in *. apply All_Forall in Hall.
  rewrite paths_unfold. cbn [character window children].
  assert (Hsub : NoDup (flat_map paths ch)).
  { apply siblings_paths_NoDup.
    - rewrite Hch. now apply NoDup_firstn.
    - rewrite Forall_forall in *. intros x Hx. apply IHch; auto. }
  apply NoDup_app.
  - destruct win; simpl; repeat constructor. intros [].
  - now apply NoDup_map_cons.
  - intros p Hp Hq. apply in_map_iff in Hp. destruct Hp as [_ [<- _]].
    apply in_map_iff in Hq. destruct Hq as [q [E Hq]]. inversion E; subst.
    apply in_flat_map in Hq. destruct Hq as [x [_ Hq]].
    apply paths_levels in Hq. simpl in Hq. lia.
Qed.

(** * The tracked windows and their labels *)

Lemma characters_of_length state :
  length (characters_of state) = ksl_size (input state).
Proof. unfold characters_of, ksl_size. apply length_map. Qed.

Lemma initialise_window_tracking_Ret get_geometry log state windows w st w' :
  initialise_window_tracking get_geometry log state windows w = Ret st w' ->
  exists depth,
    tracking_depth log (length windows) (ksl_size (input state)) = Some depth
    /\ input st = input state
    /\ _initialise_window_tracking get_geometry state depth windows w
       = Ret (wsetups st) w'.
Proof.
  unfold initialise_window_tracking.
  destruct (tracking_depth log _ _) as [depth|]; [|discriminate].
  intros H. bind_ret H as ws w1 Hws.
  inversion H; subst. exists depth. auto.
Qed.

Lemma initialise_window_tracking_total
    get_geometry log state windows w depth :
  tracking_depth log (length windows) (ksl_size (input state)) = Some depth ->
  1 <= ksl_size (input state) ->
  length windows <= ksl_size (input state) ^ S depth ->
  answered get_geometry windows ->
  exists st w',
    initialise_window_tracking get_geometry log state windows w = Ret st w'
    /\ input st = input state
    /\ _initialise_window_tracking get_geometry state depth windows w
       = Ret (wsetups st) w'.
Proof.
  intros Hd HK Hlen Hgeo. unfold initialise_window_tracking. rewrite Hd.
  rewrite <- characters_of_length in HK, Hlen.
  destruct (_initialise_window_tracking_total get_geometry state depth
              windows w HK Hlen Hgeo) as [ws [w' Hws]].
  rewrite (bind_eq _ Hws). eexists _, _. split; [reflexivity|]. auto.
Qed.

Lemma leaf_count_tracked : forall x,
  well_formed x -> leaf_count x = length (tracked x).
Proof.
  induction x as [ow fg bg r win c ch IH] using wsetup_ind. intros Hwf.
  pose proof (well_formed_children _ Hwf) as Hall.
  destruct ch as [|y ch].
  - cbn in Hwf. destruct Hwf as [_ [_ Hwin]].
    destruct win; [reflexivity | congruence].
  - cbn [well_formed children window] in Hwf. destruct Hwf as [_ [-> _]].
    cbn [leaf_count tracked children window opt_list app].
    cbn [children] in Hall. clear - IH Hall.
    induction IH as [|z l Hz _ IHl]; [reflexivity|].
    inversion Hall; subst. cbn [map list_sum fold_right flat_map].
    rewrite length_app, <- Hz by assumption. f_equal. now apply IHl.
Qed.

Lemma leaf_count_sum ws :
  Forall well_formed ws ->
  list_sum (map leaf_count ws) = length (flat_map tracked ws).
Proof.
  induction 1 as [|x ws Hx _ IH]; [reflexivity|].
  cbn [map list_sum fold_right flat_map].
  rewrite length_app, <- (leaf_count_tracked x Hx). f_equal. exact IH.
Qed.

(** X22.  When the quotient of the logarithms that
    [initialise_window_tracking] computes has the integer part [depth], the
    windows are at most [ksl_size ^ (depth + 1)] and every geometry request
    is answered, [initialise_window_tracking] returns, and the structure it
    returns has as many structures without children as there are windows:
    they track the given windows, each once, in the given order. *)
Theorem tracked_windows_are_the_input
    get_geometry log state windows w depth :
  1 <= ksl_size (input state) ->
  int_of_double
    (log (double_of_int (Z.max (Z.of_nat (length windows) - 1) 1)) /
     log (double_of_int (Z.of_nat (ksl_size (input state)))))%float
  = Some (Z.of_nat depth) ->
  length windows <= ksl_size (input state) ^ S depth ->
  answered get_geometry windows ->
  exists st w',
    initialise_window_tracking get_geometry log state windows w
    = Ret st w' /\
    list_sum (map leaf_count (wsetups st)) = length windows /\
    flat_map tracked (wsetups st) = windows /\
    Forall well_formed (wsetups st).
Proof.
  intros HK Hq Hlen Hgeo.
  assert (Hd : tracking_depth log (length windows) (ksl_size (input state))
               = Some depth).
  { unfold tracking_depth. rewrite Hq.
    destruct (Z.ltb_spec (Z.of_nat depth) 0) as [Hneg|_]; [lia|].
    now rewrite Nat2Z.id. }
  destruct (initialise_window_tracking_total get_geometry log state
              windows w depth Hd HK Hlen Hgeo) as [st [w' [H _]]].
  exists st, w'. split; [exact H|].
  apply initialise_window_tracking_Ret in H.
  destruct H as [depth' [_ [_ H]]].
  apply _initialise_window_tracking_built in H. destruct H as [[] _].
  repeat split; try assumption.
  rewrite leaf_count_sum by assumption. congruence.
Qed.

Lemma tracked_windows_are_the_input_witness :
  exists st w',
    initialise_window_tracking sample_geometry sample_log
      (initial_state ["a"; "b"]%char) [11; 12; 13; 14; 15; 16; 17]%Z
      initial_world = Ret st w' /\
    list_sum (map leaf_count (wsetups st)) = 7 /\
    flat_map tracked (wsetups st) = [11; 12; 13; 14; 15; 16; 17]%Z.
Proof.
  destruct (tracked_windows_are_the_input sample_geometry sample_log
              (initial_state ["a"; "b"]%char)
              [11; 12; 13; 14; 15; 16; 17]%Z initial_world 2)
    as [st [w' [H [Hn [Ht _]]]]].
  - vm_compute. lia.
  - vm_compute. reflexivity.
  - vm_compute. lia.
  - intros win _. discriminate.
  - exists st, w'. split; [exact H|]. split; [exact Hn | exact Ht].
Defined.


Lemma labels_paths ws :
  map fst (flat_map labels ws) = flat_map paths ws.
Proof.
  induction ws as [|x ws IH]; [reflexivity|].
  cbn [flat_map]. now rewrite map_app, IH.
Qed.

(** C1, amended.  With at least two windows, at least two distinct
    characters and the exact depth [d], the integer part of the logarithm of
    N - 1 in base K, every window gets a string of its own, of at most
    [d + 1] characters. *)
Theorem labels_distinct_within_depth
    get_geometry log state windows w depth :
  NoDup (characters_of state) ->
  2 <= ksl_size (input state) ->
  1 < length windows ->
  answered get_geometry windows ->
  tracking_depth log (length windows) (ksl_size (input state)) = Some depth ->
  exact_depth (ksl_size (input state)) (length windows) depth ->
  exists st w',
    initialise_window_tracking get_geometry log state windows w = Ret st w' /\
    map snd (flat_map labels (wsetups st)) = windows /\
    NoDup (map fst (flat_map labels (wsetups st))) /\
    Forall (fun l => length (fst l) <= depth + 1)
           (flat_map labels (wsetups st)).
Proof.
  intros Hcs HK HN Hgeo Hd [_ Hex].
  destruct (initialise_window_tracking_total get_geometry log state
              windows w depth Hd) as [st [w' [H [_ Hb]]]];
    [lia | lia | exact Hgeo |].
  exists st, w'. split; [exact H|].
  apply _initialise_window_tracking_built in Hb.
  destruct Hb as [[Ht _ _ _ _ _ _ Hl Hlv] [Hch _]].
  split; [|split].
  - now rewrite labels_windows.
  - rewrite labels_paths. apply siblings_paths_NoDup.
    + rewrite Hch. now apply NoDup_firstn.
    + revert Hl. apply Forall_impl. intros x.
      now apply labelled_paths_NoDup.
  - apply Forall_forall. intros l Hl'.
    assert (Hp : In (fst l) (flat_map paths (wsetups st))).
    { rewrite <- labels_paths. now apply in_map. }
    apply in_flat_map in Hp. destruct Hp as [x [Hx Hp]].
    apply paths_levels in Hp. rewrite Forall_forall in Hlv.
    apply Hlv in Hx. lia.
Qed.

Lemma labels_distinct_within_depth_witness :
  exists st w',
    initialise_window_tracking sample_geometry sample_log
      (initial_state ["a"; "b"]%char) [11; 12; 13]%Z initial_world
    = Ret st w' /\
    map snd (flat_map labels (wsetups st)) = [11; 12; 13]%Z /\
    NoDup (map fst (flat_map labels (wsetups st))) /\
    Forall (fun l => length (fst l) <= 1 + 1) (flat_map labels (wsetups st)).
Proof.
  apply (labels_distinct_within_depth sample_geometry sample_log
           (initial_state ["a"; "b"]%char) [11; 12; 13]%Z initial_world 1).
  - vm_compute. repeat constructor; simpl; intuition discriminate.
  - vm_compute. lia.
  - vm_compute. lia.
  - intros win _. discriminate.
  - vm_compute. reflexivity.
  - vm_compute. lia.
Defined.

(** Three windows and two characters: the specification's depth is 1, and
    the first two windows get strings of two characters (no two characters
    could label three windows with one character each). *)
Lemma labels_exceed_spec_depth :
  ~ labels_within_spec_depth sample_geometry sample_log
      (initial_state ["a"; "b"]%char) [11; 12; 13]%Z initial_world.
Proof.
  intros [st [w' [H [_ [_ Hb]]]]].
  vm_compute in H. inversion H; subst; clear H.
  vm_compute in Hb. inversion Hb; subst. lia.
Qed.

(** * The depth computed in double precision *)

(** C10.  244 windows and the three keys a, b, c.  The logarithm of 243 is
    five times that of 3, but the quotient of the two doubles is
    4.999999999999999 and the conversion to [int] gives 4.  From depth 4 the
    groups are of 82, 28, 10 and then 4 windows, and the last level is entered
    with 4 windows for 3 keys: [ksl[3]] is read past the end of the array.
    From depth 5 the structure is built. *)
Theorem depth_falls_short_of_243 :
  tracking_depth sample_log 244 3 = Some 4 /\
  initialise_window_tracking sample_geometry sample_log
    (initial_state ["a"; "b"; "c"]%char) (sample_windows 244) initial_world
  = Undef /\
  tracking_leaves sample_geometry (initial_state ["a"; "b"; "c"]%char) 0
    (firstn 4 (sample_windows 244)) initial_world
  = Undef /\
  exists ws w',
    _initialise_window_tracking sample_geometry
      (initial_state ["a"; "b"; "c"]%char) 5 (sample_windows 244)
      initial_world = Ret ws w'.
Proof.
  split; [vm_compute; reflexivity|].
  split; [vm_compute; reflexivity|].
  split; [vm_compute; reflexivity|].
  apply _initialise_window_tracking_total.
  - vm_compute. lia.
  - vm_compute. lia.
  - intros win _. discriminate.
Qed.

(** * The partition made at each level *)

Lemma concat_chunks {A} (sizes : list nat) : forall l : list A,
  list_sum sizes = length l -> concat (chunks sizes l) = l.
Proof.
  induction sizes as [|n sizes IH]; intros l H; simpl in *.
  - symmetry in H. now apply length_zero_iff_nil in H.
  - rewrite IH; [apply firstn_skipn|]. rewrite length_skipn. lia.
Qed.

Lemma map_length_chunks {A} (sizes : list nat) : forall l : list A,
  list_sum sizes = length l -> map (@length A) (chunks sizes l) = sizes.
Proof.
  induction sizes as [|n sizes IH]; intros l H; simpl in *; [reflexivity|].
  rewrite length_firstn, IH by (rewrite length_skipn; lia).
  f_equal. lia.
Qed.

Lemma group_sizes_S p r i todo :
  group_sizes p r i (S todo) =
  (if i <? r then p + 1 else p) :: group_sizes p r (S i) todo.
Proof. reflexivity. Qed.

(** When the windows are no more than the keys, the groups are of one window
    each. *)
Lemma group_sizes_small N K :
  N <= K -> 0 < K ->
  group_sizes (N / K) (N mod K) 0 (Nat.min N K) = group_sizes 1 0 0 N.
Proof.
  intros HN HK. rewrite Nat.min_l by exact HN. unfold group_sizes.
  apply map_ext_in. intros j Hj. apply in_seq in Hj.
  destruct (Nat.eq_dec N K) as [->|Hne].
  - rewrite Nat.div_same, Nat.Div0.mod_same by lia. reflexivity.
  - rewrite Nat.div_small, Nat.mod_small by lia.
    destruct (Nat.ltb_spec j N); [reflexivity | lia].
Qed.

Lemma level_count N K :
  0 < K -> (if 0 <? N / K then K else N mod K) = Nat.min N K.
Proof.
  intros HK. pose proof (Nat.div_mod_eq N K).
  pose proof (Nat.mod_upper_bound N K ltac:(lia)).
  destruct (Nat.ltb_spec 0 (N / K)); nia.
Qed.

Section Levels.

Variable get_geometry : xcb_window_t -> option xcb_get_geometry_reply_t.
Variable state : xcw_state_t.

(** The last level is the loop over groups of one window each. *)
Lemma tracking_leaves_as_groups descend : forall windows i w,
  tracking_leaves get_geometry state i windows w =
  tracking_groups get_geometry descend state 1 0 (length windows) i windows w.
Proof.
  induction windows as [|win rest IH]; intros i w; [reflexivity|].
  cbn [tracking_leaves tracking_groups length]. cbn [Nat.ltb Nat.leb].
  cbn [Nat.eqb skipn]. unfold bind.
  destruct (ksl_char state i w) as [c w1| |]; [|reflexivity|reflexivity].
  destruct (initialise_window_setup get_geometry state win c w1)
    as [x w2| |]; [|reflexivity|reflexivity].
  rewrite IH. reflexivity.
Qed.

(** What the loop over the groups puts at each index: the key of that index,
    and either a window under its overlay, when the group is of one, or the
    result of the recursive call on the group. *)
Lemma tracking_groups_nth descend p r :
  (forall g w ws w', descend g w = Ret ws w' -> flat_map tracked ws = g) ->
  forall todo i remain w ws w',
    tracking_groups get_geometry descend state p r todo i remain w
    = Ret ws w' ->
    list_sum (group_sizes p r i todo) = length remain ->
    length ws = todo /\
    forall j g,
      nth_error (chunks (group_sizes p r i todo) remain) j = Some g ->
      exists x c,
        nth_error ws j = Some x /\
        nth_error (characters_of state) (i + j) = Some c /\
        character x = c /\
        tracked x = g /\
        (length g = 1 -> children x = [] /\ overlay_window x <> None) /\
        (length g <> 1 ->
         window x = None /\ overlay_window x = None /\
         exists wi wi', descend g wi = Ret (children x) wi').
Proof.
  intros Hdescend.
  induction todo as [|todo IH]; intros i remain w ws w' H Hlen.
  - simpl in H. inversion H; subst. split; [reflexivity|].
    intros [|j] g Hg; discriminate.
  - cbn [tracking_groups] in H. rewrite group_sizes_S in *.
    set (size := if i <? r then p + 1 else p) in *.
    change (list_sum (size :: group_sizes p r (S i) todo))
      with (size + list_sum (group_sizes p r (S i) todo)) in Hlen.
    bind_ret H as x w1 Hx.
    bind_ret H as ws' w2 Hrest.
    inversion H; subst w2 ws; clear H.
    apply IH in Hrest; [|rewrite length_skipn; lia].
    destruct Hrest as [Hl Hnth]. split; [simpl; congruence|].
    intros [|j] g Hg.
    + cbn [chunks nth_error] in Hg. inversion Hg; subst g; clear Hg.
      rewrite Nat.add_0_r. cbn [nth_error].
      assert (Hg : length (firstn size remain) = size).
      { rewrite length_firstn. lia. }
      destruct (Nat.eqb_spec size 1) as [E|E].
      * destruct remain as [|win rest]; [discriminate|].
        bind_ret Hx as c w3 Hc.
        apply ksl_char_Ret in Hc. destruct Hc as [-> Hc].
        apply initialise_window_setup_Ret in Hx.
        destruct Hx as [[rect ->] _].
        eexists _, c. split; [reflexivity|]. split; [exact Hc|].
        split; [reflexivity|]. rewrite E. simpl.
        split; [reflexivity|].
        split; [intros _; split; [reflexivity | discriminate]|].
        intros F. now elim F.
      * bind_ret Hx as chn w3 Hchn.
        bind_ret Hx as c w4 Hc.
        apply ksl_char_Ret in Hc. destruct Hc as [-> Hc].
        inversion Hx; subst; clear Hx.
        eexists _, c. split; [reflexivity|]. split; [exact Hc|].
        split; [reflexivity|]. cbn [tracked window children opt_list app].
        split; [now apply Hdescend in Hchn|].
        split; [intros F; lia|]. intros _. eauto.
    + cbn [chunks nth_error] in Hg. apply Hnth in Hg.
      cbn [nth_error]. now rewrite Nat.add_succ_r.
Qed.

End Levels.

Lemma level_sizes_sum N K :
  0 < K ->
  list_sum (group_sizes (N / K) (N mod K) 0 (Nat.min N K)) = N.
Proof.
  intros HK. rewrite <- (level_count N K HK). now apply group_sizes_total.
Qed.

Lemma nth_error_character state i c :
  nth_error (characters_of state) i = Some c ->
  exists k, nth_error (ksl (input state)) i = Some k /\ c = ksl_character k.
Proof.
  unfold characters_of. rewrite nth_error_map.
  destruct (nth_error (ksl (input state)) i) as [k|]; simpl; intros H;
    inversion H; eauto.
Qed.

(** X21.  When the builder returns on [N > 1] windows with [K >= 2] keys, it
    has cut its windows, in their order, into [min N K] groups, the first
    [N mod K] of [N / K + 1] windows and the others of [N / K]; the node of
    index [i] carries the character of the key of index [i]; a group of one
    window gives a node without children that tracks it under an overlay, a
    larger group gives a node whose children are what the builder returns on
    that group with the same keys and one level less.  And the builder
    returns whenever the geometry requests are answered and the windows are
    at most [K ^ (depth + 1)]. *)
Theorem each_level_partitions get_geometry state depth windows w :
  2 <= ksl_size (input state) ->
  1 < length windows ->
  (forall ws w',
      _initialise_window_tracking get_geometry state depth windows w
      = Ret ws w' ->
      map (@length _) (level_groups (ksl_size (input state)) windows) =
        group_sizes (length windows / ksl_size (input state))
                    (length windows mod ksl_size (input state)) 0
                    (Nat.min (length windows) (ksl_size (input state))) /\
      concat (level_groups (ksl_size (input state)) windows) = windows /\
      length ws = Nat.min (length windows) (ksl_size (input state)) /\
      forall i g,
        nth_error (level_groups (ksl_size (input state)) windows) i = Some g ->
        exists x k,
          nth_error ws i = Some x /\
          nth_error (ksl (input state)) i = Some k /\
          character x = ksl_character k /\
          tracked x = g /\
          (length g = 1 -> children x = [] /\ overlay_window x <> None) /\
          (length g <> 1 ->
           window x = None /\ overlay_window x = None /\
           exists wi wi',
             _initialise_window_tracking get_geometry state (depth - 1) g wi
             = Ret (children x) wi')) /\
  (length windows <= ksl_size (input state) ^ S depth ->
   answered get_geometry windows ->
   exists ws w',
     _initialise_window_tracking get_geometry state depth windows w
     = Ret ws w').
Proof.
  intros HK HN. split.
  - intros ws w' H.
    set (K := ksl_size (input state)) in *.
    set (N := length windows) in *.
    assert (Hsum : list_sum (group_sizes (N / K) (N mod K) 0 (Nat.min N K))
                   = N) by (apply level_sizes_sum; lia).
    split; [now apply map_length_chunks|].
    split; [now apply concat_chunks|].
    assert (Hdescend : forall d g w0 ws0 w0',
      _initialise_window_tracking get_geometry state d g w0 = Ret ws0 w0' ->
      flat_map tracked ws0 = g).
    { intros d g w0 ws0 w0' H0.
      apply _initialise_window_tracking_built in H0. now destruct H0 as [[] _]. }
    assert (Hgoal :
      length ws = Nat.min N K /\
      forall j g,
        nth_error (level_groups K windows) j = Some g ->
        exists x c,
          nth_error ws j = Some x /\
          nth_error (characters_of state) (0 + j) = Some c /\
          character x = c /\
          tracked x = g /\
          (length g = 1 -> children x = [] /\ overlay_window x <> None) /\
          (length g <> 1 ->
           window x = None /\ overlay_window x = None /\
           exists wi wi',
             _initialise_window_tracking get_geometry state (depth - 1) g wi
             = Ret (children x) wi')).
    { destruct depth as [|depth].
      - cbn [_initialise_window_tracking] in H.
        assert (HNK : N <= K).
        { pose proof (tracking_leaves_built get_geometry state 0 _ _ _ _ _ H)
            as [_ [Hch Hl]].
          apply (f_equal (@length _)) in Hch.
          rewrite length_map, length_firstn, Hl in Hch. simpl in Hch.
          rewrite characters_of_length in Hch. fold K N in Hch. lia. }
        rewrite (tracking_leaves_as_groups get_geometry state
                   (_initialise_window_tracking get_geometry state 0)) in H.
        unfold level_groups. fold N. rewrite group_sizes_small by lia.
        rewrite Nat.min_l by exact HNK.
        eapply tracking_groups_nth; [apply Hdescend | exact H |].
        rewrite group_sizes_sum. fold N. lia.
      - cbn [_initialise_window_tracking] in H. fold K N in H.
        destruct K as [|k] eqn:EK; [lia|]. rewrite <- EK in *.
        rewrite level_count in H by lia.
        rewrite Nat.sub_succ, Nat.sub_0_r.
        eapply tracking_groups_nth; [apply Hdescend | exact H | exact Hsum]. }
    destruct Hgoal as [Hl Hnth]. split; [exact Hl|].
    intros i g Hg. apply Hnth in Hg.
    destruct Hg as [x [c [Hx [Hc Hrest]]]]. simpl in Hc.
    apply nth_error_character in Hc. destruct Hc as [k [Hk ->]].
    exists x, k. auto.
  - intros Hlen Hgeo. apply _initialise_window_tracking_total.
    + rewrite characters_of_length. lia.
    + now rewrite characters_of_length.
    + exact Hgeo.
Qed.

Lemma each_level_partitions_witness :
  exists ws w',
    _initialise_window_tracking sample_geometry
      (initial_state ["a"; "b"; "c"]%char) 1 (sample_windows 7) initial_world
    = Ret ws w' /\
    length ws = 3 /\
    map (@length _) (level_groups 3 (sample_windows 7)) = [3; 2; 2].
Proof.
  destruct (each_level_partitions sample_geometry
              (initial_state ["a"; "b"; "c"]%char) 1 (sample_windows 7)
              initial_world) as [Hpart Htot];
    [vm_compute; lia | vm_compute; lia |].
  destruct Htot as [ws [w' H]];
    [vm_compute; lia | intros win _; discriminate |].
  exists ws, w'. split; [exact H|].
  apply Hpart in H. destruct H as [Hs [_ [Hl _]]].
  split; [exact Hl | exact Hs].
Defined.

(** C5.  The last level entered with 4 windows for the three keys a, b, c,
    as it is from 244 windows: from the depth 4 that
    [initialise_window_tracking] computes, the first groups are of 82, 28,
    10 and then 4 windows.  The partition of these 4 windows is into 3
    groups of 2, 1 and 1 windows.  The builder makes none: its last level
    makes a structure without children for each window, with the key of the
    same index, and reads the key of index 3 where there are 3 keys. *)
Theorem last_level_with_four_windows :
  hd [] (level_groups 3 (sample_windows 244))
  = firstn 82 (sample_windows 244) /\
  hd [] (level_groups 3 (firstn 82 (sample_windows 244)))
  = firstn 28 (sample_windows 244) /\
  hd [] (level_groups 3 (firstn 28 (sample_windows 244)))
  = firstn 10 (sample_windows 244) /\
  hd [] (level_groups 3 (firstn 10 (sample_windows 244)))
  = firstn 4 (sample_windows 244) /\
  level_groups 3 (firstn 4 (sample_windows 244))
  = [[1; 2]; [3]; [4]]%Z /\
  _initialise_window_tracking sample_geometry
    (initial_state ["a"; "b"; "c"]%char) 0 (firstn 4 (sample_windows 244))
    initial_world = Undef /\
  _initialise_window_tracking sample_geometry
    (initial_state ["a"; "b"; "c"]%char) 4 (sample_windows 244)
    initial_world = Undef.
Proof.
  repeat split; vm_compute; reflexivity.
Qed.

(** * Drawing the text and freeing *)

Lemma same_windows_trans w1 w2 w3 :
  same_windows w1 w2 -> same_windows w2 w3 -> same_windows w1 w3.
Proof. unfold same_windows. intuition congruence. Qed.

Lemma forget_gcs_handles : forall x, handles (forget_gcs x) = handles x.
Proof.
  induction x as [ow fg bg r win c ch IH] using wsetup_ind.
  cbn [forget_gcs handles overlay_window children]. f_equal.
  induction IH as [|y ch Hy _ IH]; [reflexivity|].
  cbn [map flat_map]. now rewrite Hy, IH.
Qed.

Lemma forget_gcs_tracked : forall x, tracked (forget_gcs x) = tracked x.
Proof.
  induction x as [ow fg bg r win c ch IH] using wsetup_ind.
  cbn [forget_gcs tracked window children]. f_equal.
  induction IH as [|y ch Hy _ IH]; [reflexivity|].
  cbn [map flat_map]. now rewrite Hy, IH.
Qed.

Lemma forget_gcs_well_formed :
  forall x, well_formed (forget_gcs x) <-> well_formed x.
Proof.
  induction x as [ow fg bg r win c ch IH] using wsetup_ind.
  destruct ch as [|y ch]; [reflexivity|].
  cbn [forget_gcs well_formed children map overlay_window window].
  inversion IH as [|? ? Hy Hch]; subst.
  cbn [All]. rewrite Hy.
  assert (E : All well_formed (map forget_gcs ch) <-> All well_formed ch).
  { clear - Hch. induction Hch as [|z ch Hz _ IH]; [reflexivity|].
    cbn [map All]. now rewrite Hz, IH. }
  fold (All well_formed (map forget_gcs ch)). fold (All well_formed ch).
  now rewrite E.
Qed.

Lemma flat_map_forget {A} (f : window_setup_t -> list A) ws ws' :
  (forall x, f (forget_gcs x) = f x) ->
  map forget_gcs ws' = map forget_gcs ws ->
  flat_map f ws' = flat_map f ws.
Proof.
  intros Hf. revert ws'.
  induction ws as [|x ws IH]; intros [|x' ws'] H; try discriminate;
    [reflexivity|].
  cbn [map] in H. inversion H as [[Hx Hws]].
  cbn [flat_map]. rewrite (IH ws' Hws).
  now rewrite <- (Hf x'), Hx, Hf.
Qed.

Lemma map_forget {A} (f : window_setup_t -> A) ws ws' :
  (forall x, f (forget_gcs x) = f x) ->
  map forget_gcs ws' = map forget_gcs ws ->
  map f ws' = map f ws.
Proof.
  intros Hf. revert ws'.
  induction ws as [|x ws IH]; intros [|x' ws'] H; try discriminate;
    [reflexivity|].
  cbn [map] in *. inversion H as [[Hx Hws]].
  rewrite (IH ws' Hws). now rewrite <- (Hf x'), Hx, Hf.
Qed.

Lemma overlay_set_text_Ret x text w :
  (overlay_window x = None \/ overlay_rect x <> None) ->
  exists x' w',
    overlay_set_text x text w = Ret x' w' /\
    overlay_window x' = overlay_window x /\
    overlay_rect x' = overlay_rect x /\
    window x' = window x /\
    character x' = character x /\
    children x' = children x /\
    same_windows w w'.
Proof.
  intros Hx. unfold overlay_set_text.
  destruct (overlay_window x) as [win|] eqn:Eo.
  2:{ exists x, w. rewrite Eo. repeat split. }
  destruct Hx as [Hx|Hx]; [discriminate|].
  destruct (overlay_rect x) as [rect|] eqn:Er; [|congruence].
  destruct (overlay_bg_gc x), (overlay_font_gc x);
    cbv [bind ret overlay_get_bg_gc overlay_get_font_gc
         xorg_draw_text_centred xcb_generate_id send];
    simpl; eexists _, _; (split; [reflexivity|]); simpl;
    repeat split; reflexivity.
Qed.

Lemma update_each_Ret body l :
  Forall (fun x => forall w, exists x' w',
              body x w = Ret x' w' /\ forget_gcs x' = forget_gcs x /\
              same_windows w w') l ->
  forall w, exists l' w',
    update_each body l w = Ret l' w' /\
    map forget_gcs l' = map forget_gcs l /\
    same_windows w w'.
Proof.
  induction 1 as [|x l Hx _ IH]; intros w.
  - exists [], w. repeat split.
  - cbn [update_each].
    destruct (Hx w) as [x' [w1 [Hb [Ex Hw1]]]]. rewrite (bind_eq _ Hb).
    destruct (IH w1) as [l' [w2 [Hl [El Hw2]]]].
    fold (update_each body). rewrite (bind_eq _ Hl).
    exists (x' :: l'), w2. split; [reflexivity|]. split.
    + cbn [map]. now rewrite Ex, El.
    + eapply same_windows_trans; eassumption.
Qed.

Lemma overlays_set_text_at_Ret : forall x,
  well_formed x ->
  forall text w, exists x' w',
    overlays_set_text_at text x w = Ret x' w' /\
    forget_gcs x' = forget_gcs x /\
    same_windows w w'.
Proof.
  induction x as [ow fg bg r win c ch IH] using wsetup_ind.
  intros Hwf text w. cbn [overlays_set_text_at character children].
  set (x := mk_wsetup ow fg bg r win c ch) in *.
  assert (Hpre : overlay_window x = None \/ overlay_rect x <> None).
  { destruct ch; cbn in Hwf; intuition. }
  destruct (overlay_set_text_Ret x (text ++ [c]) w Hpre)
    as [x1 [w1 [H1 [Eo [Er [Ew [Ec [_ Hw1]]]]]]]].
  rewrite (bind_eq _ H1).
  assert (Hch : exists ch' w2,
    (if 255 <? length (text ++ [c]) + 1 then ret ch
     else update_each (overlays_set_text_at (text ++ [c])) ch) w1
    = Ret ch' w2 /\
    map forget_gcs ch' = map forget_gcs ch /\ same_windows w1 w2).
  { destruct (255 <? length (text ++ [c]) + 1).
    - exists ch, w1. repeat split.
    - apply update_each_Ret.
      assert (Hall : Forall well_formed ch).
      { exact (well_formed_children x Hwf). }
      clear - IH Hall. induction IH as [|y ch Hy _ IHch]; constructor.
      + intros w. apply Hy. now inversion Hall.
      + apply IHch. now inversion Hall. }
  destruct Hch as [ch' [w2 [H2 [Ech Hw2]]]]. rewrite (bind_eq _ H2).
  eexists _, w2. split; [reflexivity|]. split.
  - cbn [forget_gcs overlay_window overlay_rect window character children].
    rewrite Eo, Er, Ew, Ec, Ech. reflexivity.
  - eapply same_windows_trans; eassumption.
Qed.

Lemma overlays_set_text_Ret state w :
  Forall well_formed (wsetups state) ->
  exists st' w',
    overlays_set_text state w = Ret st' w' /\
    input st' = input state /\
    map forget_gcs (wsetups st') = map forget_gcs (wsetups state) /\
    same_windows w w'.
Proof.
  intros Hwf. unfold overlays_set_text, _overlays_set_text.
  cbn [length Nat.add Nat.ltb Nat.leb].
  destruct (update_each_Ret (overlays_set_text_at []) (wsetups state))
    with (w := w) as [ws' [w1 [H1 [E1 Hw1]]]].
  { revert Hwf. apply Forall_impl. intros x Hx w0.
    now apply overlays_set_text_at_Ret. }
  change (255 <? 1) with false. cbv iota.
  rewrite (bind_eq _ H1).
  eexists _, _. split; [reflexivity|]. split; [reflexivity|].
  split; [exact E1|]. destruct Hw1 as [? [? ?]]. repeat split; assumption.
Qed.

Lemma released_nil w : released w [] w.
Proof. unfold released. now rewrite app_nil_r. Qed.

Lemma released_trans w1 l1 w2 l2 w3 :
  released w1 l1 w2 -> released w2 l2 w3 -> released w1 (l1 ++ l2) w3.
Proof.
  unfold released. intros [? [? ?]] [? [? ?]].
  rewrite app_assoc. intuition congruence.
Qed.

Lemma for_each_released body l :
  Forall (fun x => forall w, exists w',
              body x w = Ret tt w' /\ released w (handles x) w') l ->
  forall w, exists w',
    for_each body l w = Ret tt w' /\ released w (flat_map handles l) w'.
Proof.
  induction 1 as [|x l Hx _ IH]; intros w.
  - exists w. split; [reflexivity | apply released_nil].
  - cbn [for_each flat_map].
    destruct (Hx w) as [w1 [Hb Hw1]]. rewrite (bind_eq _ Hb).
    destruct (IH w1) as [w2 [Hl Hw2]].
    exists w2. split; [exact Hl|].
    eapply released_trans; eassumption.
Qed.

Lemma wsetup_free_Ret : forall x w, exists w',
  wsetup_free x w = Ret tt w' /\ released w (handles x) w'.
Proof.
  induction x as [ow fg bg r win c ch IH] using wsetup_ind. intros w.
  cbn [wsetup_free overlay_window overlay_bg_gc overlay_font_gc children
       handles].
  assert (H1 : exists w1,
    match ow with
    | Some w0 => send (DestroyWindow w0)
    | None => ret tt
    end w = Ret tt w1 /\ released w (opt_list ow) w1).
  { destruct ow; eexists; (split; [reflexivity|]).
    - repeat split.
    - apply released_nil. }
  destruct H1 as [w1 [H1 Hw1]]. rewrite (bind_eq _ H1).
  assert (H2 : exists w2,
    (match bg with Some gc => send (FreeGC gc) | None => ret tt end ;;;
     match fg with Some gc => send (FreeGC gc) | None => ret tt end ;;;
     ret tt) w1 = Ret tt w2 /\ released w1 [] w2).
  { destruct bg, fg; eexists; (split; [reflexivity|]);
      unfold released; simpl; now rewrite app_nil_r. }
  destruct H2 as [w2 [H2 Hw2]].
  destruct (for_each_released wsetup_free ch IH w2) as [w3 [H3 Hw3]].
  exists (mk_world (next_id w3) (Flush :: requests w3) (stdout w3)).
  split.
  - revert H2. unfold bind.
    destruct bg, fg; simpl; intros H2; inversion H2; subst; clear H2;
      rewrite H3; reflexivity.
  - pose proof (released_trans _ _ _ _ _ Hw1
                  (released_trans _ _ _ _ _ Hw2 Hw3)) as Hr.
    simpl in Hr. destruct Hr as [? [? ?]]. repeat split; assumption.
Qed.

(** * Descending by one character *)

Lemma released_same w l w1 w2 :
  released w l w1 -> same_windows w1 w2 -> released w l w2.
Proof. unfold released, same_windows. intuition congruence. Qed.

Lemma find_index_app c before x after : forall i,
  Forall (fun y => character y <> c) before ->
  character x = c ->
  find_index c i (before ++ x :: after) = Some (i + length before).
Proof.
  induction before as [|y before IH]; intros i Hb Hx; cbn [app find_index].
  - rewrite Hx, Ascii.eqb_refl. f_equal. simpl. lia.
  - inversion Hb; subst.
    destruct (Ascii.eqb_spec (character y) (character x)); [contradiction|].
    rewrite IH by auto. f_equal. simpl. lia.
Qed.

Lemma find_index_none c ws : forall i,
  Forall (fun y => character y <> c) ws <-> find_index c i ws = None.
Proof.
  induction ws as [|y ws IH]; intros i; cbn [find_index].
  - split; [reflexivity | constructor].
  - destruct (Ascii.eqb_spec (character y) c) as [E|E].
    + split; [|discriminate]. intros H. inversion H; contradiction.
    + rewrite <- IH. split.
      * intros H. now inversion H.
      * intros H. now constructor.
Qed.

(** Past the chosen index every structure is freed. *)
Lemma descend_from_after state index : forall l i w,
  index < i ->
  exists w',
    descend_from state index i l w = Ret state w' /\
    released w (flat_map handles l) w'.
Proof.
  induction l as [|x ws IH]; intros i w Hi.
  - exists w. split; [reflexivity | apply released_nil].
  - cbn [descend_from flat_map].
    destruct (Nat.eqb_spec i index); [lia|].
    destruct (wsetup_free_Ret x w) as [w1 [H1 Hw1]].
    unfold bind at 1. unfold bind at 1. rewrite H1. cbv beta iota.
    unfold ret at 1.
    destruct (IH (S i) w1) as [w2 [H2 Hw2]]; [lia|].
    exists w2. split; [exact H2|].
    eapply released_trans; eassumption.
Qed.

(** Up to the chosen index every structure is freed, then the chosen one is
    handled by [wsetup_choose]. *)
Lemma descend_from_before state x after : forall before i w,
  exists w1,
    released w (flat_map handles before) w1 /\
    descend_from state (i + length before) i (before ++ x :: after) w =
    (state' <- wsetup_choose state x ;;
     descend_from state' (i + length before) (S (i + length before)) after)
      w1.
Proof.
  induction before as [|y before IH]; intros i w.
  - exists w. split; [apply released_nil|].
    cbn [app descend_from length]. rewrite Nat.add_0_r, Nat.eqb_refl.
    reflexivity.
  - cbn [app descend_from length flat_map].
    destruct (Nat.eqb_spec i (i + S (length before))); [lia|].
    destruct (wsetup_free_Ret y w) as [w1 [H1 Hw1]].
    unfold bind at 1. unfold bind at 1. rewrite H1. cbv beta iota.
    unfold ret at 1.
    destruct (IH (S i) w1) as [w2 [Hw2 H2]].
    exists w2. split; [eapply released_trans; eassumption|].
    replace (i + S (length before)) with (S i + length before) by lia.
    exact H2.
Qed.

Lemma wsetup_choose_leaf state x w :
  well_formed x -> children x = [] ->
  exists win,
    window x = Some win /\
    wsetup_choose state x w =
    Exit 0 (mk_world (next_id w) (requests w)
                     ((format (input state), win) :: stdout w)).
Proof.
  destruct x as [ow fg bg r win c ch]. cbn [well_formed children].
  intros Hwf ->. destruct Hwf as [_ [_ Hwin]]. cbn [window] in Hwin.
  destruct win as [win|]; [|congruence]. now exists win.
Qed.

Lemma wsetup_choose_internal state x w :
  well_formed x -> children x <> [] ->
  exists st' w',
    wsetup_choose state x w = Ret st' w' /\
    input st' = input state /\
    map forget_gcs (wsetups st') = map forget_gcs (children x) /\
    same_windows w w'.
Proof.
  intros Hwf Hch. pose proof (well_formed_children _ Hwf) as Hall.
  destruct x as [ow fg bg r win c ch]. cbn [children] in *.
  destruct ch as [|y ch]; [congruence|].
  cbn [well_formed children window] in Hwf. destruct Hwf as [_ [-> _]].
  unfold wsetup_choose. cbn [window children children_size].
  apply (overlays_set_text_Ret (mk_state (input state) (y :: ch)) w Hall).
Qed.

(** A character that is found: the structures ahead of the one that carries
    it are freed, and [wsetup_choose] is called on that one. *)
Lemma descend_to_choice state c w before x after :
  wsetups state = before ++ x :: after ->
  Forall (fun y => character y <> c) before ->
  character x = c ->
  exists w1,
    released w (flat_map handles before) w1 /\
    wsetups_descend_by_char state c w =
    (state' <- wsetup_choose state x ;;
     descend_from state' (length before) (S (length before)) after) w1.
Proof.
  intros Hws Hb Hx.
  unfold wsetups_descend_by_char, wsetups_descend_by_index.
  rewrite Hws, (find_index_app c before x after 0 Hb Hx).
  destruct (descend_from_before state x after before 0 w) as [w1 [Hw1 H1]].
  exists w1. split; [exact Hw1 | exact H1].
Qed.

(** C2, amended.  The character [c] is found at the structure [x] of the
    current array, after the structures [before] and ahead of [after].  When
    [x] has children, [wsetups_descend_by_char] returns with the children of
    [x] as the current array, and by then every overlay below [before] and
    [after] is destroyed.  When [x] tracks a window, that window is printed
    and the process exits with status 0 at that point: the overlays below
    [before] are destroyed, the overlay of [x] and those below [after] are
    not. *)
Theorem descend_releases_siblings state c w before x after :
  wsetups state = before ++ x :: after ->
  Forall (fun y => character y <> c) before ->
  character x = c ->
  well_formed x ->
  (children x = [] ->
   exists win w',
     window x = Some win /\
     wsetups_descend_by_char state c w = Exit 0 w' /\
     stdout w' = (format (input state), win) :: stdout w /\
     created (requests w') = created (requests w) /\
     destroyed (requests w') =
       destroyed (requests w) ++ flat_map handles before) /\
  (children x <> [] ->
   exists st' w',
     wsetups_descend_by_char state c w = Ret st' w' /\
     input st' = input state /\
     map forget_gcs (wsetups st') = map forget_gcs (children x) /\
     released w (flat_map handles before ++ flat_map handles after) w').
Proof.
  intros Hws Hb Hx Hwf.
  destruct (descend_to_choice state c w before x after Hws Hb Hx)
    as [w1 [Hw1 ->]].
  split; intros Hch.
  - destruct (wsetup_choose_leaf state x w1 Hwf Hch) as [win [Hwin H]].
    exists win. eexists. split; [exact Hwin|].
    split; [unfold bind; rewrite H; reflexivity|].
    destruct Hw1 as [Hc [Hd Hs]]. cbn [stdout requests].
    rewrite Hs, Hc, Hd. repeat split.
  - destruct (wsetup_choose_internal state x w1 Hwf Hch)
      as [st' [w2 [H [Ei [Ef Hw2]]]]].
    rewrite (bind_eq _ H).
    destruct (descend_from_after st' (length before) after
                (S (length before)) w2) as [w3 [H3 Hw3]]; [lia|].
    exists st', w3. split; [exact H3|]. split; [exact Ei|].
    split; [exact Ef|].
    eapply released_trans; [|exact Hw3].
    eapply released_same; eassumption.
Qed.

Lemma descend_releases_siblings_witness :
  exists st' w',
    wsetups_descend_by_char
      (state_of (sample_run ["a"; "b"; "c"]%char 7 [])) "b"%char
      (world_of (sample_run ["a"; "b"; "c"]%char 7 [])) = Ret st' w' /\
    map tracked (wsetups st') = [[4]; [5]]%Z /\
    released (world_of (sample_run ["a"; "b"; "c"]%char 7 []))
             [100; 101; 102; 105; 106]%Z w'.
Proof.
  pose (st := state_of (sample_run ["a"; "b"; "c"]%char 7 [])).
  pose (w := world_of (sample_run ["a"; "b"; "c"]%char 7 [])).
  destruct (descend_releases_siblings st "b"%char w
              (firstn 1 (wsetups st))
              (nth 1 (wsetups st) (mk_wsetup None None None None None "b" []))
              (skipn 2 (wsetups st))) as [_ Hinner].
  - vm_compute. reflexivity.
  - vm_compute. repeat constructor. discriminate.
  - vm_compute. reflexivity.
  - vm_compute. intuition discriminate.
  - destruct Hinner as [st' [w' [H [_ [Ef Hr]]]]].
    + vm_compute. discriminate.
    + exists st', w'. split; [exact H|]. split; [|exact Hr].
      rewrite (map_forget tracked _ _ forget_gcs_tracked Ef).
      vm_compute. reflexivity.
Defined.

(** Five windows under the characters a to e, and the key c: window 3 is
    chosen, the overlays of a and b are destroyed, and those of c, d and e
    are not. *)
Lemma choosing_leaves_overlays_behind :
  ~ chooses_and_releases_all
      (state_of (sample_run ["a"; "b"; "c"; "d"; "e"]%char 5 [])) "c"%char
      (world_of (sample_run ["a"; "b"; "c"; "d"; "e"]%char 5 [])).
Proof.
  intros [win [w' [H [_ Hall]]]].
  vm_compute in H. inversion H; subst; clear H.
  specialize (Hall 104%Z). vm_compute in Hall.
  intuition discriminate.
Qed.

(** C3, amended.  When no structure of the current array carries the
    character, [wsetups_descend_by_char] ends the process with status 0 in
    the world it was called in: nothing is printed and no request is sent,
    so no overlay is destroyed. *)
Theorem unmatched_character_exits state c w :
  Forall (fun y => character y <> c) (wsetups state) ->
  wsetups_descend_by_char state c w = Exit 0 w.
Proof.
  intros H. unfold wsetups_descend_by_char.
  apply (find_index_none c (wsetups state) 0) in H. rewrite H.
  reflexivity.
Qed.

Lemma unmatched_character_exits_witness :
  wsetups_descend_by_char
    (state_of (sample_run ["a"; "b"; "c"; "d"; "e"]%char 5 [])) "z"%char
    (world_of (sample_run ["a"; "b"; "c"; "d"; "e"]%char 5 []))
  = Exit 0 (world_of (sample_run ["a"; "b"; "c"; "d"; "e"]%char 5 [])).
Proof.
  apply unmatched_character_exits.
  vm_compute. repeat constructor; discriminate.
Defined.

(** Five windows under the characters a to e, and the key z: the process
    exits and the five overlays are still there. *)
Lemma cancelling_leaves_overlays_behind :
  ~ cancels_and_releases_all
      (state_of (sample_run ["a"; "b"; "c"; "d"; "e"]%char 5 [])) "z"%char
      (world_of (sample_run ["a"; "b"; "c"; "d"; "e"]%char 5 [])).
Proof.
  intros [w' [H [_ Hall]]].
  vm_compute in H. inversion H; subst; clear H.
  specialize (Hall 100%Z). vm_compute in Hall.
  intuition discriminate.
Qed.

(** * The [CHARACTERS] argument *)

Lemma find_char_None l c :
  keysyms_lookup_find_char l c = None <->
  existsb (Ascii.eqb c) (map ksl_character l) = false.
Proof.
  induction l as [|k l IH]; cbn [keysyms_lookup_find_char map existsb].
  - tauto.
  - rewrite (Ascii.eqb_sym c). destruct (Ascii.eqb (ksl_character k) c).
    + split; discriminate.
    + exact IH.
Qed.

Lemma find_char_Some l c k :
  keysyms_lookup_find_char l c = Some k -> ksl_character k = c.
Proof.
  induction l as [|k' l IH]; cbn [keysyms_lookup_find_char]; [discriminate|].
  destruct (Ascii.eqb_spec (ksl_character k') c); [|exact IH].
  intros H. now inversion H; subst.
Qed.

Lemma lookup_character c : ksl_character (lookup c) = c.
Proof.
  unfold lookup.
  destruct (keysyms_lookup_find_char ALL_KEYSYMS_LOOKUP c) eqn:E;
    [now apply find_char_Some in E | reflexivity].
Qed.

Lemma parse_characters_eq : forall char_pool found w,
  parse_characters char_pool found w =
  if forallb known char_pool
  then Ret (found ++ map lookup
                       (distinct_from (map ksl_character found) char_pool)) w
  else Exit EX_USAGE w.
Proof.
  induction char_pool as [|c rest IH]; intros found w;
    cbn [parse_characters forallb distinct_from map].
  - now rewrite app_nil_r.
  - unfold known at 1.
    destruct (keysyms_lookup_find_char ALL_KEYSYMS_LOOKUP c) as [item|] eqn:E;
      [|reflexivity].
    cbn [andb].
    assert (Hitem : lookup c = item) by (unfold lookup; now rewrite E).
    destruct (keysyms_lookup_find_char found c) as [k|] eqn:F.
    + assert (existsb (Ascii.eqb c) (map ksl_character found) = true) as ->.
      { destruct (existsb _ _) eqn:X; [reflexivity|].
        apply find_char_None in X. congruence. }
      apply IH.
    + apply find_char_None in F. rewrite F, IH.
      rewrite map_app. cbn [map]. rewrite (find_char_Some _ _ _ E).
      destruct (forallb known rest); [|reflexivity].
      cbn [map]. now rewrite Hitem, <- app_assoc.
Qed.

Lemma distinct_from_spec : forall l seen,
  NoDup (distinct_from seen l) /\
  forall c, In c (distinct_from seen l) -> In c l /\ ~ In c seen.
Proof.
  induction l as [|c rest IH]; intros seen; cbn [distinct_from].
  - split; [constructor | intros c []].
  - destruct (existsb (Ascii.eqb c) seen) eqn:E.
    + destruct (IH seen) as [Hn Hin]. split; [exact Hn|].
      intros d Hd. apply Hin in Hd. simpl. tauto.
    + destruct (IH (seen ++ [c])) as [Hn Hin].
      assert (Hc : ~ In c seen).
      { intros Hc. assert (existsb (Ascii.eqb c) seen = true); [|congruence].
        apply existsb_exists. exists c. now rewrite Ascii.eqb_refl. }
      split.
      * constructor; [|exact Hn]. intros Hd. apply Hin in Hd.
        apply (proj2 Hd). apply in_or_app. right. now left.
      * intros d [<-|Hd]; [simpl; tauto|].
        apply Hin in Hd. destruct Hd as [Hd Hs]. split; [now right|].
        intros F. apply Hs. apply in_or_app. now left.
Qed.

Lemma parse_args_Ret characters f w input w' :
  parse_args characters f w = Ret input w' ->
  w' = w /\ format input = f /\ 2 <= ksl_size input.
Proof.
  unfold parse_args, parse_arg_characters.
  destruct characters as [char_pool|]; [|discriminate].
  unfold bind. rewrite parse_characters_eq.
  destruct (forallb known char_pool); [|discriminate].
  cbn [app map]. 
  destruct (Nat.ltb_spec (length (map lookup (distinct_from [] char_pool))) 2)
    as [Hlt|Hge]; [discriminate|].
  intros H. inversion H; subst. repeat split. exact Hge.
Qed.

(** C7, amended.  Parsing [CHARACTERS] succeeds when every character is one
    of 0-9 and a-z and at least two of them are different: the keys are the
    characters at their first occurrence, a repeated character being dropped.
    It fails otherwise, with the usage error, and then the program has exited
    before it sent any request. *)
Theorem characters_parsed_or_rejected char_pool input w :
  (forallb known char_pool = true ->
   2 <= length (distinct_from [] char_pool) ->
   exists found,
     parse_arg_characters char_pool input w
     = Ret (mk_input found (format input)) w /\
     map ksl_character found = distinct_from [] char_pool /\
     NoDup (map ksl_character found) /\ 2 <= length found) /\
  (forallb known char_pool = false \/
   length (distinct_from [] char_pool) < 2 ->
   parse_arg_characters char_pool input w = Exit EX_USAGE w /\
   forall get_geometry log f windows events,
     main get_geometry log (Some char_pool) f windows events w
     = Exit EX_USAGE w).
Proof.
  assert (Hchars : map ksl_character (map lookup (distinct_from [] char_pool))
                   = distinct_from [] char_pool).
  { rewrite map_map. rewrite <- (map_id (distinct_from [] char_pool)) at 2.
    apply map_ext. apply lookup_character. }
  split.
  - intros Hk Hl. unfold parse_arg_characters, bind.
    rewrite parse_characters_eq, Hk. cbn [app map].
    rewrite length_map.
    destruct (Nat.ltb_spec (length (distinct_from [] char_pool)) 2); [lia|].
    eexists. split; [reflexivity|]. split; [exact Hchars|].
    rewrite Hchars, length_map. split; [|exact Hl].
    apply distinct_from_spec.
  - intros H.
    assert (E : forall i, parse_arg_characters char_pool i w
                          = Exit EX_USAGE w).
    { intros i. unfold parse_arg_characters, bind.
      rewrite parse_characters_eq.
      destruct (forallb known char_pool); [|reflexivity].
      cbn [app map]. rewrite length_map.
      destruct H as [H|H]; [discriminate|].
      destruct (Nat.ltb_spec (length (distinct_from [] char_pool)) 2);
        [reflexivity | lia]. }
    split; [apply E|].
    intros get_geometry log f windows events.
    unfold main, parse_args, bind. now rewrite E.
Qed.

Lemma characters_parsed_or_rejected_witness :
  (exists found,
      parse_arg_characters ["a"; "a"; "b"]%char (mk_input [] FORMAT_DEC)
        initial_world
      = Ret (mk_input found FORMAT_DEC) initial_world /\
      map ksl_character found = ["a"; "b"]%char) /\
  parse_arg_characters ["a"; "A"]%char (mk_input [] FORMAT_DEC) initial_world
  = Exit EX_USAGE initial_world.
Proof.
  split.
  - destruct (proj1 (characters_parsed_or_rejected ["a"; "a"; "b"]%char
                       (mk_input [] FORMAT_DEC) initial_world))
      as [found [H [Hc _]]].
    + vm_compute. reflexivity.
    + vm_compute. lia.
    + exists found. split; [exact H | exact Hc].
  - apply (proj2 (characters_parsed_or_rejected ["a"; "A"]%char
                    (mk_input [] FORMAT_DEC) initial_world)).
    left. vm_compute. reflexivity.
Defined.

(** The characters a, a, b: a symbol is repeated, and the keys a and b are
    accepted. *)
Lemma repeated_character_is_accepted :
  ~ fails_on_short_or_repeated ["a"; "a"; "b"]%char
      (mk_input [] FORMAT_DEC) initial_world.
Proof.
  intros [_ H].
  destruct H as [w' H].
  - right. intros N. inversion N as [|? ? Hin _]; subst.
    apply Hin. now left.
  - vm_compute in H. discriminate.
Qed.

(** * A single window *)

Lemma single_window_tracking get_geometry state depth win ggr w :
  2 <= ksl_size (input state) ->
  get_geometry win = Some ggr ->
  exists x,
    _initialise_window_tracking get_geometry state depth [win] w
    = Ret [x] (mk_world (next_id w + 1)
                        (overlay_requests (next_id w) ggr ++ requests w)
                        (stdout w)) /\
    window x = Some win /\ children x = [].
Proof.
  intros HK Hgeo.
  assert (Hc : exists c, nth_error (characters_of state) 0 = Some c).
  { rewrite <- characters_of_length in HK.
    destruct (characters_of state) as [|c cs]; [simpl in HK; lia|].
    now exists c. }
  destruct Hc as [c Hc].
  assert (Hx : initialise_window_setup get_geometry state win c w =
    Ret (mk_wsetup (Some (next_id w)) None None
           (Some (mk_rectangle 0 0 (geo_width ggr) (geo_height ggr)))
           (Some win) c [])
        (mk_world (next_id w + 1)
                  (overlay_requests (next_id w) ggr ++ requests w)
                  (stdout w))).
  { unfold initialise_window_setup. rewrite Hgeo. reflexivity. }
  exists (mk_wsetup (Some (next_id w)) None None
            (Some (mk_rectangle 0 0 (geo_width ggr) (geo_height ggr)))
            (Some win) c []).
  split; [|split; reflexivity].
  destruct depth as [|depth].
  - cbn [_initialise_window_tracking tracking_leaves].
    rewrite (bind_eq _ (ksl_char_total _ _ _ w Hc)).
    rewrite (bind_eq _ Hx). reflexivity.
  - cbn [_initialise_window_tracking length].
    destruct (ksl_size (input state)) as [|[|k]] eqn:EK; [lia | lia |].
    rewrite Nat.div_small, Nat.mod_small by lia.
    cbn [Nat.ltb Nat.leb tracking_groups Nat.add Nat.eqb].
    unfold bind at 1. rewrite (bind_eq _ (ksl_char_total _ _ _ w Hc)).
    rewrite Hx. reflexivity.
Qed.

(** C8, amended.  With a single window and accepted characters the program
    chooses that window before it reads any event: the window is printed and
    the process exits with status 0.  By then the builder has created the
    overlay window of that window, which is the only thing requested from
    the server: no text is drawn on it and it is not destroyed. *)
Theorem single_window_is_chosen_at_start
    get_geometry log characters f win ggr events w parsed w0 depth :
  parse_args characters f w = Ret parsed w0 ->
  get_geometry win = Some ggr ->
  tracking_depth log 1 (ksl_size parsed) = Some depth ->
  exists w',
    main get_geometry log characters f [win] events w = Exit 0 w' /\
    stdout w' = (f, win) :: stdout w /\
    requests w' = overlay_requests (next_id w) ggr ++ requests w /\
    created (requests w') = created (requests w) ++ [next_id w] /\
    destroyed (requests w') = destroyed (requests w).
Proof.
  intros Hp Hgeo Hd.
  pose proof (parse_args_Ret _ _ _ _ _ Hp) as [-> [Hf HK]].
  unfold main. rewrite (bind_eq _ Hp).
  unfold initialise_window_tracking. cbn [input length]. rewrite Hd.
  destruct (single_window_tracking get_geometry (mk_state parsed []) depth
              win ggr w HK Hgeo) as [x [Hx [Hw Hch]]].
  unfold bind, ret. rewrite Hx.
  unfold start, wsetup_choose, children_size. cbn [wsetups input].
  rewrite Hw, Hch. cbn [length].
  eexists. split; [reflexivity|]. simpl.
  rewrite Hf. auto.
Qed.

Lemma single_window_is_chosen_at_start_witness :
  exists w',
    main sample_geometry sample_log (Some ["a"; "b"]%char) FORMAT_DEC [7%Z]
         [KeyPress 97%Z] initial_world = Exit 0 w' /\
    stdout w' = [(FORMAT_DEC, 7%Z)] /\
    created (requests w') = [100%Z] /\
    destroyed (requests w') = [].
Proof.
  destruct (single_window_is_chosen_at_start sample_geometry sample_log
              (Some ["a"; "b"]%char) FORMAT_DEC 7%Z (mk_geometry 0 0 640 480 1)
              [KeyPress 97%Z] initial_world
              (mk_input (keys ["a"; "b"]%char) FORMAT_DEC) initial_world 0)
    as [w' [H [Hs [_ [Hc Hd]]]]].
  - vm_compute. reflexivity.
  - reflexivity.
  - vm_compute. reflexivity.
  - exists w'. auto.
Defined.

(** One window: its overlay window is created before the window is
    chosen. *)
Lemma single_window_gets_an_overlay :
  ~ chosen_without_overlay sample_geometry sample_log
      (Some ["a"; "b"]%char) FORMAT_DEC 7%Z initial_world.
Proof.
  intros [w' [H [_ [Hc _]]]].
  vm_compute in H. inversion H; subst; clear H.
  vm_compute in Hc. discriminate.
Qed.

(** * Seven windows and three keys *)

(** The builder asks for the geometry of the windows it is given, and of no
    other. *)
Lemma initialise_window_setup_ext gg gg' state win c :
  gg win = gg' win ->
  initialise_window_setup gg state win c =
  initialise_window_setup gg' state win c.
Proof. unfold initialise_window_setup. now intros ->. Qed.

Lemma tracking_leaves_ext gg gg' state : forall windows i w,
  (forall x, In x windows -> gg x = gg' x) ->
  tracking_leaves gg state i windows w = tracking_leaves gg' state i windows w.
Proof.
  induction windows as [|win rest IH]; intros i w H; [reflexivity|].
  cbn [tracking_leaves]. unfold bind.
  destruct (ksl_char state i w) as [c w1| |]; [|reflexivity|reflexivity].
  rewrite (initialise_window_setup_ext gg gg' state win c) by
    (apply H; now left).
  destruct (initialise_window_setup gg' state win c w1) as [x w2| |];
    [|reflexivity|reflexivity].
  rewrite IH; [reflexivity|]. intros y Hy. apply H. now right.
Qed.

Lemma bind_ext {A B} (m m' : M A) (f f' : A -> M B) w :
  m w = m' w ->
  (forall a w1, f a w1 = f' a w1) ->
  bind m f w = bind m' f' w.
Proof.
  intros Hm Hf. unfold bind. rewrite Hm.
  destruct (m' w); [apply Hf | reflexivity | reflexivity].
Qed.

Lemma tracking_groups_ext gg gg' descend descend' state p r :
  (forall g w, (forall x, In x g -> gg x = gg' x) ->
               descend g w = descend' g w) ->
  forall todo i remain w,
    (forall x, In x remain -> gg x = gg' x) ->
    tracking_groups gg descend state p r todo i remain w =
    tracking_groups gg' descend' state p r todo i remain w.
Proof.
  intros Hdescend.
  induction todo as [|todo IH]; intros i remain w H; [reflexivity|].
  cbn [tracking_groups].
  set (size := if i <? r then p + 1 else p).
  assert (Hfirst : forall x, In x (firstn size remain) -> gg x = gg' x).
  { intros x Hx. apply H. rewrite <- (firstn_skipn size remain).
    apply in_or_app. now left. }
  assert (Hskip : forall x, In x (skipn size remain) -> gg x = gg' x).
  { intros x Hx. apply H. rewrite <- (firstn_skipn size remain).
    apply in_or_app. now right. }
  apply bind_ext.
  - destruct (size =? 1).
    + destruct remain as [|win rest]; [reflexivity|].
      apply bind_ext; [reflexivity|]. intros c w1.
      now rewrite (initialise_window_setup_ext gg gg' state win) by
        (apply H; now left).
    + apply bind_ext; [now apply Hdescend | reflexivity].
  - intros x w1. apply bind_ext; [now apply IH | reflexivity].
Qed.

Lemma _initialise_window_tracking_ext gg gg' state :
  forall depth windows w,
    (forall x, In x windows -> gg x = gg' x) ->
    _initialise_window_tracking gg state depth windows w =
    _initialise_window_tracking gg' state depth windows w.
Proof.
  induction depth as [|depth IH]; intros windows w H.
  - now apply tracking_leaves_ext.
  - cbn [_initialise_window_tracking].
    destruct (ksl_size (input state)); [reflexivity|].
    apply tracking_groups_ext; [|exact H].
    intros g w0 Hg. now apply IH.
Qed.

Lemma initialise_window_tracking_ext gg gg' log state windows w :
  (forall x, In x windows -> gg x = gg' x) ->
  initialise_window_tracking gg log state windows w =
  initialise_window_tracking gg' log state windows w.
Proof.
  intros H. unfold initialise_window_tracking.
  destruct (tracking_depth log _ _); [|reflexivity].
  apply bind_ext; [now apply _initialise_window_tracking_ext | reflexivity].
Qed.

Lemma main_ext gg gg' log characters f windows events w :
  (forall x, In x windows -> gg x = gg' x) ->
  main gg log characters f windows events w =
  main gg' log characters f windows events w.
Proof.
  intros H. unfold main. apply bind_ext; [reflexivity|]. intros parsed w1.
  apply bind_ext; [now apply initialise_window_tracking_ext | reflexivity].
Qed.

(** C9.  The windows 1 to 7 with the keys a, b, c, at the depth 1 that
    [(int)(log(6) / log(3))] gives: with p = 2 and r = 1 the first level has
    the groups 1 2 3, 4 5 and 6 7 under a, b and c; the structure under a has
    children and no window, its children track 1, 2 and 3 under a, b and c
    and have no children; and the keys a then b choose window 2. *)
Theorem seven_windows_three_keys get_geometry log f :
  answered get_geometry (sample_windows 7) ->
  tracking_depth log 7 3 = Some 1 ->
  exists st w x_a,
    initialise_window_tracking get_geometry log
      (mk_state (mk_input (keys ["a"; "b"; "c"]%char) f) [])
      (sample_windows 7) initial_world = Ret st w /\
    7 / 3 = 2 /\ 7 mod 3 = 1 /\
    map (fun x => (character x, tracked x)) (wsetups st) =
      [("a"%char, [1; 2; 3]%Z); ("b"%char, [4; 5]%Z);
       ("c"%char, [6; 7]%Z)] /\
    nth_error (wsetups st) 0 = Some x_a /\
    window x_a = None /\
    map (fun y => (character y, window y, children y)) (children x_a) =
      [("a"%char, Some 1%Z, []); ("b"%char, Some 2%Z, []);
       ("c"%char, Some 3%Z, [])] /\
    exists w',
      main get_geometry log (Some ["a"; "b"; "c"]%char) f (sample_windows 7)
           [KeyPress 97%Z; KeyPress 98%Z] initial_world = Exit 0 w' /\
      stdout w' = [(f, 2%Z)].
Proof.
  intros Hgeo Hd.
  assert (H1 : get_geometry 1%Z <> None) by (apply Hgeo; vm_compute; tauto).
  assert (H2 : get_geometry 2%Z <> None) by (apply Hgeo; vm_compute; tauto).
  assert (H3 : get_geometry 3%Z <> None) by (apply Hgeo; vm_compute; tauto).
  assert (H4 : get_geometry 4%Z <> None) by (apply Hgeo; vm_compute; tauto).
  assert (H5 : get_geometry 5%Z <> None) by (apply Hgeo; vm_compute; tauto).
  assert (H6 : get_geometry 6%Z <> None) by (apply Hgeo; vm_compute; tauto).
  assert (H7 : get_geometry 7%Z <> None) by (apply Hgeo; vm_compute; tauto).
  destruct (get_geometry 1%Z) as [g1|] eqn:E1; [|congruence].
  destruct (get_geometry 2%Z) as [g2|] eqn:E2; [|congruence].
  destruct (get_geometry 3%Z) as [g3|] eqn:E3; [|congruence].
  destruct (get_geometry 4%Z) as [g4|] eqn:E4; [|congruence].
  destruct (get_geometry 5%Z) as [g5|] eqn:E5; [|congruence].
  destruct (get_geometry 6%Z) as [g6|] eqn:E6; [|congruence].
  destruct (get_geometry 7%Z) as [g7|] eqn:E7; [|congruence].
  clear H1 H2 H3 H4 H5 H6 H7 Hgeo.
  pose (table := fun z : Z =>
    nth (Z.to_nat z) [None; Some g1; Some g2; Some g3; Some g4; Some g5;
                      Some g6; Some g7] None).
  assert (Hext : forall x, In x (sample_windows 7) ->
                           get_geometry x = table x).
  { intros x Hx. vm_compute in Hx.
    repeat (destruct Hx as [<-|Hx]; [assumption|]). contradiction. }
  rewrite (initialise_window_tracking_ext get_geometry table log _ _ _ Hext).
  rewrite (main_ext get_geometry table log _ _ _ _ _ Hext).
  unfold main, initialise_window_tracking.
  cbn [parse_args].
  assert (Hp : parse_arg_characters ["a"; "b"; "c"]%char (mk_input [] f)
                 initial_world
               = Ret (mk_input (keys ["a"; "b"; "c"]%char) f) initial_world)
    by (vm_compute; reflexivity).
  rewrite (bind_eq _ Hp). cbn [input].
  change (length (sample_windows 7)) with 7.
  change (ksl_size (mk_input (keys ["a"; "b"; "c"]%char) f)) with 3.
  rewrite Hd. vm_compute.
  eexists _, _, _. repeat (split; [reflexivity|]).
  eexists. split; reflexivity.
Qed.

Lemma seven_windows_three_keys_witness :
  exists w',
    main sample_geometry sample_log (Some ["a"; "b"; "c"]%char) FORMAT_DEC
         (sample_windows 7) [KeyPress 97%Z; KeyPress 98%Z] initial_world
    = Exit 0 w' /\
    stdout w' = [(FORMAT_DEC, 2%Z)].
Proof.
  destruct (seven_windows_three_keys sample_geometry sample_log FORMAT_DEC)
    as [st [w [x [_ [_ [_ [_ [_ [_ [_ H]]]]]]]]]].
  - intros win _. discriminate.
  - vm_compute. reflexivity.
  - exact H.
Defined.

(** * The overlays while the program waits for a key *)

Lemma handles_internal x :
  well_formed x -> children x <> [] ->
  handles x = flat_map handles (children x).
Proof.
  destruct x as [ow fg bg r win c ch]. cbn [well_formed children handles].
  destruct ch as [|y ch]; [congruence|]. intros [Ho _] _.
  cbn [overlay_window] in *. now subst ow.
Qed.

Lemma handles_leaf x :
  well_formed x -> children x = [] -> exists h, handles x = [h].
Proof.
  destruct x as [ow fg bg r win c ch]. cbn [well_formed children handles].
  intros Hwf ->. destruct Hwf as [Ho _]. cbn [overlay_window] in *.
  destruct ow as [h|]; [|congruence]. now exists h.
Qed.

Lemma handles_nonempty : forall x, well_formed x -> handles x <> [].
Proof.
  induction x as [ow fg bg r win c ch IH] using wsetup_ind. intros Hwf.
  destruct ch as [|y ch].
  - destruct (handles_leaf _ Hwf eq_refl) as [h ->]. discriminate.
  - rewrite (handles_internal _ Hwf) by discriminate.
    cbn [children flat_map]. inversion IH as [|? ? Hy _]; subst.
    pose proof (well_formed_children _ Hwf) as Hall.
    inversion Hall; subst. intros E. apply app_eq_nil in E.
    destruct E as [E _]. revert E. now apply Hy.
Qed.

Lemma frontier_handles_nonempty ws :
  Forall well_formed ws -> ws <> [] -> 1 <= length (flat_map handles ws).
Proof.
  intros Hwf Hne. destruct ws as [|x ws]; [congruence|].
  inversion Hwf; subst. cbn [flat_map]. rewrite length_app.
  pose proof (handles_nonempty x H1).
  destruct (handles x); [congruence | simpl; lia].
Qed.

Lemma find_index_Some c : forall ws i j,
  find_index c i ws = Some j ->
  exists before x after,
    ws = before ++ x :: after /\
    Forall (fun y => character y <> c) before /\
    character x = c.
Proof.
  induction ws as [|y ws IH]; intros i j H; cbn [find_index] in H;
    [discriminate|].
  destruct (Ascii.eqb_spec (character y) c) as [E|E].
  - exists [], y, ws. repeat split; [constructor | exact E].
  - apply IH in H. destruct H as [before [x [after [-> [Hb Hx]]]]].
    exists (y :: before), x, after. repeat split; [|exact Hx].
    now constructor.
Qed.

Lemma tracking_invariant_same st w st' w' :
  tracking_invariant st w ->
  map forget_gcs (wsetups st') = map forget_gcs (wsetups st) ->
  same_windows w w' ->
  tracking_invariant st' w'.
Proof.
  intros [Hwf [Hne [Hnd [Hlive Hlen]]]] Ef [Hc [Hd _]].
  assert (Eh : flat_map handles (wsetups st')
               = flat_map handles (wsetups st))
    by (apply flat_map_forget; [apply forget_gcs_handles | exact Ef]).
  unfold tracking_invariant, live. rewrite Eh, Hc, Hd.
  split; [|split; [|auto]].
  - apply Forall_forall. intros x' Hx'.
    apply (in_map forget_gcs) in Hx'. rewrite Ef in Hx'.
    apply in_map_iff in Hx'. destruct Hx' as [x [E Hx]].
    rewrite Forall_forall in Hwf. apply Hwf in Hx.
    apply forget_gcs_well_formed. rewrite <- E.
    now apply forget_gcs_well_formed.
  - intros E. rewrite E in Ef. destruct (wsetups st); [congruence|].
    discriminate.
Qed.

Lemma NoDup_app_disjoint {A} (l1 l2 : list A) :
  NoDup (l1 ++ l2) -> forall a, In a l1 -> ~ In a l2.
Proof.
  induction l1 as [|b l1 IH]; intros H a Ha; [contradiction|].
  cbn [app] in H. inversion H; subst. destruct Ha as [->|Ha].
  - intros F. match goal with N : ~ In _ _ |- _ => apply N end.
    apply in_or_app. now right.
  - now apply IH.
Qed.

(** Descending into the children of one structure of the array, with the
    overlays of all the others destroyed. *)
Lemma tracking_invariant_descend st w before x after st' w' :
  tracking_invariant st w ->
  wsetups st = before ++ x :: after ->
  children x <> [] ->
  map forget_gcs (wsetups st') = map forget_gcs (children x) ->
  released w (flat_map handles before ++ flat_map handles after) w' ->
  tracking_invariant st' w'.
Proof.
  intros [Hwf [Hne [Hnd [Hlive Hlen]]]] Hws Hch Ef [Hc [Hd _]].
  rewrite Hws in *. rewrite flat_map_app in *. cbn [flat_map] in *.
  assert (Hx : well_formed x).
  { rewrite Forall_forall in Hwf. apply Hwf. apply in_or_app.
    right. now left. }
  rewrite (handles_internal x Hx Hch) in *.
  set (hb := flat_map handles before) in *.
  set (ha := flat_map handles after) in *.
  set (hx := flat_map handles (children x)) in *.
  assert (Eh : flat_map handles (wsetups st') = hx)
    by (apply flat_map_forget; [apply forget_gcs_handles | exact Ef]).
  unfold tracking_invariant, live in *. rewrite Eh, Hc, Hd.
  split; [|split; [|split; [|split]]].
  - apply Forall_forall. intros x' Hx'.
    apply (in_map forget_gcs) in Hx'. rewrite Ef in Hx'.
    apply in_map_iff in Hx'. destruct Hx' as [y [E Hy]].
    pose proof (well_formed_children x Hx) as Hall.
    rewrite Forall_forall in Hall. apply Hall in Hy.
    apply forget_gcs_well_formed. rewrite <- E.
    now apply forget_gcs_well_formed.
  - intros E. rewrite E in Ef. destruct (children x); [congruence|].
    discriminate.
  - apply NoDup_app_remove_l in Hnd. now apply NoDup_app_remove_r in Hnd.
  - intros h. rewrite !in_app_iff. specialize (Hlive h).
    rewrite !in_app_iff in Hlive.
    assert (Hsep : In h hx -> ~ In h hb /\ ~ In h ha).
    { intros Hh. split; intros F.
      - apply (NoDup_app_disjoint _ _ Hnd h F). apply in_or_app. now left.
      - apply NoDup_app_remove_l in Hnd.
        now apply (NoDup_app_disjoint _ _ Hnd h Hh). }
    tauto.
  - rewrite !length_app in *. lia.
Qed.

Lemma invariant_overlays_left st w : tracking_invariant st w -> overlays_left w.
Proof.
  intros [Hwf [Hne [_ [_ Hlen]]]]. unfold overlays_left.
  pose proof (frontier_handles_nonempty _ Hwf Hne). lia.
Qed.

Lemma wsetups_descend_by_char_outcome st c w :
  tracking_invariant st w ->
  waiting_or_exited (wsetups_descend_by_char st c w).
Proof.
  intros Hinv.
  destruct (find_index c 0 (wsetups st)) as [j|] eqn:Ej.
  - apply find_index_Some in Ej.
    destruct Ej as [before [x [after [Hws [Hb Hx]]]]].
    assert (Hwf : well_formed x).
    { destruct Hinv as [Hwf _]. rewrite Forall_forall in Hwf. apply Hwf.
      rewrite Hws. apply in_or_app. right. now left. }
    destruct (descend_to_choice st c w before x after Hws Hb Hx)
      as [w1 [Hw1 ->]].
    destruct (children x) as [|y ch] eqn:Ech.
    + destruct (wsetup_choose_leaf st x w1 Hwf Ech) as [win [_ H]].
      unfold bind. rewrite H. cbn [waiting_or_exited].
      unfold overlays_left. cbn [requests].
      destruct Hinv as [_ [_ [_ [_ Hlen]]]].
      rewrite Hws, flat_map_app in Hlen. cbn [flat_map] in Hlen.
      destruct (handles_leaf x Hwf Ech) as [h Eh].
      rewrite Eh, !length_app in Hlen. cbn [length] in Hlen.
      destruct Hw1 as [Hc [Hd _]]. rewrite Hc, Hd, length_app. lia.
    + destruct (wsetup_choose_internal st x w1 Hwf)
        as [st' [w2 [H [_ [Ef Hw2]]]]]; [rewrite Ech; discriminate|].
      rewrite (bind_eq _ H).
      destruct (descend_from_after st' (length before) after
                  (S (length before)) w2) as [w3 [-> Hw3]]; [lia|].
      cbn [waiting_or_exited].
      apply (tracking_invariant_descend st w before x after st' w3 Hinv Hws);
        [rewrite Ech; discriminate | exact Ef |].
      eapply released_trans; [|exact Hw3].
      eapply released_same; eassumption.
  - unfold wsetups_descend_by_char. rewrite Ej.
    exact (invariant_overlays_left st w Hinv).
Qed.

Lemma overlays_set_text_outcome st w :
  tracking_invariant st w -> waiting_or_exited (overlays_set_text st w).
Proof.
  intros Hinv.
  destruct (overlays_set_text_Ret st w) as [st' [w' [H [_ [Ef Hw]]]]];
    [apply Hinv|].
  rewrite H. now apply (tracking_invariant_same st w).
Qed.

Lemma event_loop_outcome : forall events st w,
  tracking_invariant st w -> waiting_or_exited (event_loop st events w).
Proof.
  induction events as [|event rest IH]; intros st w Hinv; [exact Hinv|].
  cbn [event_loop]. unfold bind.
  assert (Hstep : waiting_or_exited
            (match event with
             | Error _ => xcw_die
             | Expose => overlays_set_text st
             | KeyPress ksym => handle_keypress st ksym
             | OtherEvent => ret st
             end w)).
  { destruct event as [code| |ksym|].
    - exact (invariant_overlays_left st w Hinv).
    - now apply overlays_set_text_outcome.
    - unfold handle_keypress.
      destruct (keysyms_lookup_find_keysym (ksl (input st)) ksym).
      + now apply wsetups_descend_by_char_outcome.
      + exact (invariant_overlays_left st w Hinv).
    - exact Hinv. }
  destruct (match event with
            | Error _ => xcw_die
            | Expose => overlays_set_text st
            | KeyPress ksym => handle_keypress st ksym
            | OtherEvent => ret st
            end w) as [st' w'|code w'|]; [|exact Hstep|exact Hstep].
  now apply IH.
Qed.

(** When the builder ends the process, nothing was destroyed. *)
Lemma initialise_window_setup_Exit gg state win c w code w' :
  initialise_window_setup gg state win c w = Exit code w' -> w' = w.
Proof.
  unfold initialise_window_setup. destruct (gg win); [discriminate|].
  intros H. now inversion H.
Qed.

Lemma ksl_char_Exit state i w code w' : ksl_char state i w <> Exit code w'.
Proof.
  unfold ksl_char. destruct (nth_error (ksl (input state)) i); discriminate.
Qed.

Lemma tracking_leaves_Exit gg state : forall windows i w code w',
  tracking_leaves gg state i windows w = Exit code w' ->
  destroyed (requests w') = destroyed (requests w).
Proof.
  induction windows as [|win rest IH]; intros i w code w' H;
    cbn [tracking_leaves] in H; [discriminate|].
  apply bind_Exit in H. destruct H as [H | [c [w1 [Hc H]]]].
  { now apply ksl_char_Exit in H. }
  apply ksl_char_Ret in Hc. destruct Hc as [-> _].
  apply bind_Exit in H. destruct H as [H | [x [w2 [Hx H]]]].
  { apply initialise_window_setup_Exit in H. now subst. }
  apply initialise_window_setup_Ret in Hx. destruct Hx as [_ [_ [_ [Hd _]]]].
  apply bind_Exit in H. destruct H as [H | [ws [w3 [_ H]]]]; [|discriminate].
  apply IH in H. congruence.
Qed.

Lemma tracking_groups_Exit gg descend state p r :
  (forall g w ws w1, descend g w = Ret ws w1 ->
                     destroyed (requests w1) = destroyed (requests w)) ->
  (forall g w code w1, descend g w = Exit code w1 ->
                       destroyed (requests w1) = destroyed (requests w)) ->
  forall todo i remain w code w',
    tracking_groups gg descend state p r todo i remain w = Exit code w' ->
    destroyed (requests w') = destroyed (requests w).
Proof.
  intros HRet HExit.
  induction todo as [|todo IH]; intros i remain w code w' H;
    cbn [tracking_groups] in H; [discriminate|].
  set (size := if i <? r then p + 1 else p) in *.
  apply bind_Exit in H. destruct H as [H | [x [w1 [Hx H]]]].
  - destruct (size =? 1).
    + destruct remain as [|win rest]; [discriminate|].
      apply bind_Exit in H. destruct H as [H | [c [w1 [Hc H]]]].
      { now apply ksl_char_Exit in H. }
      apply ksl_char_Ret in Hc. destruct Hc as [-> _].
      apply initialise_window_setup_Exit in H. now subst.
    + apply bind_Exit in H. destruct H as [H | [chn [w1 [Hchn H]]]].
      { now apply HExit in H. }
      apply bind_Exit in H. destruct H as [H | [c [w2 [_ H]]]];
        [now apply ksl_char_Exit in H | discriminate].
  - assert (Hd : destroyed (requests w1) = destroyed (requests w)).
    { destruct (size =? 1).
      - destruct remain as [|win rest]; [discriminate|].
        bind_ret Hx as c w2 Hc.
        apply ksl_char_Ret in Hc. destruct Hc as [-> _].
        apply initialise_window_setup_Ret in Hx. tauto.
      - bind_ret Hx as chn w2 Hchn.
        bind_ret Hx as c w3 Hc.
        apply ksl_char_Ret in Hc. destruct Hc as [-> _].
        inversion Hx; subst. now apply HRet in Hchn. }
    apply bind_Exit in H. destruct H as [H | [ws [w2 [_ H]]]];
      [|discriminate].
    apply IH in H. congruence.
Qed.

Lemma _initialise_window_tracking_Exit gg state :
  forall depth windows w code w',
    _initialise_window_tracking gg state depth windows w = Exit code w' ->
    destroyed (requests w') = destroyed (requests w).
Proof.
  induction depth as [|depth IH]; intros windows w code w' H.
  - now apply tracking_leaves_Exit in H.
  - cbn [_initialise_window_tracking] in H.
    destruct (ksl_size (input state)); [discriminate|].
    apply tracking_groups_Exit in H; [exact H | | exact (IH)].
    intros g w0 ws w1 H0.
    apply _initialise_window_tracking_built in H0. now destruct H0 as [[] _].
Qed.

Lemma parse_args_Exit characters f w code w' :
  parse_args characters f w = Exit code w' -> w' = w.
Proof.
  unfold parse_args, parse_arg_characters.
  destruct characters as [char_pool|].
  - unfold bind. rewrite parse_characters_eq.
    destruct (forallb known char_pool).
    + destruct (_ <? 2); intros H; now inversion H.
    + intros H. now inversion H.
  - intros H. now inversion H.
Qed.

(** After the builder, started with no request sent. *)
Lemma built_invariant cs depth windows next st w :
  built cs depth windows (mk_world next [] []) (wsetups st) w ->
  wsetups st <> [] ->
  tracking_invariant st w.
Proof.
  intros [_ Hh _ Hc Hd _ Hwf _ _] Hne. cbn [next_id requests created
    destroyed app] in *.
  unfold tracking_invariant, live. rewrite Hh, Hc, Hd.
  split; [exact Hwf|]. split; [exact Hne|].
  split; [apply NoDup_ids|]. split; [|reflexivity].
  intros h. simpl. tauto.
Qed.

Lemma waiting_or_exited_weaken o :
  waiting_or_exited o ->
  match o with
  | Ret st w => tracking_invariant st w
  | Exit _ w => exited_with_overlays w
  | Undef => True
  end.
Proof.
  destruct o as [st w|code w|]; cbn [waiting_or_exited]; [auto| |auto].
  unfold exited_with_overlays, overlays_left. intros H. split; [lia|auto].
Qed.

Lemma nothing_destroyed_exit w :
  destroyed (requests w) = [] -> exited_with_overlays w.
Proof.
  unfold exited_with_overlays, overlays_left. intros ->. simpl.
  split; [lia|]. destruct (created (requests w)); [congruence|simpl; lia].
Qed.

Lemma main_outcome get_geometry log characters f windows events next :
  match main get_geometry log characters f windows events
             (mk_world next [] []) with
  | Ret st w => tracking_invariant st w
  | Exit _ w => exited_with_overlays w
  | Undef => True
  end.
Proof.
  set (w0 := mk_world next [] []).
  unfold main. unfold bind at 1.
  destruct (parse_args characters f w0) as [parsed w1|code w1|] eqn:Hp;
    [| |exact I].
  2:{ apply parse_args_Exit in Hp. subst w1.
      now apply nothing_destroyed_exit. }
  apply parse_args_Ret in Hp. destruct Hp as [-> _].
  unfold bind at 1.
  destruct (initialise_window_tracking get_geometry log
              (mk_state parsed []) windows w0)
    as [st w2|code w2|] eqn:Hb; [| |exact I].
  2:{ unfold initialise_window_tracking in Hb.
      destruct (tracking_depth log _ _); [|discriminate].
      apply bind_Exit in Hb. destruct Hb as [Hb | [ws [w3 [_ Hb]]]];
        [|discriminate].
      apply _initialise_window_tracking_Exit in Hb.
      now apply nothing_destroyed_exit. }
  apply initialise_window_tracking_Ret in Hb.
  destruct Hb as [depth [_ [_ Hb]]].
  apply _initialise_window_tracking_built in Hb. destruct Hb as [Hb _].
  assert (Hd : destroyed (requests w2) = []) by now destruct Hb.
  assert (Hinv : wsetups st <> [] -> tracking_invariant st w2)
    by (apply (built_invariant _ _ _ _ _ _ Hb)).
  unfold bind, start.
  destruct (wsetups st) as [|x [|y l]] eqn:Ews.
  - now apply nothing_destroyed_exit.
  - specialize (Hinv ltac:(discriminate)).
    assert (Hwf : well_formed x).
    { destruct Hinv as [Hwf _]. rewrite Ews in Hwf. now inversion Hwf. }
    destruct (children x) as [|y ch] eqn:Ech.
    + destruct (wsetup_choose_leaf st x w2 Hwf Ech) as [win [_ ->]].
      now apply nothing_destroyed_exit.
    + destruct (wsetup_choose_internal st x w2 Hwf)
        as [st' [w3 [-> [_ [Ef Hw]]]]]; [rewrite Ech; discriminate|].
      apply waiting_or_exited_weaken, event_loop_outcome.
      apply (tracking_invariant_descend st w2 [] x [] st' w3 Hinv Ews);
        [rewrite Ech; discriminate | exact Ef |].
      destruct Hw as [Hc [Hd' Hs]]. repeat split; try assumption.
      simpl. now rewrite app_nil_r.
  - specialize (Hinv ltac:(discriminate)).
    pose proof (overlays_set_text_outcome st w2 Hinv) as Hstart.
    destruct (overlays_set_text st w2) as [st' w3|code w3|];
      cbn [waiting_or_exited] in Hstart.
    + now apply waiting_or_exited_weaken, event_loop_outcome.
    + now apply (waiting_or_exited_weaken (Exit code w3)).
    + contradiction.
Qed.

(** C4, amended.  While the program waits for a key, the live overlay
    windows are exactly those held at or below the current array: one for
    every structure without children, that is for every window that can
    still be chosen, and none for a structure with children.  When the
    process has exited, no more overlay windows were destroyed than created,
    and fewer whenever one was created. *)
Theorem live_overlays_while_waiting
    get_geometry log characters f windows events next :
  (forall st w,
      main get_geometry log characters f windows events
           (mk_world next [] []) = Ret st w ->
      Forall well_formed (wsetups st) /\
      NoDup (flat_map handles (wsetups st)) /\
      forall h, live w h <-> In h (flat_map handles (wsetups st))) /\
  (forall code w,
      main get_geometry log characters f windows events
           (mk_world next [] []) = Exit code w ->
      length (destroyed (requests w)) <= length (created (requests w)) /\
      (created (requests w) <> [] ->
       length (destroyed (requests w)) < length (created (requests w)))).
Proof.
  pose proof (main_outcome get_geometry log characters f windows events next)
    as H.
  split.
  - intros st w E. rewrite E in H. destruct H as [? [_ [? [? _]]]]. auto.
  - intros code w E. rewrite E in H. exact H.
Qed.

Lemma live_overlays_while_waiting_witness :
  exists st w,
    main sample_geometry sample_log (Some ["a"; "b"]%char) FORMAT_DEC
         (sample_windows 3) [KeyPress 97%Z] (mk_world 100 [] []) = Ret st w /\
    created (requests w) = [100; 101; 102]%Z /\
    destroyed (requests w) = [102]%Z /\
    forall h, live w h <-> In h [100; 101]%Z.
Proof.
  pose proof (live_overlays_while_waiting sample_geometry sample_log
                (Some ["a"; "b"]%char) FORMAT_DEC (sample_windows 3)
                [KeyPress 97%Z] 100%Z) as [Hret _].
  remember (main sample_geometry sample_log (Some ["a"; "b"]%char)
                 FORMAT_DEC (sample_windows 3) [KeyPress 97%Z]
                 (mk_world 100 [] [])) as o eqn:Eo.
  vm_compute in Eo. subst o.
  eexists _, _. split; [reflexivity|].
  split; [reflexivity|]. split; [reflexivity|].
  intros h. exact (proj2 (proj2 (Hret _ _ eq_refl)) h).
Defined.

(** Three windows under the keys a and b.  While the program waits for the
    first key the structure under a has children and holds no overlay, and
    the overlays of windows 1 and 2, which are live, are held below the
    current array; and after the key b, which chooses window 3, the process
    has exited with three overlay windows created and two destroyed. *)
Lemma overlays_are_held_by_the_leaves :
  ~ frontier_holds_the_overlays
      (state_of (sample_run ["a"; "b"]%char 3 []))
      (world_of (sample_run ["a"; "b"]%char 3 [])) /\
  length (destroyed (requests (world_of
            (sample_run ["a"; "b"]%char 3 [KeyPress 98%Z])))) <>
  length (created (requests (world_of
            (sample_run ["a"; "b"]%char 3 [KeyPress 98%Z])))).
Proof.
  split.
  - intros [H _].
    destruct (H (nth 0 (wsetups (state_of (sample_run ["a"; "b"]%char 3 [])))
                    (mk_wsetup None None None None None "a" [])))
      as [h [Hh _]].
    + vm_compute. now left.
    + vm_compute in Hh. discriminate.
  - vm_compute. discriminate.
Qed.

(** * The keys of the input *)

Lemma table_characters_NoDup : NoDup (map ksl_character ALL_KEYSYMS_LOOKUP).
Proof.
  apply (NoDup_map_inv (fun c => Z.of_N (N_of_ascii c))).
  rewrite map_map. cbv -[Z.lt].
  repeat (constructor;
          [cbn [In]; intros H;
           repeat (destruct H as [H|H]; [discriminate H|]); exact H|]).
  constructor.
Qed.

Lemma table_keysyms_NoDup : NoDup (map ksl_keysym ALL_KEYSYMS_LOOKUP).
Proof.
  cbv -[Z.lt].
  repeat (constructor;
          [cbn [In]; intros H;
           repeat (destruct H as [H|H]; [discriminate H|]); exact H|]).
  constructor.
Qed.

Lemma table_keysym_code :
  Forall (fun k => ksl_keysym k = Z.of_N (N_of_ascii (ksl_character k)))
         ALL_KEYSYMS_LOOKUP.
Proof. repeat constructor. Qed.

Lemma NoDup_map_eq {A B} (f : A -> B) (l : list A) a b :
  NoDup (map f l) -> In a l -> In b l -> f a = f b -> a = b.
Proof.
  induction l as [|x l IH]; cbn [map In]; [contradiction|].
  intros Hnd Ha Hb E. inversion Hnd as [|? ? Hx Hl]; subst.
  destruct Ha as [->|Ha], Hb as [->|Hb].
  - reflexivity.
  - exfalso. apply Hx. rewrite E. now apply in_map.
  - exfalso. apply Hx. rewrite <- E. now apply in_map.
  - now apply IH.
Qed.

Lemma find_char_In l c k :
  keysyms_lookup_find_char l c = Some k -> In k l.
Proof.
  induction l as [|k' l IH]; cbn [keysyms_lookup_find_char]; [discriminate|].
  destruct (Ascii.eqb (ksl_character k') c).
  - intros H. inversion H. now left.
  - intros H. right. now apply IH.
Qed.

Lemma find_char_first l k :
  NoDup (map ksl_character l) -> In k l ->
  keysyms_lookup_find_char l (ksl_character k) = Some k.
Proof.
  intros Hnd Hin.
  destruct (keysyms_lookup_find_char l (ksl_character k)) as [k'|] eqn:E.
  - f_equal. apply (NoDup_map_eq ksl_character l); auto.
    + eapply find_char_In; eassumption.
    + eapply find_char_Some; eassumption.
  - apply find_char_None in E.
    assert (X : existsb (Ascii.eqb (ksl_character k)) (map ksl_character l)
                = true).
    { apply existsb_exists. exists (ksl_character k).
      split; [now apply in_map | apply Ascii.eqb_refl]. }
    congruence.
Qed.

Lemma find_keysym_Some l ksym k :
  keysyms_lookup_find_keysym l ksym = Some k -> In k l /\ ksl_keysym k = ksym.
Proof.
  induction l as [|k' l IH]; cbn [keysyms_lookup_find_keysym];
    [discriminate|].
  destruct (Z.eqb_spec (ksl_keysym k') ksym) as [E|E].
  - intros H. inversion H; subst. split; [now left | reflexivity].
  - intros H. destruct (IH H) as [Hin Hk]. split; [now right | exact Hk].
Qed.

Lemma find_keysym_None l ksym :
  keysyms_lookup_find_keysym l ksym = None <->
  Forall (fun k => ksl_keysym k <> ksym) l.
Proof.
  induction l as [|k' l IH]; cbn [keysyms_lookup_find_keysym].
  - split; [constructor | reflexivity].
  - destruct (Z.eqb_spec (ksl_keysym k') ksym) as [E|E].
    + split; [discriminate|]. intros H. inversion H; subst. contradiction.
    + rewrite IH. split.
      * intros H. now constructor.
      * intros H. now inversion H.
Qed.

Lemma find_keysym_first l k :
  NoDup (map ksl_keysym l) -> In k l ->
  keysyms_lookup_find_keysym l (ksl_keysym k) = Some k.
Proof.
  intros Hnd Hin.
  destruct (keysyms_lookup_find_keysym l (ksl_keysym k)) as [k'|] eqn:E.
  - apply find_keysym_Some in E. destruct E as [Hin' E]. f_equal.
    now apply (NoDup_map_eq ksl_keysym l).
  - apply find_keysym_None in E. rewrite Forall_forall in E.
    now destruct (E k Hin).
Qed.

(** Keys taken from the table with different characters have different
    keysyms. *)
Lemma table_keys_keysyms_NoDup l :
  Forall (fun k => In k ALL_KEYSYMS_LOOKUP) l ->
  NoDup (map ksl_character l) ->
  NoDup (map ksl_keysym l).
Proof.
  induction l as [|k l IH]; cbn [map]; intros Hin Hnd; [constructor|].
  inversion Hin as [|? ? Hk Hl]; subst.
  inversion Hnd as [|? ? Hx Hnd']; subst.
  constructor; [|now apply IH].
  intros H. apply in_map_iff in H. destruct H as [k' [E Hk']].
  apply Hx. rewrite Forall_forall in Hl.
  assert (k' = k) as <-.
  { apply (NoDup_map_eq ksl_keysym ALL_KEYSYMS_LOOKUP); auto.
    apply table_keysyms_NoDup. }
  now apply in_map.
Qed.

Lemma lookup_known_In c : known c = true -> In (lookup c) ALL_KEYSYMS_LOOKUP.
Proof.
  unfold known, lookup.
  destruct (keysyms_lookup_find_char ALL_KEYSYMS_LOOKUP c) as [k|] eqn:E;
    [|discriminate].
  intros _. eapply find_char_In; eassumption.
Qed.

Lemma lookup_table_key k :
  In k ALL_KEYSYMS_LOOKUP -> lookup (ksl_character k) = k.
Proof.
  intros H. unfold lookup.
  now rewrite (find_char_first _ _ table_characters_NoDup H).
Qed.

(** What [parse_arg_characters] returns: the entries of the table for the
    characters of the argument, each at its first occurrence. *)
Lemma parse_arg_characters_Ret char_pool input w input' w' :
  parse_arg_characters char_pool input w = Ret input' w' ->
  w' = w /\
  format input' = format input /\
  forallb known char_pool = true /\
  ksl input' = map lookup (distinct_from [] char_pool) /\
  2 <= length (ksl input').
Proof.
  unfold parse_arg_characters, bind. rewrite parse_characters_eq.
  destruct (forallb known char_pool) eqn:Hk; [|discriminate].
  cbn [app map].
  destruct (Nat.ltb_spec (length (map lookup (distinct_from [] char_pool))) 2)
    as [Hlt|Hge]; [discriminate|].
  intros H. inversion H; subst. cbn [ksl format]. auto.
Qed.

Lemma parse_arg_characters_outcome char_pool input w :
  match parse_arg_characters char_pool input w with
  | Ret _ w' => w' = w
  | Exit code w' => code = EX_USAGE /\ w' = w
  | Undef => False
  end.
Proof.
  unfold parse_arg_characters, bind. rewrite parse_characters_eq.
  destruct (forallb known char_pool); [|cbn; auto].
  cbn [app]. destruct (_ <? 2); cbn; auto.
Qed.

Lemma parsed_keys char_pool :
  forallb known char_pool = true ->
  Forall (fun k => In k ALL_KEYSYMS_LOOKUP)
         (map lookup (distinct_from [] char_pool)) /\
  map ksl_character (map lookup (distinct_from [] char_pool)) =
    distinct_from [] char_pool /\
  NoDup (distinct_from [] char_pool).
Proof.
  intros Hk. destruct (distinct_from_spec char_pool []) as [Hnd Hin].
  split; [|split; [|exact Hnd]].
  - apply Forall_forall. intros k Hkin. apply in_map_iff in Hkin.
    destruct Hkin as [c [<- Hc]]. apply lookup_known_In.
    rewrite forallb_forall in Hk. apply Hk. now apply Hin.
  - rewrite map_map. rewrite <- (map_id (distinct_from [] char_pool)) at 2.
    apply map_ext. intros c. apply lookup_character.
Qed.

(** X1.  The keys that [parse_arg_characters] returns are at most 36, each
    is the key of a character of the argument and has the character code as
    its keysym, and each is found again in the result both by its character
    ([keysyms_lookup_find_char]) and by its keysym
    ([keysyms_lookup_find_keysym]). *)
Theorem parsed_keys_are_found_again char_pool input w input' w' :
  parse_arg_characters char_pool input w = Ret input' w' ->
  length (ksl input') <= 36 /\
  forall k, In k (ksl input') ->
    In (ksl_character k) char_pool /\
    ksl_keysym k = Z.of_N (N_of_ascii (ksl_character k)) /\
    keysyms_lookup_find_char (ksl input') (ksl_character k) = Some k /\
    keysyms_lookup_find_keysym (ksl input') (ksl_keysym k) = Some k.
Proof.
  intros H. apply parse_arg_characters_Ret in H.
  destruct H as [_ [_ [Hk [-> _]]]].
  destruct (parsed_keys char_pool Hk) as [Htab [Hchars Hnd]].
  assert (Hndc : NoDup (map ksl_character
                          (map lookup (distinct_from [] char_pool))))
    by now rewrite Hchars.
  split.
  - change 36 with (length ALL_KEYSYMS_LOOKUP). apply NoDup_incl_length.
    + eapply NoDup_map_inv. exact Hndc.
    + intros k Hin. rewrite Forall_forall in Htab. now apply Htab.
  - intros k Hin. repeat split.
    + apply (in_map ksl_character) in Hin. rewrite Hchars in Hin.
      now apply (distinct_from_spec char_pool []).
    + pose proof table_keysym_code as Hcode. rewrite Forall_forall in Hcode.
      rewrite Forall_forall in Htab. auto.
    + now apply find_char_first.
    + apply find_keysym_first; [|exact Hin].
      now apply table_keys_keysyms_NoDup.
Qed.

Lemma parsed_keys_are_found_again_witness :
  exists k,
    keysyms_lookup_find_char
      (keys ["a"; "b"]%char) "b"%char = Some k /\
    keysyms_lookup_find_keysym (keys ["a"; "b"]%char) 98%Z = Some k.
Proof.
  destruct (parsed_keys_are_found_again ["a"; "a"; "b"]%char
              (mk_input [] FORMAT_DEC) initial_world
              (mk_input (keys ["a"; "b"]%char) FORMAT_DEC) initial_world
              eq_refl) as [_ H].
  exists (mk_ksl "b"%char 98%Z).
  destruct (H (mk_ksl "b"%char 98%Z)) as [_ [_ [Hc Hs]]].
  - right. now left.
  - split; [exact Hc | exact Hs].
Defined.

(** * Typing the labels *)

Lemma Forall_forget (P : window_setup_t -> Prop) ws ws' :
  (forall x, P (forget_gcs x) <-> P x) ->
  map forget_gcs ws' = map forget_gcs ws ->
  Forall P ws -> Forall P ws'.
Proof.
  intros HP Ef H. apply Forall_forall. intros x' Hx'.
  apply (in_map forget_gcs) in Hx'. rewrite Ef in Hx'.
  apply in_map_iff in Hx'. destruct Hx' as [x [E Hx]].
  rewrite Forall_forall in H. apply H in Hx.
  apply HP. rewrite <- E. now apply HP.
Qed.

Lemma forget_gcs_character x : character (forget_gcs x) = character x.
Proof. now destruct x. Qed.

Lemma forget_gcs_labels : forall x, labels (forget_gcs x) = labels x.
Proof.
  induction x as [ow fg bg r win c ch IH] using wsetup_ind.
  cbn [forget_gcs labels window character children]. do 2 f_equal.
  induction IH as [|y ch Hy _ IH]; [reflexivity|].
  cbn [map flat_map]. now rewrite Hy, IH.
Qed.

Lemma forget_gcs_labelled cs :
  forall x, labelled cs (forget_gcs x) <-> labelled cs x.
Proof.
  induction x as [ow fg bg r win c ch IH] using wsetup_ind.
  cbn [forget_gcs labelled children].
  rewrite map_map, length_map.
  rewrite (map_ext (fun y => character (forget_gcs y)) character
             forget_gcs_character).
  assert (E : All (labelled cs) (map forget_gcs ch) <->
              All (labelled cs) ch).
  { clear - IH. induction IH as [|z ch Hz _ IH]; [reflexivity|].
    cbn [map All]. now rewrite Hz, IH. }
  now rewrite E.
Qed.

Lemma selectable_same st st' :
  selectable st ->
  input st' = input st ->
  map forget_gcs (wsetups st') = map forget_gcs (wsetups st) ->
  selectable st'.
Proof.
  intros [Hwf [Htab [Hnd [Hch Hlab]]]] Ei Ef.
  unfold selectable, characters_of in *. rewrite Ei.
  split; [|split; [exact Htab|split; [exact Hnd|split]]].
  - exact (Forall_forget _ _ _ forget_gcs_well_formed Ef Hwf).
  - rewrite (map_forget character _ _ forget_gcs_character Ef).
    rewrite <- (length_map forget_gcs (wsetups st')), Ef, length_map.
    exact Hch.
  - exact (Forall_forget _ _ _ (forget_gcs_labelled _) Ef Hlab).
Qed.

Lemma selectable_children st x st' :
  selectable st ->
  In x (wsetups st) ->
  input st' = input st ->
  map forget_gcs (wsetups st') = map forget_gcs (children x) ->
  selectable st'.
Proof.
  intros [Hwf [Htab [Hnd [Hch Hlab]]]] Hx Ei Ef.
  rewrite Forall_forall in Hwf, Hlab.
  pose proof (well_formed_children _ (Hwf x Hx)) as Hwfc.
  pose proof (Hlab x Hx) as Hlx.
  destruct x as [ow fg bg r win c ch]. cbn [labelled children] in *.
  destruct Hlx as [Hcc Hlc]. apply All_Forall in Hlc.
  apply (selectable_same (mk_state (input st) ch)); [|exact Ei|exact Ef].
  unfold selectable, characters_of. cbn [wsetups input]. auto.
Qed.

Lemma labels_leaf x :
  well_formed x -> children x = [] ->
  exists win, window x = Some win /\ labels x = [([character x], win)].
Proof.
  destruct x as [ow fg bg r win c ch]. cbn [well_formed children].
  intros Hwf ->. destruct Hwf as [_ [_ Hwin]]. cbn [window] in Hwin.
  destruct win as [win|]; [|congruence]. now exists win.
Qed.

Lemma labels_internal x :
  well_formed x -> children x <> [] ->
  labels x = map (fun l => (character x :: fst l, snd l))
                 (flat_map labels (children x)).
Proof.
  destruct x as [ow fg bg r win c ch]. cbn [well_formed children].
  destruct ch as [|y ch]; [congruence|]. intros [_ [Hwin _]] _.
  cbn [window] in Hwin. subst win. reflexivity.
Qed.

Lemma labels_head x l :
  In l (labels x) -> exists t, fst l = character x :: t.
Proof.
  destruct x as [ow fg bg r win c ch]. cbn [labels window character children].
  intros H. apply in_app_or in H. destruct H as [H|H];
    apply in_map_iff in H; destruct H as [y [<- _]]; cbn [fst]; eauto.
Qed.

Lemma labels_exist : forall x, well_formed x -> labels x <> [].
Proof.
  induction x as [ow fg bg r win c ch IH] using wsetup_ind.
  intros Hwf. destruct ch as [|y ch].
  - destruct (labels_leaf _ Hwf eq_refl) as [w [_ ->]]. discriminate.
  - rewrite (labels_internal _ Hwf) by discriminate.
    cbn [children flat_map].
    pose proof (well_formed_children _ Hwf) as Hc. cbn [children] in Hc.
    inversion Hc as [|? ? Hy _]; subst. inversion IH as [|? ? IHy _]; subst.
    specialize (IHy Hy). destruct (labels y); [congruence|discriminate].
Qed.

Lemma in_after_key c t win ls :
  In (t, win) (after_key c ls) <-> In (c :: t, win) ls.
Proof.
  unfold after_key. rewrite in_flat_map. split.
  - intros [[p win'] [Hin H]]. cbn [fst snd] in H.
    destruct p as [|c' r]; [contradiction|].
    destruct (Ascii.eqb_spec c' c) as [->|]; [|contradiction].
    destruct H as [H|[]]. now inversion H; subst.
  - intros H. exists (c :: t, win). split; [exact H|].
    cbn [fst snd]. rewrite Ascii.eqb_refl. now left.
Qed.


Lemma after_key_app c l1 l2 :
  after_key c (l1 ++ l2) = after_key c l1 ++ after_key c l2.
Proof. apply flat_map_app. Qed.

Lemma after_key_other c x :
  character x <> c -> after_key c (labels x) = [].
Proof.
  intros Hc. destruct (after_key c (labels x)) as [|[t win] l] eqn:E;
    [reflexivity|].
  assert (H : In (t, win) (after_key c (labels x))) by (rewrite E; now left).
  apply in_after_key in H. apply labels_head in H. destruct H as [t' H].
  cbn [fst] in H. congruence.
Qed.

Lemma after_key_others c ws :
  Forall (fun y => character y <> c) ws ->
  after_key c (flat_map labels ws) = [].
Proof.
  induction 1 as [|x ws Hx _ IH]; [reflexivity|].
  cbn [flat_map]. now rewrite after_key_app, IH, after_key_other.
Qed.

Lemma after_key_map_cons c ls :
  after_key c (map (fun l => (c :: fst l, snd l)) ls) = ls.
Proof.
  induction ls as [|[t win] ls IH]; [reflexivity|].
  cbn [map fst snd]. change ((c :: t, win) :: ?l) with ([(c :: t, win)] ++ l).
  rewrite after_key_app, IH. unfold after_key. cbn [flat_map fst snd app].
  now rewrite Ascii.eqb_refl.
Qed.

Lemma label_character ws c t win :
  In (c :: t, win) (flat_map labels ws) -> In c (map character ws).
Proof.
  intros H. apply in_flat_map in H. destruct H as [x [Hx H]].
  apply labels_head in H. destruct H as [t' H]. cbn [fst] in H.
  inversion H; subst. now apply in_map.
Qed.

Lemma labels_not_empty ws win : ~ In ([], win) (flat_map labels ws).
Proof.
  intros H. apply in_flat_map in H. destruct H as [x [_ H]].
  apply labels_head in H. destruct H as [t H]. discriminate.
Qed.

(** A character that is found or not: what [wsetups_descend_by_char] comes
    to in each case. *)
Lemma wsetups_descend_by_char_cases st c w :
  Forall well_formed (wsetups st) ->
  (Forall (fun y => character y <> c) (wsetups st) /\
   wsetups_descend_by_char st c w = Exit 0 w) \/
  (exists before x after,
      wsetups st = before ++ x :: after /\
      Forall (fun y => character y <> c) before /\
      character x = c /\
      ((children x = [] /\
        exists win w',
          window x = Some win /\
          wsetups_descend_by_char st c w = Exit 0 w' /\
          stdout w' = (format (input st), win) :: stdout w) \/
       (children x <> [] /\
        exists st' w',
          wsetups_descend_by_char st c w = Ret st' w' /\
          input st' = input st /\
          map forget_gcs (wsetups st') = map forget_gcs (children x) /\
          stdout w' = stdout w))).
Proof.
  intros Hwf.
  destruct (find_index c 0 (wsetups st)) as [j|] eqn:Ej.
  - right. apply find_index_Some in Ej.
    destruct Ej as [before [x [after [Hws [Hb Hx]]]]].
    exists before, x, after. split; [exact Hws|]. split; [exact Hb|].
    split; [exact Hx|].
    assert (Hwfx : well_formed x).
    { rewrite Forall_forall in Hwf. apply Hwf.
      rewrite Hws. apply in_or_app. right. now left. }
    destruct (descend_to_choice st c w before x after Hws Hb Hx)
      as [w1 [Hw1 ->]].
    destruct Hw1 as [_ [_ Hs1]].
    destruct (children x) as [|y ch] eqn:Ech.
    + left. split; [reflexivity|].
      destruct (wsetup_choose_leaf st x w1 Hwfx Ech) as [win [Hwin H]].
      exists win. eexists. split; [exact Hwin|].
      unfold bind. rewrite H. split; [reflexivity|].
      cbn [stdout]. now rewrite Hs1.
    + right. split; [discriminate|].
      destruct (wsetup_choose_internal st x w1 Hwfx)
        as [st' [w2 [H [Ei [Ef Hw2]]]]]; [rewrite Ech; discriminate|].
      rewrite (bind_eq _ H).
      destruct (descend_from_after st' (length before) after
                  (S (length before)) w2) as [w3 [H3 Hw3]]; [lia|].
      exists st', w3. split; [exact H3|]. split; [exact Ei|].
      split; [now rewrite <- Ech|].
      destruct Hw2 as [_ [_ Hs2]]. destruct Hw3 as [_ [_ Hs3]]. congruence.
  - left. pose proof Ej as Hn. apply find_index_none in Hn.
    split; [exact Hn|]. unfold wsetups_descend_by_char. now rewrite Ej.
Qed.

(** What a descent comes to, in terms of the labels of the current array. *)
Lemma descend_labels st c w :
  selectable st ->
  match wsetups_descend_by_char st c w with
  | Ret st' w' =>
      selectable st' /\ input st' = input st /\
      flat_map labels (wsetups st') =
        after_key c (flat_map labels (wsetups st)) /\
      flat_map labels (wsetups st') <> [] /\
      stdout w' = stdout w
  | Exit code w' =>
      code = 0%Z /\
      ((after_key c (flat_map labels (wsetups st)) = [] /\
        stdout w' = stdout w) \/
       exists win,
         after_key c (flat_map labels (wsetups st)) = [([], win)] /\
         stdout w' = (format (input st), win) :: stdout w)
  | Undef => False
  end.
Proof.
  intros Hsel. pose proof Hsel as [Hwf [_ [Hnd [Hch _]]]].
  destruct (wsetups_descend_by_char_cases st c w Hwf)
    as [[Hn ->] | [before [x [after [Hws [Hb [Hx Hcase]]]]]]].
  - split; [reflexivity|]. left. split; [|reflexivity].
    now apply after_key_others.
  - assert (Hin : In x (wsetups st))
      by (rewrite Hws; apply in_or_app; right; now left).
    assert (Hwfx : well_formed x)
      by (rewrite Forall_forall in Hwf; now apply Hwf).
    assert (Ha : Forall (fun y => character y <> c) after).
    { assert (Hndc : NoDup (map character (wsetups st))).
      { rewrite Hch. now apply NoDup_firstn. }
      rewrite Hws, map_app in Hndc. cbn [map] in Hndc.
      apply NoDup_remove_2 in Hndc. apply Forall_forall. intros y Hy E.
      apply Hndc. apply in_or_app. right. rewrite Hx, <- E.
      now apply in_map. }
    assert (El : after_key c (flat_map labels (wsetups st))
                 = after_key c (labels x)).
    { rewrite Hws, flat_map_app. cbn [flat_map].
      rewrite !after_key_app, (after_key_others c before Hb),
        (after_key_others c after Ha). cbn [app]. apply app_nil_r. }
    destruct Hcase as [[Hleaf [win [w' [Hwin [-> Hs]]]]]
                      | [Hinner [st' [w' [-> [Ei [Ef Hs]]]]]]].
    + split; [reflexivity|]. right. exists win. split; [|exact Hs].
      rewrite El. destruct (labels_leaf x Hwfx Hleaf) as [win' [Hwin' ->]].
      assert (win' = win) as -> by congruence.
      unfold after_key. cbn [flat_map fst snd app]. rewrite Hx.
      now rewrite Ascii.eqb_refl.
    + assert (Elab : flat_map labels (wsetups st')
                     = flat_map labels (children x))
        by (apply flat_map_forget; [apply forget_gcs_labels | exact Ef]).
      split; [now apply (selectable_children st x)|].
      split; [exact Ei|]. split; [|split; [|exact Hs]].
      * rewrite El, Elab, (labels_internal x Hwfx Hinner), Hx.
        symmetry. apply after_key_map_cons.
      * rewrite Elab. intros E. apply (labels_exist x Hwfx).
        rewrite (labels_internal x Hwfx Hinner), E. reflexivity.
Qed.

(** The key of a character of the input is handled as a descent by this
    character. *)
Lemma handle_keypress_key st c w :
  selectable st -> In c (characters_of st) ->
  handle_keypress st (keysym_of c) w = wsetups_descend_by_char st c w.
Proof.
  intros [_ [Htab [Hnd _]]] Hc. unfold characters_of in *.
  apply in_map_iff in Hc. destruct Hc as [k [<- Hk]].
  unfold handle_keypress, keysym_of.
  rewrite Forall_forall in Htab.
  rewrite (lookup_table_key k (Htab k Hk)).
  rewrite (find_keysym_first (ksl (input st)) k); [reflexivity| |exact Hk].
  apply table_keys_keysyms_NoDup; [now apply Forall_forall | exact Hnd].
Qed.

Lemma in_firstn {A} n (l : list A) x : In x (firstn n l) -> In x l.
Proof.
  intros H. rewrite <- (firstn_skipn n l). apply in_or_app. now left.
Qed.

Lemma selectable_label_character st c t win :
  selectable st ->
  In (c :: t, win) (flat_map labels (wsetups st)) ->
  In c (characters_of st).
Proof.
  intros [_ [_ [_ [Hch _]]]] H. apply label_character in H.
  rewrite Hch in H. now apply in_firstn in H.
Qed.

Lemma selectable_redraw st w :
  selectable st ->
  exists st' w',
    overlays_set_text st w = Ret st' w' /\
    selectable st' /\ input st' = input st /\
    flat_map labels (wsetups st') = flat_map labels (wsetups st) /\
    stdout w' = stdout w.
Proof.
  intros Hsel. pose proof Hsel as [Hwf _].
  destruct (overlays_set_text_Ret st w Hwf) as [st' [w' [H [Ei [Ef Hw]]]]].
  exists st', w'. split; [exact H|].
  split; [now apply (selectable_same st)|]. split; [exact Ei|].
  split; [apply flat_map_forget; [apply forget_gcs_labels | exact Ef]|].
  now destruct Hw as [_ [_ Hs]].
Qed.

Lemma error_free_cons e events :
  error_free (e :: events) -> error_free events.
Proof. intros H code Hin. apply (H code). now right. Qed.

(** Typing the first characters of a label: the program goes on waiting, and
    the labels of the current array are those that started with these
    characters, without them. *)
Lemma event_loop_waiting : forall events st w q,
  selectable st ->
  error_free events ->
  keys_typed events = map keysym_of q ->
  (exists r win, r <> [] /\ In (q ++ r, win) (flat_map labels (wsetups st))) ->
  exists st' w',
    event_loop st events w = Ret st' w' /\
    selectable st' /\ input st' = input st /\
    flat_map labels (wsetups st') =
      after_keys q (flat_map labels (wsetups st)) /\
    stdout w' = stdout w.
Proof.
  induction events as [|e events IH]; intros st w q Hsel Hef Hk Hlab.
  - destruct q; [|discriminate]. exists st, w. cbn. auto.
  - pose proof (error_free_cons _ _ Hef) as Hef'.
    destruct e as [code| |ksym|]; cbn [event_loop keys_typed] in *.
    + exfalso. apply (Hef code). now left.
    + destruct (selectable_redraw st w Hsel)
        as [st1 [w1 [H [Hsel1 [Ei [El Hs]]]]]].
      rewrite (bind_eq _ H).
      destruct (IH st1 w1 q Hsel1 Hef' Hk)
        as [st' [w' [H' [Hsel' [Ei' [El' Hs']]]]]]; [now rewrite El|].
      exists st', w'. rewrite <- El. split; [exact H'|].
      split; [exact Hsel'|]. split; [congruence|].
      split; [exact El' | congruence].
    + destruct q as [|c q]; [discriminate|]. cbn [map] in Hk.
      inversion Hk as [[Ek Hk']]. clear Hk. subst ksym.
      destruct Hlab as [r [win [Hr Hin]]]. cbn [app] in Hin.
      unfold bind.
      rewrite (handle_keypress_key st c w Hsel
                 (selectable_label_character st c _ win Hsel Hin)).
      pose proof (descend_labels st c w Hsel) as Hd.
      apply in_after_key in Hin.
      destruct (wsetups_descend_by_char st c w) as [st1 w1|code w1|] eqn:E;
        [| |contradiction].
      * destruct Hd as [Hsel1 [Ei [El [_ Hs]]]].
        destruct (IH st1 w1 q Hsel1 Hef' Hk')
          as [st' [w' [H' [Hsel' [Ei' [El' Hs']]]]]].
        { exists r, win. split; [exact Hr|]. now rewrite El. }
        exists st', w'. cbn [after_keys fold_left].
        fold (after_keys q (after_key c (flat_map labels (wsetups st)))).
        rewrite <- El. split; [exact H'|].
        split; [exact Hsel'|]. split; [congruence|].
        split; [exact El' | congruence].
      * exfalso. destruct Hd as [_ [[Hnil _] | [win' [Hone _]]]].
        -- rewrite Hnil in Hin. contradiction.
        -- rewrite Hone in Hin. destruct Hin as [Hin|[]].
           inversion Hin as [[Hq Hw]]. destruct q; [|discriminate].
           symmetry in Hq. contradiction.
    + unfold bind, ret. now apply IH.
Qed.

(** Typing a label: the window of the label is printed, and the process has
    exited with status 0 whatever events follow. *)
Lemma event_loop_chooses : forall events st w p win later,
  selectable st ->
  error_free events ->
  keys_typed events = map keysym_of p ->
  In (p, win) (flat_map labels (wsetups st)) ->
  exists w',
    event_loop st (events ++ later) w = Exit 0 w' /\
    stdout w' = (format (input st), win) :: stdout w.
Proof.
  induction events as [|e events IH]; intros st w p win later Hsel Hef Hk Hin.
  - destruct p; [|discriminate]. exfalso.
    exact (labels_not_empty _ _ Hin).
  - pose proof (error_free_cons _ _ Hef) as Hef'.
    destruct e as [code| |ksym|]; cbn [event_loop keys_typed app] in *.
    + exfalso. apply (Hef code). now left.
    + destruct (selectable_redraw st w Hsel)
        as [st1 [w1 [H [Hsel1 [Ei [El Hs]]]]]].
      rewrite (bind_eq _ H).
      destruct (IH st1 w1 p win later Hsel1 Hef' Hk) as [w' [H' Hs']];
        [now rewrite El|].
      exists w'. split; [exact H'|]. congruence.
    + destruct p as [|c p]; [discriminate|]. cbn [map] in Hk.
      inversion Hk as [[Ek Hk']]. clear Hk. subst ksym.
      unfold bind.
      rewrite (handle_keypress_key st c w Hsel
                 (selectable_label_character st c _ win Hsel Hin)).
      pose proof (descend_labels st c w Hsel) as Hd.
      apply in_after_key in Hin.
      destruct (wsetups_descend_by_char st c w) as [st1 w1|code w1|] eqn:E;
        [| |contradiction].
      * destruct Hd as [Hsel1 [Ei [El [_ Hs]]]].
        rewrite <- El in Hin.
        destruct (IH st1 w1 p win later Hsel1 Hef' Hk' Hin) as [w' [H' Hs']].
        exists w'. split; [exact H'|]. congruence.
      * destruct Hd as [-> [[Hnil _] | [win' [Hone Hs]]]].
        -- rewrite Hnil in Hin. contradiction.
        -- rewrite Hone in Hin. destruct Hin as [Hin|[]].
           inversion Hin; subst. exists w1. split; [reflexivity|exact Hs].
    + unfold bind, ret. exact (IH st w p win later Hsel Hef' Hk Hin).
Qed.

(** The program that waits for its first key: the current array can be
    typed in, its labels are those of the windows given, nothing was printed,
    and the events are handled from there. *)
Lemma main_waiting get_geometry log characters f windows w st w1 :
  main get_geometry log characters f windows [] w = Ret st w1 ->
  selectable st /\
  format (input st) = f /\
  stdout w1 = stdout w /\
  map snd (flat_map labels (wsetups st)) = windows /\
  forall events,
    main get_geometry log characters f windows events w =
    event_loop st events w1.
Proof.
  intros H. unfold main in H.
  bind_ret H as parsed w0 Hp. bind_ret H as st0 w2 Hb.
  bind_ret H as st1 w3 Hs. cbn [event_loop] in H. inversion H; subst st1 w3.
  clear H.
  assert (Hev : forall events,
             main get_geometry log characters f windows events w =
             event_loop st events w1).
  { intros events. unfold main.
    now rewrite (bind_eq _ Hp), (bind_eq _ Hb), (bind_eq _ Hs). }
  destruct characters as [char_pool|]; [|discriminate].
  cbn [parse_args] in Hp. apply parse_arg_characters_Ret in Hp.
  destruct Hp as [-> [Hf [Hk [Hksl _]]]]. cbn [format] in Hf.
  destruct (parsed_keys char_pool Hk) as [Htab [Hchars Hnd]].
  apply initialise_window_tracking_Ret in Hb.
  destruct Hb as [depth [_ [Ei Hb]]].
  apply _initialise_window_tracking_built in Hb.
  destruct Hb as [Hb [Hch _]].
  destruct Hb as [Htr _ _ _ _ Hout Hwf Hlab _].
  assert (Hsel0 : selectable st0).
  { unfold selectable, characters_of in *. rewrite Ei. cbn [input] in *.
    rewrite Hksl in *. rewrite Hchars in *. auto. }
  assert (Hl0 : map snd (flat_map labels (wsetups st0)) = windows)
    by now rewrite labels_windows.
  unfold start in Hs.
  destruct (wsetups st0) as [|x [|y l]] eqn:Ews; [discriminate| |].
  - assert (Hwfx : well_formed x) by now inversion Hwf.
    destruct (children x) as [|y ch] eqn:Ech.
    + destruct (wsetup_choose_leaf st0 x w2 Hwfx Ech) as [win [_ E]].
      rewrite E in Hs. discriminate.
    + assert (Hne : children x <> []) by (rewrite Ech; discriminate).
      destruct (wsetup_choose_internal st0 x w2 Hwfx Hne)
        as [st' [w' [E [Ei' [Ef [_ [_ Hs']]]]]]].
      rewrite E in Hs. inversion Hs; subst st' w'.
      split; [apply (selectable_children st0 x); auto;
              rewrite Ews; now left|].
      split; [now rewrite Ei', Ei|]. split; [congruence|].
      split; [|exact Hev].
      rewrite (flat_map_forget labels _ _ forget_gcs_labels Ef).
      rewrite <- Hl0. cbn [flat_map]. rewrite app_nil_r.
      rewrite (labels_internal x Hwfx Hne), map_map. reflexivity.
  - rewrite <- Ews in *.
    destruct (selectable_redraw st0 w2 Hsel0)
      as [st' [w' [E [Hsel' [Ei' [El Hs']]]]]].
    rewrite E in Hs. inversion Hs; subst st' w'.
    split; [exact Hsel'|]. split; [now rewrite Ei', Ei|].
    split; [congruence|]. split; [now rewrite El | exact Hev].
Qed.

(** X2.  The program waits for its first key.  Then the labels of the
    current array are those of the windows given, in their order, and
    typing the label of a window, with exposures and other events in
    between but no error, prints this window in the format asked for and
    ends the process with status 0, whatever events follow. *)
Theorem typing_a_label_chooses_its_window
    get_geometry log characters f windows w st w1 :
  main get_geometry log characters f windows [] w = Ret st w1 ->
  map snd (flat_map labels (wsetups st)) = windows /\
  forall p win events later,
    In (p, win) (flat_map labels (wsetups st)) ->
    error_free events ->
    keys_typed events = map keysym_of p ->
    exists w',
      main get_geometry log characters f windows (events ++ later) w
      = Exit 0 w' /\
      stdout w' = (f, win) :: stdout w.
Proof.
  intros H. apply main_waiting in H.
  destruct H as [Hsel [Hf [Hs [Hl Hev]]]]. split; [exact Hl|].
  intros p win events later Hin Hef Hk. rewrite Hev.
  destruct (event_loop_chooses events st w1 p win later Hsel Hef Hk Hin)
    as [w' [H Hs']].
  exists w'. split; [exact H|]. now rewrite Hs', Hf, Hs.
Qed.

Lemma typing_a_label_chooses_its_window_witness :
  exists w',
    main sample_geometry sample_log (Some ["a"; "b"; "c"]%char) FORMAT_HEX
         (sample_windows 7)
         ([KeyPress 99%Z; Expose; KeyPress 98%Z] ++ [KeyPress 97%Z])
         initial_world = Exit 0 w' /\
    stdout w' = (FORMAT_HEX, 7%Z) :: stdout initial_world.
Proof.
  refine (proj2 (typing_a_label_chooses_its_window sample_geometry sample_log
                   (Some ["a"; "b"; "c"]%char) FORMAT_HEX (sample_windows 7)
                   initial_world _ _ _)
                ["c"; "b"]%char 7%Z [KeyPress 99%Z; Expose; KeyPress 98%Z]
                [KeyPress 97%Z] _ _ _).
  - vm_compute. reflexivity.
  - vm_compute. auto 10.
  - intros code Hin. cbn [In] in Hin.
    repeat (destruct Hin as [Hin|Hin]; [discriminate Hin|]). exact Hin.
  - reflexivity.
Defined.






(** * What is printed *)

Lemma quiet_ret {A} (a : A) : quiet (ret a).
Proof. intros w. reflexivity. Qed.

Lemma quiet_die {A} : quiet (@xcw_die A).
Proof. intros w. now split. Qed.

Lemma quiet_undefined {A} : quiet (@undefined A).
Proof. intros w. exact I. Qed.

Lemma quiet_send r : quiet (send r).
Proof. intros w. reflexivity. Qed.

Lemma quiet_generate_id : quiet xcb_generate_id.
Proof. intros w. reflexivity. Qed.

Lemma quiet_bind {A B} (m : M A) (f : A -> M B) :
  quiet m -> (forall a, quiet (f a)) -> quiet (bind m f).
Proof.
  intros Hm Hf w. unfold bind. specialize (Hm w).
  destruct (m w) as [a w1|code w1|]; [|exact Hm|exact I].
  specialize (Hf a w1). destruct (f a w1) as [b w2|code w2|];
    [congruence| |exact I].
  destruct Hf as [Hc Hs]. split; congruence.
Qed.

Create HintDb quiet.
#[local] Hint Resolve quiet_ret quiet_die quiet_undefined quiet_send
  quiet_generate_id : quiet.
#[local] Hint Extern 1 (quiet (bind _ _)) =>
  apply quiet_bind; [|intros ?] : quiet.

Lemma quiet_initialise_window_setup gg state win c :
  quiet (initialise_window_setup gg state win c).
Proof.
  unfold initialise_window_setup, overlay_create.
  destruct (gg win); auto 10 with quiet.
Qed.

Lemma quiet_ksl_char state i : quiet (ksl_char state i).
Proof.
  unfold ksl_char. destruct (nth_error _ _); auto with quiet.
Qed.

#[local] Hint Resolve quiet_initialise_window_setup quiet_ksl_char : quiet.

Lemma quiet_tracking_leaves gg state : forall windows i,
  quiet (tracking_leaves gg state i windows).
Proof.
  induction windows as [|win rest IH]; intros i; cbn [tracking_leaves];
    auto 10 with quiet.
Qed.

Lemma quiet_tracking_groups gg descend state p r :
  (forall g, quiet (descend g)) ->
  forall todo i remain,
    quiet (tracking_groups gg descend state p r todo i remain).
Proof.
  intros Hd. induction todo as [|todo IH]; intros i remain;
    cbn [tracking_groups]; [auto with quiet|].
  apply quiet_bind; [|intros x; auto with quiet].
  destruct (_ =? 1); [destruct remain|]; auto 10 with quiet.
Qed.

Lemma quiet__initialise_window_tracking gg state : forall depth windows,
  quiet (_initialise_window_tracking gg state depth windows).
Proof.
  induction depth as [|depth IH]; intros windows;
    cbn [_initialise_window_tracking].
  - apply quiet_tracking_leaves.
  - destruct (ksl_size (input state)); [auto with quiet|].
    now apply quiet_tracking_groups.
Qed.

Lemma quiet_initialise_window_tracking gg log state windows :
  quiet (initialise_window_tracking gg log state windows).
Proof.
  unfold initialise_window_tracking.
  destruct (tracking_depth log _ _); [|auto with quiet].
  apply quiet_bind; [apply quiet__initialise_window_tracking|].
  auto with quiet.
Qed.

Lemma tracked_children x : incl (flat_map tracked (children x)) (tracked x).
Proof.
  destruct x as [ow fg bg r win c ch]. cbn [tracked children].
  intros a Ha. apply in_or_app. now right.
Qed.

Lemma tracked_window x win : window x = Some win -> In win (tracked x).
Proof.
  destruct x as [ow fg bg r o c ch]. cbn [tracked window]. intros ->.
  now left.
Qed.

Lemma wsetup_choose_prints f windows st x w :
  well_formed x ->
  incl (tracked x) windows ->
  format (input st) = f ->
  match wsetup_choose st x w with
  | Ret st' w' =>
      Forall well_formed (wsetups st') /\
      incl (flat_map tracked (wsetups st')) windows /\
      input st' = input st /\ stdout w' = stdout w
  | Exit code w' =>
      code = 0%Z /\ exists win, In win windows /\
                                stdout w' = (f, win) :: stdout w
  | Undef => False
  end.
Proof.
  intros Hwf Hincl Hf.
  destruct (children x) as [|y ch] eqn:Ech.
  - destruct (wsetup_choose_leaf st x w Hwf Ech) as [win [Hwin ->]].
    split; [reflexivity|]. exists win. cbn [stdout]. rewrite Hf.
    split; [|reflexivity]. apply Hincl. now apply tracked_window.
  - assert (Hne : children x <> []) by (rewrite Ech; discriminate).
    destruct (wsetup_choose_internal st x w Hwf Hne)
      as [st' [w' [-> [Ei [Ef [_ [_ Hs]]]]]]].
    split; [|split; [|split; [exact Ei | exact Hs]]].
    + apply (Forall_forget _ _ _ forget_gcs_well_formed Ef).
      now apply well_formed_children.
    + rewrite (flat_map_forget tracked _ _ forget_gcs_tracked Ef).
      intros a Ha. apply Hincl. now apply tracked_children.
Qed.

Lemma wsetups_descend_by_char_prints f windows st c w :
  Forall well_formed (wsetups st) ->
  incl (flat_map tracked (wsetups st)) windows ->
  format (input st) = f ->
  match wsetups_descend_by_char st c w with
  | Ret st' w' =>
      Forall well_formed (wsetups st') /\
      incl (flat_map tracked (wsetups st')) windows /\
      input st' = input st /\ stdout w' = stdout w
  | Exit code w' =>
      code = 0%Z /\
      (stdout w' = stdout w \/
       exists win, In win windows /\ stdout w' = (f, win) :: stdout w)
  | Undef => False
  end.
Proof.
  intros Hwf Hincl Hf.
  destruct (wsetups_descend_by_char_cases st c w Hwf)
    as [[_ ->] | [before [x [after [Hws [_ [_ Hcase]]]]]]].
  - split; [reflexivity|]. now left.
  - assert (Hin : In x (wsetups st))
      by (rewrite Hws; apply in_or_app; right; now left).
    assert (Hwfx : well_formed x)
      by (rewrite Forall_forall in Hwf; now apply Hwf).
    assert (Hx : incl (tracked x) windows).
    { intros a Ha. apply Hincl. apply in_flat_map. now exists x. }
    destruct Hcase as [[_ [win [w' [Hwin [-> Hs]]]]]
                      | [_ [st' [w' [-> [Ei [Ef Hs]]]]]]].
    + split; [reflexivity|]. right. exists win. rewrite <- Hf.
      split; [|exact Hs]. apply Hx. now apply tracked_window.
    + split; [|split; [|split; [exact Ei | exact Hs]]].
      * apply (Forall_forget _ _ _ forget_gcs_well_formed Ef).
        now apply well_formed_children.
      * rewrite (flat_map_forget tracked _ _ forget_gcs_tracked Ef).
        intros a Ha. apply Hx. now apply tracked_children.
Qed.

Lemma event_loop_prints f windows : forall events st w,
  Forall well_formed (wsetups st) ->
  incl (flat_map tracked (wsetups st)) windows ->
  format (input st) = f ->
  ends_well [0%Z; EX_SOFTWARE] f windows (stdout w)
            (event_loop st events w).
Proof.
  induction events as [|e events IH]; intros st w Hwf Hincl Hf.
  - reflexivity.
  - cbn [event_loop]. unfold bind.
    destruct e as [code| |ksym|].
    + left. cbn. auto.
    + destruct (overlays_set_text_Ret st w Hwf)
        as [st' [w' [-> [Ei [Ef [_ [_ Hs]]]]]]].
      rewrite <- Hs. apply IH.
      * exact (Forall_forget _ _ _ forget_gcs_well_formed Ef Hwf).
      * now rewrite (flat_map_forget tracked _ _ forget_gcs_tracked Ef).
      * now rewrite Ei.
    + unfold handle_keypress.
      destruct (keysyms_lookup_find_keysym (ksl (input st)) ksym) as [k|].
      * pose proof (wsetups_descend_by_char_prints f windows st
                      (ksl_character k) w Hwf Hincl Hf) as Hd.
        destruct (wsetups_descend_by_char st (ksl_character k) w)
          as [st' w'|code w'|]; [| |contradiction].
        -- destruct Hd as [Hwf' [Hincl' [Ei Hs]]]. rewrite <- Hs.
           apply IH; [exact Hwf' | exact Hincl' | now rewrite Ei].
        -- destruct Hd as [-> [Hs | Hwin]];
             [left; cbn; auto | right; auto].
      * left. cbn. auto.
    + now apply IH.
Qed.

(** From the construction of the tracking structure on: what is printed
    and how the process ends. *)
Lemma tracking_and_events_print get_geometry log parsed windows events w :
  match (state <- initialise_window_tracking get_geometry log
                    (mk_state parsed []) windows ;;
         state' <- start state ;;
         event_loop state' events) w with
  | Undef =>
      initialise_window_tracking get_geometry log (mk_state parsed [])
        windows w = Undef
  | o => prints_at_most [0%Z; EX_SOFTWARE] (format parsed) windows
                        (stdout w) o
  end.
Proof.
  unfold bind at 1.
  pose proof (quiet_initialise_window_tracking get_geometry log
                (mk_state parsed []) windows w) as Hq.
  destruct (initialise_window_tracking get_geometry log
              (mk_state parsed []) windows w)
    as [st w2|code w2|] eqn:Hb; [| |reflexivity].
  2:{ destruct Hq as [-> Hq]. left. cbn. auto. }
  assert (Hend : ends_well [0%Z; EX_SOFTWARE] (format parsed) windows
                   (stdout w)
                   ((state' <- start st ;; event_loop state' events) w2)).
  2:{ destruct ((state' <- start st ;; event_loop state' events) w2)
        as [st' w'|code w'|]; [exact Hend | exact Hend | contradiction]. }
  rewrite <- Hq.
  apply initialise_window_tracking_Ret in Hb.
  destruct Hb as [depth [_ [Ei Hb]]]. cbn [input] in Ei.
  apply _initialise_window_tracking_built in Hb. destruct Hb as [Hb _].
  destruct Hb as [Htr _ _ _ _ _ Hwf _ _].
  assert (Hincl : incl (flat_map tracked (wsetups st)) windows)
    by (rewrite Htr; apply incl_refl).
  assert (Hfst : format (input st) = format parsed) by now rewrite Ei.
  unfold bind, start.
  destruct (wsetups st) as [|x [|y l]] eqn:Ews.
  - left. cbn. auto.
  - assert (Hwfx : well_formed x) by now inversion Hwf.
    assert (Hx : incl (tracked x) windows).
    { intros a Ha. apply Hincl. cbn [flat_map]. rewrite app_nil_r.
      exact Ha. }
    pose proof (wsetup_choose_prints (format parsed) windows st x w2
                  Hwfx Hx Hfst) as Hc.
    destruct (wsetup_choose st x w2) as [st' w'|code w'|];
      [| |contradiction].
    + destruct Hc as [Hwf' [Hincl' [Ei' Hs]]]. rewrite <- Hs.
      apply event_loop_prints; [exact Hwf' | exact Hincl' | congruence].
    + destruct Hc as [-> Hwin]. right. auto.
  - rewrite <- Ews in *.
    destruct (overlays_set_text_Ret st w2 Hwf)
      as [st' [w' [-> [Ei' [Ef [_ [_ Hs]]]]]]].
    rewrite <- Hs. apply event_loop_prints.
    + exact (Forall_forget _ _ _ forget_gcs_well_formed Ef Hwf).
    + now rewrite (flat_map_forget tracked _ _ forget_gcs_tracked Ef).
    + congruence.
Qed.

(** X5.  Whatever the [CHARACTERS] argument, the windows given to
    [initialise_window_tracking] and the events are: when the program waits
    for a key no window id was printed, and when the process has exited
    either no window id was printed and the status is 0, 64 or 70, or one
    window id was printed, with the conversion of the format asked for: the
    status is then 0 and the window is one of the windows given. *)
Theorem only_a_window_given_is_printed
    get_geometry log characters f windows events w :
  match main get_geometry log characters f windows events w with
  | Ret _ w' => stdout w' = stdout w
  | Exit code w' =>
      (stdout w' = stdout w /\
       (code = 0%Z \/ code = EX_USAGE \/ code = EX_SOFTWARE)) \/
      (code = 0%Z /\
       exists win, In win windows /\ stdout w' = (f, win) :: stdout w)
  | Undef => True
  end.
Proof.
  unfold main. unfold bind at 1.
  destruct (parse_args characters f w) as [parsed w0|code w0|] eqn:Hp;
    [| |exact I].
  2:{ left. destruct characters as [char_pool|].
      - pose proof (parse_arg_characters_outcome char_pool
                      (mk_input [] f) w) as Ho.
        cbn [parse_args] in Hp. rewrite Hp in Ho.
        destruct Ho as [-> ->]. auto.
      - inversion Hp. auto. }
  apply parse_args_Ret in Hp. destruct Hp as [-> [<- _]].
  pose proof (tracking_and_events_print get_geometry log parsed windows
                events w) as H.
  unfold prints_at_most in H.
  match goal with
  | |- match ?o with _ => _ end => destruct o as [st w'|code w'|]
  end; [exact H| |exact I].
  destruct H as [[Hs Hc] | H]; [left | right; exact H].
  split; [exact Hs|]. cbn [In] in Hc. destruct Hc as [<-|[<-|[]]]; auto.
Qed.

(** * What the overlays show *)

Lemma combine_app {A B} (l1 l2 : list A) (m1 m2 : list B) :
  length l1 = length m1 ->
  combine (l1 ++ l2) (m1 ++ m2) = combine l1 m1 ++ combine l2 m2.
Proof.
  revert m1. induction l1 as [|a l1 IH]; intros [|b m1] H; try discriminate.
  - reflexivity.
  - cbn [app combine]. f_equal. apply IH. now inversion H.
Qed.

Lemma handles_paths_length : forall x,
  well_formed x -> length (handles x) = length (paths x).
Proof.
  induction x as [ow fg bg r win c ch IH] using wsetup_ind.
  intros Hwf. pose proof (well_formed_children _ Hwf) as Hall.
  rewrite paths_unfold. cbn [handles overlay_window window children] in *.
  rewrite !length_app, !length_map.
  assert (E : length (flat_map handles ch) = length (flat_map paths ch)).
  { clear Hwf. induction IH as [|y ch Hy _ IHch]; [reflexivity|].
    inversion Hall; subst. cbn [flat_map]. rewrite !length_app.
    now rewrite Hy, IHch. }
  rewrite E. destruct ch as [|y ch]; cbn [well_formed children] in Hwf.
  - destruct Hwf as [Ho [_ Hw]]. cbn [overlay_window window] in *.
    destruct ow, win; try congruence. reflexivity.
  - destruct Hwf as [Ho [Hw _]]. cbn [overlay_window window] in *.
    now subst.
Qed.

Lemma overlay_set_text_none x text w :
  overlay_window x = None -> overlay_set_text x text w = Ret x w.
Proof. unfold overlay_set_text. now intros ->. Qed.

Lemma overlay_set_text_rendered x text w h rect :
  overlay_window x = Some h -> overlay_rect x = Some rect ->
  exists x' w',
    overlay_set_text x text w = Ret x' w' /\
    rendered (requests w') = rendered (requests w) ++ [(h, text)].
Proof.
  intros Eo Er. unfold overlay_set_text. rewrite Eo, Er.
  destruct (overlay_bg_gc x), (overlay_font_gc x);
    cbv [bind ret overlay_get_bg_gc overlay_get_font_gc
         xorg_draw_text_centred xcb_generate_id send];
    simpl; eexists _, _; (split; [reflexivity|]); reflexivity.
Qed.

Lemma update_each_rendered body l
    (R : window_setup_t -> list (xcb_window_t * list ascii)) :
  Forall (fun x => forall w, exists x' w',
              body x w = Ret x' w' /\
              rendered (requests w') = rendered (requests w) ++ R x) l ->
  forall w, exists l' w',
    update_each body l w = Ret l' w' /\
    rendered (requests w') = rendered (requests w) ++ flat_map R l.
Proof.
  induction 1 as [|x l Hx _ IH]; intros w.
  - exists [], w. split; [reflexivity|]. cbn. now rewrite app_nil_r.
  - cbn [update_each].
    destruct (Hx w) as [x' [w1 [Hb E1]]]. rewrite (bind_eq _ Hb).
    destruct (IH w1) as [l' [w2 [Hl E2]]].
    fold (update_each body). rewrite (bind_eq _ Hl).
    exists (x' :: l'), w2. split; [reflexivity|].
    cbn [flat_map]. now rewrite E2, E1, app_assoc.
Qed.

Lemma combine_children_paths text c ch :
  Forall (fun y => length (handles y) = length (paths y)) ch ->
  combine (flat_map handles ch)
          (map (app text) (map (cons c) (flat_map paths ch))) =
  flat_map (fun y => combine (handles y) (map (app (text ++ [c])) (paths y)))
           ch.
Proof.
  induction 1 as [|y ch Hy _ IH]; [reflexivity|].
  cbn [flat_map]. rewrite !map_app, combine_app, IH.
  - f_equal. f_equal. rewrite map_map. apply map_ext. intros p.
    now rewrite <- app_assoc.
  - now rewrite !length_map.
Qed.

Lemma overlays_set_text_at_rendered : forall x,
  well_formed x ->
  forall text w,
    levels x + length text <= 255 ->
    exists x' w',
      overlays_set_text_at text x w = Ret x' w' /\
      rendered (requests w') =
        rendered (requests w) ++
        combine (handles x) (map (app text) (paths x)).
Proof.
  induction x as [ow fg bg r win c ch IH] using wsetup_ind.
  intros Hwf text w Hlev. cbn [overlays_set_text_at character children].
  pose proof (well_formed_children _ Hwf) as Hall. cbn [children] in Hall.
  rewrite paths_unfold. cbn [handles overlay_window window character children].
  destruct ch as [|y ch].
  - cbn [well_formed children overlay_window overlay_rect window] in Hwf.
    destruct Hwf as [Ho [Hr Hw]].
    destruct ow as [h|]; [|congruence]. destruct r as [rect|]; [|congruence].
    destruct win as [wn|]; [|congruence].
    destruct (overlay_set_text_rendered
                (mk_wsetup (Some h) fg bg (Some rect) (Some wn) c [])
                (text ++ [c]) w h rect eq_refl eq_refl)
      as [x1 [w1 [H1 E1]]].
    rewrite (bind_eq _ H1).
    assert (Hch : (if 255 <? length (text ++ [c]) + 1 then ret []
                   else update_each (overlays_set_text_at (text ++ [c])) [])
                    w1 = Ret [] w1)
      by (destruct (255 <? _); reflexivity).
    rewrite (bind_eq _ Hch).
    eexists _, w1. split; [reflexivity|]. rewrite E1. reflexivity.
  - cbn [well_formed children overlay_window window] in Hwf.
    destruct Hwf as [-> [-> _]].
    rewrite (bind_eq _ (overlay_set_text_none
                          (mk_wsetup None fg bg r None c (y :: ch))
                          (text ++ [c]) w eq_refl)).
    cbn [levels children] in Hlev.
    assert (Hmax : Forall (fun k => k <= list_max (map levels (y :: ch)))
                          (map levels (y :: ch)))
      by (apply list_max_le; apply le_n).
    assert (Hy1 : 1 <= levels y) by (destruct y; cbn [levels]; lia).
    assert (Hg : (255 <? length (text ++ [c]) + 1) = false).
    { apply Nat.ltb_ge. rewrite length_app. cbn [length].
      inversion Hmax; subst. lia. }
    rewrite Hg.
    destruct (update_each_rendered (overlays_set_text_at (text ++ [c]))
                (y :: ch)
                (fun y => combine (handles y)
                                  (map (app (text ++ [c])) (paths y))))
      with (w := w) as [ch' [w2 [H2 E2]]].
    { rewrite Forall_map in Hmax. clear Hg Hy1.
      revert Hall Hmax Hlev. generalize (list_max (map levels (y :: ch))).
      intros n Hall Hmax Hlev.
      induction IH as [|z l Hz _ IHl]; constructor.
      - intros w0. apply Hz; [now inversion Hall|].
        rewrite length_app. cbn [length]. inversion Hmax; subst. lia.
      - apply IHl; [now inversion Hall | now inversion Hmax]. }
    rewrite (bind_eq _ H2). eexists _, w2. split; [reflexivity|].
    rewrite E2. f_equal. cbn [opt_list map app].
    symmetry. apply combine_children_paths.
    revert Hall. apply Forall_impl. intros z. apply handles_paths_length.
Qed.

(** In the model, where the renderer always returns, [overlays_set_text]
    returns on an array of structures as the builder makes them, and it hands
    the labels to the renderer. *)
Lemma overlays_set_text_rendered st w :
  Forall well_formed (wsetups st) ->
  Forall (fun x => levels x <= 255) (wsetups st) ->
  exists st' w',
    overlays_set_text st w = Ret st' w' /\
    rendered (requests w') =
      rendered (requests w) ++
      combine (flat_map handles (wsetups st))
              (map fst (flat_map labels (wsetups st))).
Proof.
  intros Hwf Hlev. unfold overlays_set_text, _overlays_set_text.
  change (255 <? length (@nil ascii) + 1) with false. cbv iota.
  destruct (update_each_rendered (overlays_set_text_at []) (wsetups st)
              (fun y => combine (handles y) (paths y)))
    with (w := w) as [ws' [w1 [H1 E1]]].
  { rewrite Forall_forall in *. intros x Hx w0.
    destruct (overlays_set_text_at_rendered x (Hwf x Hx) [] w0)
      as [x' [w' [H E]]].
    - cbn [length]. specialize (Hlev x Hx). cbn beta in Hlev. lia.
    - exists x', w'. split; [exact H|]. rewrite E. do 2 f_equal.
      rewrite <- (map_id (paths x)) at 2. now apply map_ext. }
  rewrite (bind_eq _ H1).
  eexists _, _. split; [reflexivity|]. cbn [requests rendered].
  rewrite E1. f_equal. rewrite labels_paths.
  clear - Hwf. induction Hwf as [|x ws Hx _ IH]; [reflexivity|].
  cbn [flat_map]. rewrite combine_app, IH; [reflexivity|].
  now apply handles_paths_length.
Qed.

(** X6.  On an array of structures as the builder makes them, with at most
    255 levels: when [overlays_set_text] returns, the texts it has handed to
    the renderer, [xorg_draw_text_centred], are, in their order, the labels
    of the array, each with the overlay of the window that has this
    label. *)
Theorem overlays_show_the_labels st w st' w' :
  Forall well_formed (wsetups st) ->
  Forall (fun x => levels x <= 255) (wsetups st) ->
  overlays_set_text st w = Ret st' w' ->
  rendered (requests w') =
    rendered (requests w) ++
    combine (flat_map handles (wsetups st))
            (map fst (flat_map labels (wsetups st))).
Proof.
  intros Hwf Hlev H.
  destruct (overlays_set_text_rendered st w Hwf Hlev) as [st1 [w1 [H1 E]]].
  rewrite H in H1. inversion H1; subst. exact E.
Qed.

Lemma overlays_show_the_labels_witness :
  exists st' w',
    overlays_set_text (state_of (sample_run ["a"; "b"]%char 3 []))
                      initial_world = Ret st' w' /\
    rendered (requests w') =
      [(100%Z, ["a"; "a"]%char); (101%Z, ["a"; "b"]%char);
       (102%Z, ["b"]%char)].
Proof.
  eassert (H : overlays_set_text (state_of (sample_run ["a"; "b"]%char 3 []))
                 initial_world = Ret _ _) by (vm_compute; reflexivity).
  assert (Hwf : Forall well_formed
                  (wsetups (state_of (sample_run ["a"; "b"]%char 3 []))))
    by (vm_compute; repeat constructor; discriminate).
  assert (Hlev : Forall (fun x => levels x <= 255)
                   (wsetups (state_of (sample_run ["a"; "b"]%char 3 []))))
    by (vm_compute; repeat constructor).
  assert (E : rendered (requests initial_world) ++
              combine (flat_map handles
                         (wsetups
                            (state_of (sample_run ["a"; "b"]%char 3 []))))
                      (map fst
                         (flat_map labels
                            (wsetups
                               (state_of
                                  (sample_run ["a"; "b"]%char 3 []))))) =
              [(100%Z, ["a"; "a"]%char); (101%Z, ["a"; "b"]%char);
               (102%Z, ["b"]%char)]) by (vm_compute; reflexivity).
  eexists _, _. split; [exact H|].
  rewrite <- E. exact (overlays_show_the_labels _ _ _ _ Hwf Hlev H).
Defined.

(** * Graphics contexts *)

Lemma overlay_set_text_again x text w x1 w1 :
  overlay_set_text x text w = Ret x1 w1 ->
  character x1 = character x /\
  forall ch text2 w2, exists w3,
    overlay_set_text
      (mk_wsetup (overlay_window x1) (overlay_font_gc x1) (overlay_bg_gc x1)
                 (overlay_rect x1) (window x1) (character x1) ch) text2 w2
    = Ret (mk_wsetup (overlay_window x1) (overlay_font_gc x1)
                     (overlay_bg_gc x1) (overlay_rect x1) (window x1)
                     (character x1) ch) w3 /\
    gcs_created (requests w3) = gcs_created (requests w2).
Proof.
  unfold overlay_set_text at 1.
  destruct (overlay_window x) as [win|] eqn:Eo.
  - destruct (overlay_rect x) as [rect|] eqn:Er.
    + destruct (overlay_bg_gc x), (overlay_font_gc x);
        cbv [bind ret overlay_get_bg_gc overlay_get_font_gc
             xorg_draw_text_centred xcb_generate_id send];
        intros H; injection H as <- <-;
        (split; [reflexivity|]); intros ch text2 w2;
        cbv [overlay_set_text overlay_window overlay_bg_gc overlay_font_gc
             overlay_rect window character children bind ret
             xorg_draw_text_centred xcb_generate_id send];
        eexists; (split; [reflexivity|]); reflexivity.
    + destruct (overlay_bg_gc x), (overlay_font_gc x);
        cbv [bind ret overlay_get_bg_gc overlay_get_font_gc xcb_generate_id
             send undefined]; discriminate.
  - intros H. inversion H; subst. split; [reflexivity|].
    intros ch text2 w2. exists w2. unfold overlay_set_text.
    cbn [overlay_window]. rewrite Eo. now split.
Qed.

Lemma update_each_again body l :
  Forall (fun x => forall w x' w',
              body x w = Ret x' w' ->
              forall w2, exists w3,
                body x' w2 = Ret x' w3 /\
                gcs_created (requests w3) = gcs_created (requests w2)) l ->
  forall w l' w',
    update_each body l w = Ret l' w' ->
    forall w2, exists w3,
      update_each body l' w2 = Ret l' w3 /\
      gcs_created (requests w3) = gcs_created (requests w2).
Proof.
  induction 1 as [|x l Hx _ IH]; intros w l' w' H w2.
  - cbn in H. inversion H; subst. exists w2. now split.
  - cbn [update_each] in H. bind_ret H as x' w1 Hb.
    fold (update_each body) in H. bind_ret H as rest w4 Hl.
    inversion H; subst. cbn [update_each].
    destruct (Hx _ _ _ Hb w2) as [w3 [Hb' E1]]. rewrite (bind_eq _ Hb').
    destruct (IH _ _ _ Hl w3) as [w5 [Hl' E2]].
    fold (update_each body). rewrite (bind_eq _ Hl').
    exists w5. split; [reflexivity | congruence].
Qed.

Lemma overlays_set_text_at_again : forall x text w x' w',
  overlays_set_text_at text x w = Ret x' w' ->
  forall w2, exists w3,
    overlays_set_text_at text x' w2 = Ret x' w3 /\
    gcs_created (requests w3) = gcs_created (requests w2).
Proof.
  induction x as [ow fg bg r win c ch IH] using wsetup_ind.
  intros text w x' w' H w2.
  cbn [overlays_set_text_at character children] in H.
  bind_ret H as x1 w1 H1. bind_ret H as ch' w4 Hch.
  inversion H; subst x' w4. clear H.
  apply overlay_set_text_again in H1. destruct H1 as [Ec Hagain].
  cbn [character] in Ec.
  cbn [overlays_set_text_at character children].
  destruct (Hagain ch' (text ++ [character x1]) w2) as [w3 [H3 E3]].
  rewrite (bind_eq _ H3).
  cbn [overlay_window overlay_font_gc overlay_bg_gc overlay_rect window
       character children].
  rewrite Ec in *.
  destruct (255 <? length (text ++ [c]) + 1).
  - inversion Hch; subst. eexists. split; [reflexivity | exact E3].
  - destruct (update_each_again (overlays_set_text_at (text ++ [c])) ch)
      with (w := w1) (l' := ch') (w' := w') (w2 := w3) as [w5 [H5 E5]].
    + revert IH. apply Forall_impl. intros y Hy w0 y' w0' Hb.
      exact (Hy _ _ _ _ Hb).
    + exact Hch.
    + rewrite (bind_eq _ H5). eexists. split; [reflexivity | congruence].
Qed.

(** In the model, where the renderer always returns, a second call of
    [overlays_set_text] returns the state of the first. *)
Lemma overlays_set_text_again st w st' w' :
  overlays_set_text st w = Ret st' w' ->
  forall w2, exists w3,
    overlays_set_text st' w2 = Ret st' w3 /\
    gcs_created (requests w3) = gcs_created (requests w2).
Proof.
  unfold overlays_set_text, _overlays_set_text.
  change (255 <? length (@nil ascii) + 1) with false. cbv iota.
  intros H w2. bind_ret H as ws' w1 H1.
  cbv [bind send ret] in H. inversion H; subst st' w'. clear H.
  cbn [wsetups input].
  destruct (update_each_again (overlays_set_text_at []) (wsetups st))
    with (w := w) (l' := ws') (w' := w1) (w2 := w2) as [w3 [H3 E3]].
  - apply Forall_forall. intros x _ w0 x' w0' Hb.
    exact (overlays_set_text_at_again _ _ _ _ _ Hb).
  - exact H1.
  - rewrite (bind_eq _ H3). cbv [bind send ret].
    eexists. split; [reflexivity|]. cbn [requests gcs_created]. exact E3.
Qed.

(** X7.  The state that [overlays_set_text] returns has the graphics
    contexts of its overlays: when [overlays_set_text] is called again on
    this state, in any world, and returns, the state it returns is the same
    and it has created no graphics context. *)
Theorem redrawing_creates_no_context st w st' w' w2 st2 w3 :
  overlays_set_text st w = Ret st' w' ->
  overlays_set_text st' w2 = Ret st2 w3 ->
  st2 = st' /\ gcs_created (requests w3) = gcs_created (requests w2).
Proof.
  intros H H2.
  destruct (overlays_set_text_again st w st' w' H w2) as [w4 [H4 E4]].
  rewrite H2 in H4. inversion H4; subst. split; [reflexivity | exact E4].
Qed.

Lemma redrawing_creates_no_context_witness :
  exists st' w' w3,
    overlays_set_text (state_of (sample_tracking ["a"; "b"]%char 3))
                      (world_of (sample_tracking ["a"; "b"]%char 3))
    = Ret st' w' /\
    length (gcs_created (requests w')) = 6 /\
    overlays_set_text st' w' = Ret st' w3 /\
    gcs_created (requests w3) = gcs_created (requests w').
Proof.
  eassert (H : overlays_set_text
                 (state_of (sample_tracking ["a"; "b"]%char 3))
                 (world_of (sample_tracking ["a"; "b"]%char 3))
               = Ret _ _) by (vm_compute; reflexivity).
  match type of H with
  | _ = Ret ?st1 ?w1 =>
      eassert (H2 : overlays_set_text st1 w1 = Ret _ _)
        by (vm_compute; reflexivity);
      destruct (redrawing_creates_no_context _ _ _ _ _ _ _ H H2) as [E2 E3]
  end.
  eexists _, _, _. split; [exact H|].
  split; [vm_compute; reflexivity|].
  split; [exact H2 | exact E3].
Defined.

Lemma freed_nil w : freed w [] [] w.
Proof. unfold freed. now rewrite !app_nil_r. Qed.

Lemma freed_trans w1 d1 g1 w2 d2 g2 w3 :
  freed w1 d1 g1 w2 -> freed w2 d2 g2 w3 ->
  freed w1 (d1 ++ d2) (g1 ++ g2) w3.
Proof.
  intros [Hd1 [Hg1 [Hc1 [Hn1 [Hs1 Hi1]]]]] [Hd2 [Hg2 [Hc2 [Hn2 [Hs2 Hi2]]]]].
  unfold freed. rewrite Hd2, Hd1, Hg2, Hg1, !app_assoc.
  repeat split; congruence.
Qed.

Lemma for_each_freed body l :
  Forall (fun x => forall w, exists w',
              body x w = Ret tt w' /\ freed w (handles x) (gcs x) w') l ->
  forall w, exists w',
    for_each body l w = Ret tt w' /\
    freed w (flat_map handles l) (flat_map gcs l) w'.
Proof.
  induction 1 as [|x l Hx _ IH]; intros w.
  - exists w. split; [reflexivity | apply freed_nil].
  - cbn [for_each flat_map].
    destruct (Hx w) as [w1 [Hb Hw1]]. rewrite (bind_eq _ Hb).
    destruct (IH w1) as [w2 [Hl Hw2]].
    exists w2. split; [exact Hl|].
    eapply freed_trans; eassumption.
Qed.

(** X8.  [wsetup_free] returns on every structure, and by then it has
    destroyed every overlay window held in the structure and freed every
    graphics context held in it, each once: for a structure its overlay,
    the context of its background and the context of its text, then the
    same for its children in their order.  It creates and prints
    nothing. *)
Theorem freeing_releases_windows_and_contexts : forall x w, exists w',
  wsetup_free x w = Ret tt w' /\ freed w (handles x) (gcs x) w'.
Proof.
  induction x as [ow fg bg r win c ch IH] using wsetup_ind. intros w.
  cbn [wsetup_free overlay_window overlay_bg_gc overlay_font_gc children
       handles gcs].
  assert (H1 : exists w1,
    match ow with
    | Some w0 => send (DestroyWindow w0)
    | None => ret tt
    end w = Ret tt w1 /\ freed w (opt_list ow) [] w1).
  { destruct ow; eexists; (split; [reflexivity|]).
    - unfold freed. cbn. now rewrite app_nil_r.
    - apply freed_nil. }
  destruct H1 as [w1 [H1 Hw1]]. rewrite (bind_eq _ H1).
  assert (H2 : exists w2,
    match bg with Some gc => send (FreeGC gc) | None => ret tt end w1
    = Ret tt w2 /\ freed w1 [] (opt_list bg) w2).
  { destruct bg; eexists; (split; [reflexivity|]).
    - unfold freed. cbn. now rewrite app_nil_r.
    - apply freed_nil. }
  destruct H2 as [w2 [H2 Hw2]]. rewrite (bind_eq _ H2).
  assert (H3 : exists w3,
    match fg with Some gc => send (FreeGC gc) | None => ret tt end w2
    = Ret tt w3 /\ freed w2 [] (opt_list fg) w3).
  { destruct fg; eexists; (split; [reflexivity|]).
    - unfold freed. cbn. now rewrite app_nil_r.
    - apply freed_nil. }
  destruct H3 as [w3 [H3 Hw3]]. rewrite (bind_eq _ H3).
  destruct (for_each_freed wsetup_free ch IH w3) as [w4 [H4 Hw4]].
  rewrite (bind_eq _ H4).
  eexists. split; [reflexivity|].
  pose proof (freed_trans _ _ _ _ _ _ _ Hw1
                (freed_trans _ _ _ _ _ _ _ Hw2
                   (freed_trans _ _ _ _ _ _ _ Hw3 Hw4))) as Hr.
  cbn [app] in Hr. exact Hr.
Qed.

(** * No window to track *)

Lemma no_window_tracking gg state depth w :
  1 <= ksl_size (input state) ->
  _initialise_window_tracking gg state depth [] w = Ret [] w.
Proof.
  intros Hk. destruct depth as [|depth]; cbn [_initialise_window_tracking].
  - reflexivity.
  - destruct (ksl_size (input state)) as [|k] eqn:Ek; [lia|].
    cbn [length]. rewrite Nat.Div0.div_0_l, Nat.Div0.mod_0_l.
    reflexivity.
Qed.

(** X9.  With valid arguments and no window to track, the process exits
    with status 0 before it handles any event: nothing is printed and no
    request is sent. *)
Theorem no_window_exits_at_once
    get_geometry log characters f events w parsed w0 depth :
  parse_args characters f w = Ret parsed w0 ->
  tracking_depth log 0 (ksl_size parsed) = Some depth ->
  main get_geometry log characters f [] events w = Exit 0 w.
Proof.
  intros Hp Hd. unfold main. rewrite (bind_eq _ Hp).
  apply parse_args_Ret in Hp. destruct Hp as [-> [_ Hk]].
  unfold initialise_window_tracking. cbn [length input]. rewrite Hd.
  unfold bind.
  rewrite (no_window_tracking get_geometry (mk_state parsed []) depth w)
    by (cbn [input]; lia).
  reflexivity.
Qed.

Lemma no_window_exits_at_once_witness :
  main sample_geometry sample_log (Some ["a"; "b"]%char) FORMAT_DEC []
       [KeyPress 97%Z] initial_world = Exit 0 initial_world.
Proof.
  apply (no_window_exits_at_once sample_geometry sample_log
           (Some ["a"; "b"]%char) FORMAT_DEC [KeyPress 97%Z] initial_world
           (mk_input (keys ["a"; "b"]%char) FORMAT_DEC) initial_world 0).
  - reflexivity.
  - vm_compute. reflexivity.
Defined.

(** * Where the overlays are put *)

Lemma placed_nil gg w : placed gg [] w w.
Proof.
  exists []. cbn. rewrite Z.add_0_r, !app_nil_r. auto.
Qed.

Lemma placed_app gg g rest w w1 w' :
  placed gg g w w1 -> placed gg rest w1 w' -> placed gg (g ++ rest) w w'.
Proof.
  intros [geo1 [Hg1 [Hn1 [Hc1 Hm1]]]] [geo2 [Hg2 [Hn2 [Hc2 Hm2]]]].
  exists (geo1 ++ geo2). rewrite !map_app, length_app, Nat2Z.inj_add.
  rewrite ids_app, <- Hn1.
  split; [now rewrite Hg1, Hg2|]. split; [lia|]. split.
  - rewrite Hc2, Hc1, <- app_assoc. f_equal. symmetry. apply combine_app.
    unfold ids. rewrite !length_map, length_seq.
    apply (f_equal (@length _)) in Hg1. now rewrite !length_map in Hg1.
  - now rewrite Hm2, Hm1, <- app_assoc.
Qed.

Lemma initialise_window_setup_placed gg state win c w x w1 :
  initialise_window_setup gg state win c w = Ret x w1 ->
  placed gg [win] w w1.
Proof.
  unfold initialise_window_setup.
  destruct (gg win) as [ggr|] eqn:E; [|discriminate].
  cbv [bind ret overlay_create xcb_generate_id send]. intros H.
  injection H as _ <-. exists [ggr]. cbn [map]. rewrite E.
  split; [reflexivity|]. split; [reflexivity|].
  cbn. rewrite Z.add_0_r. now split.
Qed.

Lemma tracking_leaves_placed gg state : forall windows i w ws w',
  tracking_leaves gg state i windows w = Ret ws w' ->
  placed gg windows w w'.
Proof.
  induction windows as [|win rest IH]; intros i w ws w' H;
    cbn [tracking_leaves] in H.
  - inversion H. apply placed_nil.
  - bind_ret H as c w1 Hc. bind_ret H as x w2 Hx. bind_ret H as l w3 Hl.
    inversion H; subst. unfold ksl_char in Hc.
    destruct (nth_error _ _); [|discriminate]. inversion Hc; subst.
    change (win :: rest) with ([win] ++ rest). eapply placed_app.
    + eapply initialise_window_setup_placed; eassumption.
    + eapply IH; eassumption.
Qed.

Lemma firstn_plus {A} n m : forall l : list A,
  firstn (n + m) l = firstn n l ++ firstn m (skipn n l).
Proof.
  induction n as [|n IH]; intros l; [reflexivity|].
  destruct l as [|a l]; cbn [Nat.add firstn skipn app].
  - now rewrite firstn_nil.
  - now rewrite IH.
Qed.

Lemma tracking_groups_placed gg descend state p r :
  (forall g w ws w', descend g w = Ret ws w' -> placed gg g w w') ->
  forall todo i remain w ws w',
    tracking_groups gg descend state p r todo i remain w = Ret ws w' ->
    placed gg (firstn (list_sum (group_sizes p r i todo)) remain) w w'.
Proof.
  intros Hd. induction todo as [|todo IH]; intros i remain w ws w' H.
  - cbn in H. inversion H. apply placed_nil.
  - rewrite group_sizes_S. cbn [list_sum fold_right]. rewrite firstn_plus.
    cbn [tracking_groups] in H.
    bind_ret H as x w1 Hx. bind_ret H as l w2 Hl. inversion H; subst.
    eapply placed_app; [|eapply IH; eassumption].
    destruct ((if i <? r then p + 1 else p) =? 1) eqn:E1.
    + apply Nat.eqb_eq in E1. rewrite E1.
      destruct remain as [|win rest]; [discriminate|].
      bind_ret Hx as c w0 Hc. unfold ksl_char in Hc.
      destruct (nth_error _ _); [|discriminate]. inversion Hc; subst.
      eapply initialise_window_setup_placed; eassumption.
    + bind_ret Hx as chn w0 Hch. bind_ret Hx as c w3 Hc.
      unfold ksl_char in Hc.
      destruct (nth_error _ _); [|discriminate]. inversion Hc; subst.
      inversion Hx; subst. eapply Hd; eassumption.
Qed.

Lemma _initialise_window_tracking_placed gg state :
  forall depth windows w ws w',
    _initialise_window_tracking gg state depth windows w = Ret ws w' ->
    placed gg windows w w'.
Proof.
  induction depth as [|depth IH]; intros windows w ws w' H;
    cbn [_initialise_window_tracking] in H.
  - eapply tracking_leaves_placed; eassumption.
  - destruct (ksl_size (input state)) as [|k] eqn:Ek; [discriminate|].
    apply (tracking_groups_placed gg _ state _ _ IH) in H.
    rewrite group_sizes_total in H by lia.
    now rewrite firstn_all in H.
Qed.

(** X10.  When [initialise_window_tracking] returns, every window given
    has a geometry, and for the windows in their order the overlays have
    the XIDs that follow each other from the next one: these are the
    overlays held in the structure, and each was put on its window, inside
    the border and with the width and the height of the window, and
    mapped. *)
Theorem overlays_are_put_on_their_windows
    get_geometry log state windows w st w' :
  initialise_window_tracking get_geometry log state windows w = Ret st w' ->
  flat_map tracked (wsetups st) = windows /\
  flat_map handles (wsetups st) = ids (next_id w) (length windows) /\
  exists geometries,
    map get_geometry windows = map Some geometries /\
    configured (requests w') =
      configured (requests w) ++
      combine (ids (next_id w) (length windows))
              (map overlay_place geometries) /\
    mapped (requests w') =
      mapped (requests w) ++ ids (next_id w) (length windows).
Proof.
  intros H. apply initialise_window_tracking_Ret in H.
  destruct H as [depth [_ [_ H]]].
  pose proof (_initialise_window_tracking_placed _ _ _ _ _ _ _ H)
    as [geometries [Hg [_ [Hc Hm]]]].
  apply _initialise_window_tracking_built in H. destruct H as [Hb _].
  split; [now destruct Hb|]. split; [now destruct Hb|].
  exists geometries. auto.
Qed.

Lemma overlays_are_put_on_their_windows_witness :
  exists st w',
    initialise_window_tracking sample_geometry sample_log
      (initial_state ["a"; "b"]%char) (sample_windows 3) initial_world
    = Ret st w' /\
    flat_map tracked (wsetups st) = [1; 2; 3]%Z /\
    flat_map handles (wsetups st) = [100; 101; 102]%Z /\
    configured (requests w') =
      [(100, (1, 1, 640, 480)); (101, (1, 1, 640, 480));
       (102, (1, 1, 640, 480))]%Z.
Proof.
  eassert (H : initialise_window_tracking sample_geometry sample_log
                 (initial_state ["a"; "b"]%char) (sample_windows 3)
                 initial_world = Ret _ _) by (vm_compute; reflexivity).
  destruct (overlays_are_put_on_their_windows _ _ _ _ _ _ _ H)
    as [Ht [Hh _]].
  eexists _, _. split; [exact H|]. split; [exact Ht|]. split; [exact Hh|].
  vm_compute. reflexivity.
Defined.

(** * The keyboard grab *)




(** * The windows that are tracked *)

Lemma xorg_window_managed_In window managed_windows :
  xorg_window_managed window managed_windows = true <->
  In window managed_windows.
Proof.
  induction managed_windows as [|m rest IH];
    cbn [xorg_window_managed In]; [split; [discriminate|contradiction]|].
  destruct (Z.eqb_spec m window) as [E|E].
  - split; auto.
  - rewrite IH. split; [auto|]. intros [H|H]; [contradiction|exact H].
Qed.

Lemma xorg_contains_window_In windows window :
  xorg_contains_window windows window = true <-> In window windows.
Proof.
  induction windows as [|x rest IH];
    cbn [xorg_contains_window In]; [split; [discriminate|contradiction]|].
  destruct (Z.eqb_spec x window) as [E|E].
  - split; auto.
  - rewrite IH. split; [auto|]. intros [H|H]; [contradiction|exact H].
Qed.

(** The tests that ask the server nothing: the window is managed if the
    window manager tells which windows are, it is on the whitelist if there
    is one, and it is not on the blacklist. *)
Lemma listed_In options managed window :
  listed options managed window = true <->
  (forall m, managed = Some m -> In window m) /\
  (whitelist options = [] \/ In window (whitelist options)) /\
  ~ In window (blacklist options).
Proof.
  unfold listed. rewrite !andb_true_iff, orb_true_iff, !negb_true_iff.
  rewrite Nat.eqb_eq, length_zero_iff_nil, xorg_contains_window_In.
  assert (Hb : xorg_contains_window (blacklist options) window = false <->
               ~ In window (blacklist options))
    by (rewrite <- not_true_iff_false; now rewrite xorg_contains_window_In).
  rewrite Hb.
  assert (Hm : match managed with
               | Some managed_windows =>
                   negb (xorg_window_managed window managed_windows)
               | None => false
               end = false <->
               forall m, managed = Some m -> In window m).
  { destruct managed as [m|].
    - rewrite negb_false_iff, xorg_window_managed_In. split.
      + intros H m' E. now inversion E; subst.
      + intros H. now apply H.
    - split; [discriminate | reflexivity]. }
  rewrite Hm. tauto.
Qed.

(** The tests of one iteration of the loop of [initialise_tracked_windows],
    by what the server says of the window. *)
Lemma select_step display options managed window w :
  (if listed options managed window then
     normal <- xorg_window_normal (xcon display) window ;;
     if normal : bool then ewmh_window_normal display window
     else ret false
   else ret false) w =
  if listed options managed window then
    match get_window_attributes_reply (xcon display) window with
    | None => Exit EX_SOFTWARE w
    | Some _ =>
        if viewable (xcon display) window then
          match get_property_reply (xcon display) window
                  (_NET_WM_WINDOW_TYPE (ewmh display)) XCB_ATOM_ATOM 1 with
          | None => Exit EX_SOFTWARE w
          | Some [] => Ret true w
          | Some (_ :: _) => Undef
          end
        else Ret false w
    end
  else Ret false w.
Proof.
  destruct (listed options managed window); [|reflexivity].
  unfold bind, xorg_window_normal, ewmh_window_normal, viewable.
  destruct (get_window_attributes_reply (xcon display) window) as [gwar|];
    [|reflexivity].
  cbn [ret].
  destruct ((map_state gwar =? XCB_MAP_STATE_VIEWABLE)%Z &&
            (override_redirect gwar =? 0)%Z); [|reflexivity].
  destruct (get_property_reply (xcon display) window _ _ _) as [[|t l]|];
    reflexivity.
Qed.

Lemma select_windows_Ret display options managed :
  forall all_windows w windows w',
    select_windows display options managed all_windows w = Ret windows w' ->
    w' = w /\ windows = eligible display options managed all_windows /\
    answers_for display options managed all_windows.
Proof.
  unfold eligible, answers_for.
  induction all_windows as [|window rest IH]; intros w windows w' H;
    cbn [select_windows filter] in H |- *.
  - inversion H. split; [reflexivity|]. split; [reflexivity|].
    intros x [].
  - bind_ret H as keep w1 Hk. bind_ret H as l w2 Hl.
    inversion H; subst. clear H.
    apply IH in Hl. destruct Hl as [-> [-> Hrest]].
    rewrite select_step in Hk.
    assert (Hkeep :
      w1 = w /\
      keep = listed options managed window &&
             viewable (xcon display) window && untyped display window /\
      (listed options managed window = true ->
       get_window_attributes_reply (xcon display) window <> None /\
       (viewable (xcon display) window = true ->
        untyped display window = true))).
    { unfold untyped.
      destruct (listed options managed window); cbn [andb].
      2:{ inversion Hk. repeat split; auto; discriminate. }
      destruct (get_window_attributes_reply (xcon display) window)
        as [gwar|]; [|discriminate].
      destruct (viewable (xcon display) window); cbn [andb].
      2:{ inversion Hk. repeat split; auto; discriminate. }
      destruct (get_property_reply (xcon display) window _ _ _)
        as [[|t l]|]; [|discriminate|discriminate].
      inversion Hk. repeat split; auto. discriminate. }
    destruct Hkeep as [-> [-> Hw]].
    split; [reflexivity|]. split; [reflexivity|].
    intros x [<-|Hx]; [exact Hw | now apply Hrest].
Qed.

Lemma xorg_get_managed_windows_silent display : silent
  (xorg_get_managed_windows display).
Proof.
  intros w. unfold xorg_get_managed_windows, bind, xorg_window_has_property.
  destruct (list_properties_reply _ _) as [props|]; [|reflexivity].
  cbn [ret]. destruct (has_atom props _); [|reflexivity].
  destruct (get_property_reply _ _ _ _ _); reflexivity.
Qed.

Lemma xorg_get_managed_windows_outcome display w :
  match xorg_get_managed_windows display w with
  | Ret _ w' => w' = w
  | Exit code w' => code = EX_SOFTWARE /\ w' = w
  | Undef => False
  end.
Proof.
  unfold xorg_get_managed_windows, bind, xorg_window_has_property.
  destruct (list_properties_reply _ _) as [props|]; [|now split].
  cbn [ret]. destruct (has_atom props _); [|reflexivity].
  destruct (get_property_reply _ _ _ _ _); [reflexivity | now split].
Qed.

Lemma initialise_tracked_windows_Ret display options w windows w' :
  initialise_tracked_windows display options w = Ret windows w' ->
  w' = w /\
  exists all_windows managed,
    query_tree_reply (xcon display) (xroot display) = Some all_windows /\
    xorg_get_managed_windows display w = Ret managed w /\
    windows = eligible display options managed all_windows /\
    answers_for display options managed all_windows.
Proof.
  intros H. unfold initialise_tracked_windows in H.
  bind_ret H as all_windows w1 Ha. bind_ret H as managed w2 Hm.
  unfold xorg_get_windows in Ha.
  destruct (query_tree_reply (xcon display) (xroot display)) as [tree|] eqn:Et;
    [|discriminate].
  inversion Ha; subst. clear Ha.
  pose proof (xorg_get_managed_windows_silent display w1) as Hs.
  rewrite Hm in Hs. subst w2.
  apply select_windows_Ret in H. destruct H as [-> [-> Hans]].
  split; [reflexivity|]. exists all_windows, managed. auto.
Qed.

Lemma eligible_In display options managed all_windows window :
  In window (eligible display options managed all_windows) ->
  In window all_windows /\
  (forall m, managed = Some m -> In window m) /\
  (whitelist options = [] \/ In window (whitelist options)) /\
  ~ In window (blacklist options) /\
  viewable (xcon display) window = true /\
  untyped display window = true.
Proof.
  intros Hin. unfold eligible in Hin. apply filter_In in Hin.
  destruct Hin as [Hin Ht]. rewrite !andb_true_iff in Ht.
  destruct Ht as [[Hl Hv] Hap]. apply listed_In in Hl. tauto.
Qed.

(** X12.  When [initialise_tracked_windows] returns, it has changed nothing
    in the world, and the windows it returns are the children of the root
    window, in the order of the reply, that pass every test: those that the
    window manager manages if it tells which, that are on the whitelist if
    there is one, that are not on the blacklist, that are viewable without
    overridden redirection, and whose [_NET_WM_WINDOW_TYPE] holds nothing.
    It returns only when no child that passes the tests before has a window
    type: each child that passes the tests of the lists has attributes, and
    if it is viewable its [_NET_WM_WINDOW_TYPE] holds nothing. *)
Theorem tracked_windows_pass_every_test display options w windows w' :
  initialise_tracked_windows display options w = Ret windows w' ->
  w' = w /\
  exists all_windows managed,
    query_tree_reply (xcon display) (xroot display) = Some all_windows /\
    xorg_get_managed_windows display w = Ret managed w /\
    windows = eligible display options managed all_windows /\
    (forall window,
        In window windows ->
        In window all_windows /\
        (forall m, managed = Some m -> In window m) /\
        (whitelist options = [] \/ In window (whitelist options)) /\
        ~ In window (blacklist options) /\
        viewable (xcon display) window = true /\
        untyped display window = true) /\
    (forall window,
        In window all_windows ->
        listed options managed window = true ->
        get_window_attributes_reply (xcon display) window <> None /\
        (viewable (xcon display) window = true ->
         untyped display window = true)).
Proof.
  intros H. apply initialise_tracked_windows_Ret in H.
  destruct H as [-> [all_windows [managed [Ht [Hm [-> Hans]]]]]].
  split; [reflexivity|]. exists all_windows, managed.
  split; [exact Ht|]. split; [exact Hm|]. split; [reflexivity|].
  split; [|exact Hans].
  intros window Hin.
  exact (eligible_In display options managed all_windows window Hin).
Qed.

Lemma tracked_windows_pass_every_test_witness :
  initialise_tracked_windows sample_display (mk_options [2%Z] [] 0%Z None)
    initial_world = Ret [1%Z] initial_world /\
  eligible sample_display (mk_options [2%Z] [] 0%Z None)
           (Some [1; 2; 3; 4]%Z) [1; 2; 3; 4; 5]%Z = [1%Z].
Proof.
  destruct (tracked_windows_pass_every_test sample_display
              (mk_options [2%Z] [] 0%Z None) initial_world [1%Z] initial_world
              eq_refl) as [_ [all_windows [managed [Ht [Hm [He _]]]]]].
  split; [reflexivity|].
  inversion Ht; subst. inversion Hm; subst. symmetry. exact He.
Defined.

Lemma select_windows_total display options managed :
  forall all_windows w,
    answers_for display options managed all_windows ->
    select_windows display options managed all_windows w =
    Ret (eligible display options managed all_windows) w.
Proof.
  unfold eligible.
  induction all_windows as [|window rest IH]; intros w Hans;
    cbn [select_windows filter]; [reflexivity|].
  assert (Hrest : answers_for display options managed rest).
  { intros x Hx. apply Hans. now right. }
  specialize (Hans window (or_introl eq_refl)).
  unfold bind at 1. rewrite select_step. unfold untyped in *.
  destruct (listed options managed window); cbn [andb].
  - destruct Hans as [Hattr Htype]; [reflexivity|].
    destruct (get_window_attributes_reply (xcon display) window)
      as [gwar|]; [|congruence].
    destruct (viewable (xcon display) window); cbn [andb].
    + specialize (Htype eq_refl).
      destruct (get_property_reply (xcon display) window _ _ _)
        as [[|t l]|]; [|discriminate|discriminate].
      unfold bind, ret. now rewrite IH.
    + unfold bind, ret. now rewrite IH.
  - unfold bind, ret. now rewrite IH.
Qed.

(** The loop reads freed memory at the first window that has a type among
    those that pass the tests before. *)
Lemma select_windows_Undef display options managed window after :
  forall before w,
    answers_for display options managed before ->
    read_after_free display options managed window = true ->
    select_windows display options managed (before ++ window :: after) w
    = Undef.
Proof.
  induction before as [|x before IH]; intros w Hans Hbad.
  - cbn [app select_windows]. unfold bind at 1. rewrite select_step.
    unfold read_after_free, typed in Hbad.
    rewrite !andb_true_iff in Hbad. destruct Hbad as [[Hl Hv] Ht].
    rewrite Hl, Hv. unfold viewable in Hv.
    destruct (get_window_attributes_reply (xcon display) window);
      [|discriminate].
    destruct (get_property_reply (xcon display) window _ _ _)
      as [[|t l]|]; [discriminate|reflexivity|discriminate].
  - cbn [app select_windows].
    assert (Hrest : answers_for display options managed before).
    { intros y Hy. apply Hans. now right. }
    pose proof (select_windows_total display options managed [x] w) as Hx.
    cbn [select_windows] in Hx.
    assert (H1 : answers_for display options managed [x]).
    { intros y [<-|[]]. apply Hans. now left. }
    specialize (Hx H1). unfold bind at 1 in Hx. unfold bind at 1.
    destruct (if listed options managed x then _ else _) as [k w1|c w1|];
      [|discriminate|discriminate].
    cbv [bind ret] in Hx. inversion Hx; subst.
    unfold bind. now rewrite IH.
Qed.

Lemma select_windows_outcome display options managed :
  forall all_windows w,
    match select_windows display options managed all_windows w with
    | Ret _ w' => w' = w
    | Exit code w' => code = EX_SOFTWARE /\ w' = w
    | Undef =>
        exists window,
          In window all_windows /\
          read_after_free display options managed window = true
    end.
Proof.
  induction all_windows as [|window rest IH]; intros w;
    cbn [select_windows]; [reflexivity|].
  unfold bind at 1. rewrite select_step.
  unfold read_after_free, typed.
  destruct (listed options managed window) eqn:El.
  - destruct (get_window_attributes_reply (xcon display) window)
      as [gwar|] eqn:Eg; [|now split].
    destruct (viewable (xcon display) window) eqn:Ev.
    + destruct (get_property_reply (xcon display) window _ _ _)
        as [[|t l]|] eqn:Ep; [| |now split].
      * unfold bind. specialize (IH w).
        destruct (select_windows display options managed rest w); auto.
        destruct IH as [x [Hx Hb]]. exists x. split; [now right|exact Hb].
      * exists window. split; [now left|]. now rewrite El, Ev, Ep.
    + unfold bind. specialize (IH w).
      destruct (select_windows display options managed rest w); auto.
      destruct IH as [x [Hx Hb]]. exists x. split; [now right|exact Hb].
  - unfold bind. specialize (IH w).
    destruct (select_windows display options managed rest w); auto.
    destruct IH as [x [Hx Hb]]. exists x. split; [now right|exact Hb].
Qed.

Lemma initialise_tracked_windows_outcome display options w :
  match initialise_tracked_windows display options w with
  | Ret _ w' => w' = w
  | Exit code w' => code = EX_SOFTWARE /\ w' = w
  | Undef =>
      exists all_windows managed window,
        query_tree_reply (xcon display) (xroot display) = Some all_windows /\
        xorg_get_managed_windows display w = Ret managed w /\
        In window all_windows /\
        read_after_free display options managed window = true
  end.
Proof.
  unfold initialise_tracked_windows, xorg_get_windows. unfold bind at 1.
  destruct (query_tree_reply _ _) as [all_windows|]; [|now split].
  cbn [ret]. unfold bind.
  pose proof (xorg_get_managed_windows_outcome display w) as Hs.
  destruct (xorg_get_managed_windows display w) as [managed w1|code w1|]
    eqn:Hm; [|exact Hs|contradiction].
  subst w1.
  pose proof (select_windows_outcome display options managed all_windows w)
    as Ho.
  destruct (select_windows display options managed all_windows w);
    [exact Ho|exact Ho|].
  destruct Ho as [window [Hin Hb]]. exists all_windows, managed, window.
  auto.
Qed.

(** X13.  [initialise_tracked_windows] changes nothing in the world, and
    when it ends the process the status is 70.  It returns when the server
    answers what is asked and no window whose type is asked for has one: the
    children and the properties of the root window, the value of
    [_NET_CLIENT_LIST] when the root window has it, the attributes of every
    child that passes the tests of the lists, and an empty
    [_NET_WM_WINDOW_TYPE] for those that are viewable.  Its behaviour is
    undefined when a child that passes the tests of the lists and is
    viewable has a window type, and the children before it are answered as
    said: the type is read from the reply after the reply was freed.  It is
    undefined only when there is such a child.  What a window that fails
    the tests of the lists would be answered does not matter. *)
Theorem tracked_windows_or_failure display options w :
  match initialise_tracked_windows display options w with
  | Ret _ w' => w' = w
  | Exit code w' => code = EX_SOFTWARE /\ w' = w
  | Undef =>
      exists all_windows managed window,
        query_tree_reply (xcon display) (xroot display) = Some all_windows /\
        xorg_get_managed_windows display w = Ret managed w /\
        In window all_windows /\
        read_after_free display options managed window = true
  end /\
  forall all_windows managed,
    query_tree_reply (xcon display) (xroot display) = Some all_windows ->
    xorg_get_managed_windows display w = Ret managed w ->
    (answers_for display options managed all_windows ->
     initialise_tracked_windows display options w =
     Ret (eligible display options managed all_windows) w) /\
    (forall before window after,
        all_windows = before ++ window :: after ->
        answers_for display options managed before ->
        read_after_free display options managed window = true ->
        initialise_tracked_windows display options w = Undef).
Proof.
  split; [apply initialise_tracked_windows_outcome|].
  intros all_windows managed Ht Hm.
  assert (E : initialise_tracked_windows display options w =
              select_windows display options managed all_windows w).
  { unfold initialise_tracked_windows, xorg_get_windows. rewrite Ht.
    unfold bind at 1. cbn [ret]. now rewrite (bind_eq _ Hm). }
  rewrite E. split.
  - intros Hans. now apply select_windows_total.
  - intros before window after -> Hans Hbad.
    now apply select_windows_Undef.
Qed.

Lemma tracked_windows_or_failure_witness :
  initialise_tracked_windows sample_display (mk_options [] [4; 5]%Z 0%Z None)
    initial_world = Ret [] initial_world /\
  initialise_tracked_windows sample_display (mk_options [] [] 0%Z None)
    initial_world = Undef.
Proof.
  split.
  - refine (proj1 (proj2 (tracked_windows_or_failure sample_display
                            (mk_options [] [4; 5]%Z 0%Z None) initial_world)
                         [1; 2; 3; 4; 5]%Z (Some [1; 2; 3; 4]%Z)
                         eq_refl eq_refl) _).
    intros window Hin Hl. cbn [In] in Hin.
    repeat (destruct Hin as [Hin|Hin];
            [subst window; vm_compute in Hl;
             first [discriminate Hl
                   | vm_compute; split; [discriminate | auto]]|]).
    contradiction.
  - refine (proj2 (proj2 (tracked_windows_or_failure sample_display
                            (mk_options [] [] 0%Z None) initial_world)
                         [1; 2; 3; 4; 5]%Z (Some [1; 2; 3; 4]%Z)
                         eq_refl eq_refl)
                  [1%Z] 2%Z [3; 4; 5]%Z eq_refl _ eq_refl).
    intros window [<-|[]] _. vm_compute. split; [discriminate|reflexivity].
Defined.

(** * The command line *)

Lemma values_of_cons k key v rest :
  values_of k ((key, v) :: rest) =
  if (key =? k)%Z then v :: values_of k rest else values_of k rest.
Proof.
  unfold values_of. cbn [filter fst]. now destruct (key =? k)%Z.
Qed.

Lemma parse_arg_window_list_Ret strtol window_id windows w windows' w' :
  parse_arg_window_list strtol window_id windows w = Ret windows' w' ->
  w' = w /\ valid_window_id strtol window_id /\
  windows' = windows ++ [fst (strtol window_id)].
Proof.
  unfold parse_arg_window_list, valid_window_id, bind, argp_error, exit, ret.
  destruct (strtol window_id) as [window errno]. cbn [fst snd].
  destruct (Z.eqb_spec errno 0) as [He|He]; cbn [negb orb]; [|discriminate].
  destruct (Z.leb_spec window 0) as [Hl|Hl]; cbn [orb]; [discriminate|].
  destruct (Z.ltb_spec 4294967295 window) as [Hu|Hu]; [discriminate|].
  intros Hr. inversion Hr; subst. repeat split; auto; lia.
Qed.

Lemma parse_arg_format_Ret value input w input' w' :
  parse_arg_format value input w = Ret input' w' ->
  w' = w /\ exists f, format_of value = Some f /\
                      input' = mk_input (ksl input) f.
Proof.
  unfold parse_arg_format, format_of.
  destruct (str_equal value _).
  - intros H. inversion H. eauto.
  - destruct (str_equal value _); [|discriminate].
    intros H. inversion H. eauto.
Qed.

(** What a call of [parse_arg] that returns has done. *)
Lemma parse_arg_Ret strtol atoi key value arg_num input options w r w' :
  parse_arg strtol atoi key value arg_num input options w = Ret r w' ->
  w' = w /\
  ((key = 98%Z /\ fst r = 0%Z /\ fst (snd r) = input /\
    valid_window_id strtol value /\
    snd (snd r) = mk_options (blacklist options ++ [fst (strtol value)])
                             (whitelist options) (font_size options)
                             (font_path options)) \/
   (key = 119%Z /\ fst r = 0%Z /\ fst (snd r) = input /\
    valid_window_id strtol value /\
    snd (snd r) = mk_options (blacklist options)
                             (whitelist options ++ [fst (strtol value)])
                             (font_size options) (font_path options)) \/
   (key = 102%Z /\ fst r = 0%Z /\ snd (snd r) = options /\
    exists f, format_of value = Some f /\
              fst (snd r) = mk_input (ksl input) f) \/
   (key = 115%Z /\ fst r = 0%Z /\ fst (snd r) = input /\
    snd (snd r) = mk_options (blacklist options) (whitelist options)
                             (atoi value) (font_path options)) \/
   (key = 116%Z /\ fst r = 0%Z /\ fst (snd r) = input /\
    snd (snd r) = mk_options (blacklist options) (whitelist options)
                             (font_size options) (Some value)) \/
   (key = 0%Z /\ arg_num = 0 /\ fst r = 0%Z /\ snd (snd r) = options /\
    parse_arg_characters value input w = Ret (fst (snd r)) w) \/
   (fst r <> 0%Z /\ snd r = (input, options) /\
    (key = 0%Z -> arg_num <> 0) /\
    key <> 98%Z /\ key <> 119%Z /\ key <> 102%Z /\ key <> 115%Z /\
    key <> 116%Z)).
Proof.
  unfold parse_arg.
  change (option_key "b") with 98%Z. change (option_key "w") with 119%Z.
  change (option_key "f") with 102%Z. change (option_key "s") with 115%Z.
  change (option_key "t") with 116%Z. change ARGP_KEY_ARG with 0%Z.
  destruct (Z.eqb_spec key 98) as [->|Hb].
  { intros H. bind_ret H as ws w1 Hw. inversion H; subst.
    apply parse_arg_window_list_Ret in Hw. destruct Hw as [-> [Hv ->]].
    split; [reflexivity|]. left. cbn [fst snd]. auto. }
  destruct (Z.eqb_spec key 119) as [->|Hw].
  { intros H. bind_ret H as ws w1 Hw. inversion H; subst.
    apply parse_arg_window_list_Ret in Hw. destruct Hw as [-> [Hv ->]].
    split; [reflexivity|]. right. left. cbn [fst snd]. auto. }
  destruct (Z.eqb_spec key 102) as [->|Hf].
  { intros H. bind_ret H as i w1 Hi. inversion H; subst.
    apply parse_arg_format_Ret in Hi. destruct Hi as [-> [f [Hf ->]]].
    split; [reflexivity|]. right. right. left. cbn [fst snd]. eauto 6. }
  destruct (Z.eqb_spec key 115) as [->|Hs].
  { intros H. cbv [bind parse_arg_font_size ret] in H. inversion H; subst.
    split; [reflexivity|]. do 3 right. left. cbn [fst snd]. auto. }
  destruct (Z.eqb_spec key 116) as [->|Ht].
  { intros H. cbv [bind parse_arg_font_path ret] in H. inversion H; subst.
    split; [reflexivity|]. do 4 right. left. cbn [fst snd]. auto. }
  destruct (Z.eqb_spec key 0) as [->|Ha].
  { destruct (Nat.eqb_spec arg_num 0) as [->|Hn].
    - intros H. bind_ret H as i w1 Hi. inversion H; subst.
      pose proof Hi as Hi'. apply parse_arg_characters_Ret in Hi'.
      destruct Hi' as [-> _].
      split; [reflexivity|]. do 5 right. left. cbn [fst snd]. auto.
    - intros H. inversion H; subst. split; [reflexivity|]. do 6 right.
      cbn [fst snd]. repeat split; auto; discriminate. }
  intros H. inversion H; subst. split; [reflexivity|]. do 6 right.
  cbn [fst snd]. repeat split; auto; try discriminate.
Qed.

Lemma last_cons_default {A} (l : list A) a d : last (a :: l) d = last l a.
Proof.
  revert a. induction l as [|b l IH]; intros a; [reflexivity|].
  cbn [last] in *. destruct l; [reflexivity|]. apply IH.
Qed.

(** What the calls of [argp_parse] have done when it returns. *)
Lemma argp_parse_Ret strtol atoi :
  forall calls ending arg_num input options w r w',
    argp_parse strtol atoi calls ending arg_num input options w = Ret r w' ->
    w' = w /\
    blacklist (snd r) = blacklist options ++ window_ids strtol 98 calls /\
    whitelist (snd r) = whitelist options ++ window_ids strtol 119 calls /\
    Forall (valid_window_id strtol) (values_of 98 calls) /\
    Forall (valid_window_id strtol) (values_of 119 calls) /\
    (exists fs, map format_of (values_of 102 calls) = map Some fs /\
                format (fst r) = last fs (format input)) /\
    font_size (snd r) =
      last (map atoi (values_of 115 calls)) (font_size options) /\
    font_path (snd r) =
      last (map Some (values_of 116 calls)) (font_path options) /\
    ((values_of 0 calls = [] /\ ksl (fst r) = ksl input) \/
     (arg_num = 0 /\
      exists char_pool,
        values_of 0 calls = [char_pool] /\
        forallb known char_pool = true /\
        ksl (fst r) = map lookup (distinct_from [] char_pool) /\
        2 <= length (ksl (fst r)))).
Proof.
  unfold window_ids.
  induction calls as [|[key value] rest IH];
    intros ending arg_num input options w r w' H.
  - destruct ending; [|discriminate|discriminate].
    cbn in H. inversion H; subst. cbn [snd fst values_of filter map last].
    rewrite !app_nil_r. repeat split; auto. exists []. auto.
  - cbn [argp_parse] in H. bind_ret H as r1 w1 Hp.
    apply parse_arg_Ret in Hp. destruct Hp as [-> Hp].
    change ARGP_KEY_ARG with 0%Z in H.
    rewrite !values_of_cons.
    destruct Hp as [Hp|[Hp|[Hp|[Hp|[Hp|[Hp|Hp]]]]]].
    + destruct Hp as [-> [E0 [Ei [Hv Eo]]]]. rewrite E0, Ei, Eo in H.
      cbn [Z.eqb Pos.eqb] in H |- *. apply IH in H.
      destruct H as [-> [Hb [Hw [Fb [Fw [Hf [Hs [Ht Ha]]]]]]]].
      cbn [blacklist whitelist font_size font_path map] in *.
      rewrite Hb, <- app_assoc. repeat split; auto.
    + destruct Hp as [-> [E0 [Ei [Hv Eo]]]]. rewrite E0, Ei, Eo in H.
      cbn [Z.eqb Pos.eqb] in H |- *. apply IH in H.
      destruct H as [-> [Hb [Hw [Fb [Fw [Hf [Hs [Ht Ha]]]]]]]].
      cbn [blacklist whitelist font_size font_path map] in *.
      rewrite Hw, <- app_assoc. repeat split; auto.
    + destruct Hp as [-> [E0 [Eo [f [Hfo Ei]]]]]. rewrite E0, Ei, Eo in H.
      cbn [Z.eqb Pos.eqb] in H |- *. apply IH in H.
      destruct H as [-> [Hb [Hw [Fb [Fw [[fs [Hfs Hf]] [Hs [Ht Ha]]]]]]]].
      cbn [ksl format map] in *.
      repeat split; auto. exists (f :: fs). cbn [map].
      rewrite Hfo, Hfs. split; [reflexivity|].
      now rewrite last_cons_default.
    + destruct Hp as [-> [E0 [Ei Eo]]]. rewrite E0, Ei, Eo in H.
      cbn [Z.eqb Pos.eqb] in H |- *. apply IH in H.
      destruct H as [-> [Hb [Hw [Fb [Fw [Hf [Hs [Ht Ha]]]]]]]].
      cbn [blacklist whitelist font_size font_path map] in *.
      repeat split; auto. now rewrite last_cons_default.
    + destruct Hp as [-> [E0 [Ei Eo]]]. rewrite E0, Ei, Eo in H.
      cbn [Z.eqb Pos.eqb] in H |- *. apply IH in H.
      destruct H as [-> [Hb [Hw [Fb [Fw [Hf [Hs [Ht Ha]]]]]]]].
      cbn [blacklist whitelist font_size font_path map] in *.
      repeat split; auto. now rewrite last_cons_default.
    + destruct Hp as [-> [-> [E0 [Eo Hc]]]]. rewrite E0, Eo in H.
      cbn [Z.eqb Pos.eqb] in H |- *. apply IH in H.
      apply parse_arg_characters_Ret in Hc.
      destruct Hc as [_ [Hfmt [Hk [Hksl Hlen]]]].
      destruct H as [-> [Hb [Hw [Fb [Fw [[fs [Hfs Hf]] [Hs [Ht Ha]]]]]]]].
      repeat split; auto.
      * exists fs. split; [exact Hfs|]. now rewrite Hf, Hfmt.
      * right. split; [reflexivity|]. exists value.
        destruct Ha as [[Hnil Hk'] | [Hone _]]; [|discriminate].
        rewrite Hnil, Hk', Hksl. rewrite Hksl in Hlen. auto.
    + destruct Hp as [Hne [Er [Harg [Kb [Kw [Kf [Ks Kt]]]]]]].
      apply Z.eqb_neq in Hne. rewrite Hne, Er in H. cbn [fst snd] in H.
      apply Z.eqb_neq in Kb, Kw, Kf, Ks, Kt. rewrite Kb, Kw, Kf, Ks, Kt.
      destruct (Z.eqb_spec key 0) as [->|K0]; [discriminate|].
      now apply IH in H.
Qed.

(** X14.  When the command line is read ([parse_argv] returns), nothing
    was sent or printed, and the blacklist and the whitelist are the window
    ids given with [-b] and with [-w], each list in the order of the
    command line, as [strtol] reads them: [strtol] read each of them without
    an error, and each is a 32-bit XID other than 0. *)
Theorem window_lists_are_read strtol atoi calls ending w input options w' :
  parse_argv strtol atoi calls ending w = Ret (input, options) w' ->
  w' = w /\
  blacklist options = window_ids strtol (option_key "b") calls /\
  whitelist options = window_ids strtol (option_key "w") calls /\
  Forall (valid_window_id strtol)
         (values_of (option_key "b") calls ++
          values_of (option_key "w") calls) /\
  Forall (fun window => (0 < window <= 4294967295)%Z)
         (blacklist options ++ whitelist options).
Proof.
  intros H. unfold parse_argv in H. bind_ret H as r w1 Hp.
  apply argp_parse_Ret in Hp.
  destruct Hp as [-> [Hb [Hw [Fb [Fw _]]]]].
  destruct (ksl (fst r)); [discriminate|]. inversion H; subst.
  cbn [snd blacklist whitelist app] in *.
  change (option_key "b") with 98%Z. change (option_key "w") with 119%Z.
  split; [reflexivity|]. split; [exact Hb|]. split; [exact Hw|].
  split; [apply Forall_app; auto|].
  rewrite Hb, Hw. unfold window_ids. apply Forall_app.
  split; apply Forall_map; [revert Fb | revert Fw]; apply Forall_impl;
    intros id [_ Hid]; exact Hid.
Qed.

Lemma window_lists_are_read_witness :
  parse_argv sample_strtol sample_atoi sample_calls ARGP_END initial_world =
  Ret (mk_input (keys ["a"; "b"]%char) FORMAT_HEX,
       mk_options [2%Z] [] 0%Z None) initial_world /\
  window_ids sample_strtol (option_key "b") sample_calls = [2%Z].
Proof.
  destruct (window_lists_are_read sample_strtol sample_atoi sample_calls
              ARGP_END initial_world (mk_input (keys ["a"; "b"]%char) FORMAT_HEX)
              (mk_options [2%Z] [] 0%Z None) initial_world eq_refl)
    as [_ [Hb _]].
  split; [reflexivity|]. symmetry. exact Hb.
Defined.

(** X15.  When the command line is read, it has exactly one argument that
    is not an option, and the keys and the format returned are those that
    [parse_args] returns for this argument and the format; each value
    given with [-f] is [decimal] or [hexadecimal], and the format is the one
    given last, or decimal when none is given; the font size and the font
    path are those given last, or 0 and none. *)
Theorem one_argument_and_the_last_options
    strtol atoi calls ending w input options w' :
  parse_argv strtol atoi calls ending w = Ret (input, options) w' ->
  (exists char_pool,
      values_of ARGP_KEY_ARG calls = [char_pool] /\
      parse_args (Some char_pool) (format input) w = Ret input w) /\
  (exists fs,
      map format_of (values_of (option_key "f") calls) = map Some fs /\
      format input = last fs FORMAT_DEC) /\
  font_size options =
    last (map atoi (values_of (option_key "s") calls)) 0%Z /\
  font_path options =
    last (map Some (values_of (option_key "t") calls)) None.
Proof.
  intros H. unfold parse_argv in H. bind_ret H as r w1 Hp.
  apply argp_parse_Ret in Hp.
  destruct Hp as [-> [_ [_ [_ [_ [Hf [Hs [Ht Ha]]]]]]]].
  destruct (ksl (fst r)) as [|k l] eqn:Ek; [discriminate|].
  inversion H; subst. cbn [fst snd] in *. clear H.
  change (option_key "f") with 102%Z. change (option_key "s") with 115%Z.
  change (option_key "t") with 116%Z. change ARGP_KEY_ARG with 0%Z.
  split; [|auto].
  destruct Ha as [[_ Hnil] | [_ [char_pool [Hv [Hk [Hksl Hlen]]]]]];
    [discriminate|].
  exists char_pool. split; [exact Hv|].
  unfold parse_args, parse_arg_characters, bind.
  rewrite parse_characters_eq, Hk. cbn [app map].
  rewrite <- Hksl.
  destruct (Nat.ltb_spec (length (k :: l)) 2) as [Hlt|_]; [lia|].
  destruct input as [ks f]. cbn [ksl format] in *. now subst.
Qed.

Lemma one_argument_and_the_last_options_witness :
  parse_args (Some ["a"; "b"]%char) FORMAT_HEX initial_world =
  Ret (mk_input (keys ["a"; "b"]%char) FORMAT_HEX) initial_world.
Proof.
  destruct (one_argument_and_the_last_options sample_strtol sample_atoi
              sample_calls ARGP_END initial_world
              (mk_input (keys ["a"; "b"]%char) FORMAT_HEX)
              (mk_options [2%Z] [] 0%Z None) initial_world eq_refl)
    as [[char_pool [Hv Hp]] _].
  inversion Hv; subst. exact Hp.
Defined.

Lemma parse_arg_window_list_outcome strtol window_id windows w :
  match parse_arg_window_list strtol window_id windows w with
  | Ret _ w' => w' = w
  | Exit code w' => code = EX_USAGE /\ w' = w
  | Undef => False
  end.
Proof.
  unfold parse_arg_window_list, bind.
  destruct (strtol window_id) as [window errno].
  destruct (negb (errno =? 0)%Z || (window <=? 0)%Z ||
            (4294967295 <? window)%Z); cbn; auto.
Qed.

Lemma parse_arg_outcome strtol atoi key value arg_num input options w :
  match parse_arg strtol atoi key value arg_num input options w with
  | Ret _ w' => w' = w
  | Exit code w' => code = EX_USAGE /\ w' = w
  | Undef => False
  end.
Proof.
  unfold parse_arg.
  destruct (key =? option_key "b")%Z.
  { unfold bind.
    pose proof (parse_arg_window_list_outcome strtol value
                  (blacklist options) w) as H.
    destruct (parse_arg_window_list strtol value (blacklist options) w);
      auto. }
  destruct (key =? option_key "w")%Z.
  { unfold bind.
    pose proof (parse_arg_window_list_outcome strtol value
                  (whitelist options) w) as H.
    destruct (parse_arg_window_list strtol value (whitelist options) w);
      auto. }
  destruct (key =? option_key "f")%Z.
  { unfold bind, parse_arg_format.
    repeat destruct (str_equal value _); cbn; auto. }
  destruct (key =? option_key "s")%Z; [reflexivity|].
  destruct (key =? option_key "t")%Z; [reflexivity|].
  destruct (key =? ARGP_KEY_ARG)%Z; [|reflexivity].
  destruct (arg_num =? 0); [|reflexivity].
  unfold bind.
  pose proof (parse_arg_characters_outcome value input w) as H.
  destruct (parse_arg_characters value input w); auto.
Qed.

Lemma argp_parse_outcome strtol atoi :
  forall calls ending arg_num input options w,
    match argp_parse strtol atoi calls ending arg_num input options w with
    | Ret _ w' => w' = w /\ ending = ARGP_END
    | Exit code w' =>
        w' = w /\ (code = EX_USAGE \/ (code = 0%Z /\ ending = ARGP_SERVED))
    | Undef => False
    end.
Proof.
  induction calls as [|[key value] rest IH];
    intros ending arg_num input options w; cbn [argp_parse].
  - destruct ending; cbn; auto.
  - unfold bind.
    pose proof (parse_arg_outcome strtol atoi key value arg_num input
                  options w) as Hp.
    destruct (parse_arg strtol atoi key value arg_num input options w)
      as [r w1|code w1|]; [| |exact Hp].
    + subst w1. destruct (fst r =? 0)%Z; [apply IH|].
      destruct (key =? ARGP_KEY_ARG)%Z; [cbn; auto | apply IH].
    + destruct Hp as [-> ->]. auto.
Qed.

Lemma parse_argv_outcome strtol atoi calls ending w :
  match parse_argv strtol atoi calls ending w with
  | Ret _ w' => w' = w /\ ending = ARGP_END
  | Exit code w' =>
      w' = w /\ (code = EX_USAGE \/ (code = 0%Z /\ ending = ARGP_SERVED))
  | Undef => False
  end.
Proof.
  unfold parse_argv, bind.
  pose proof (argp_parse_outcome strtol atoi calls ending 0
                (mk_input [] FORMAT_DEC) (mk_options [] [] 0%Z None) w)
    as Hp.
  destruct (argp_parse _ _ _ _ _ _ _ _) as [r w1|code w1|];
    [|exact Hp|exact Hp].
  destruct Hp as [-> ->]. destruct (ksl (fst r)); cbn; auto.
Qed.

(** The calls are the same whatever ends them: when they are all accepted,
    the ending decides. *)
Lemma argp_parse_ending strtol atoi :
  forall calls arg_num input options w r w',
    argp_parse strtol atoi calls ARGP_END arg_num input options w
    = Ret r w' ->
    argp_parse strtol atoi calls ARGP_SERVED arg_num input options w
    = Exit 0 w /\
    argp_parse strtol atoi calls ARGP_REFUSED arg_num input options w
    = Exit EX_USAGE w.
Proof.
  induction calls as [|[key value] rest IH];
    intros arg_num input options w r w' H; cbn [argp_parse] in *.
  - split; reflexivity.
  - pose proof (parse_arg_outcome strtol atoi key value arg_num input
                  options w) as Hp.
    unfold bind in *.
    destruct (parse_arg strtol atoi key value arg_num input options w)
      as [r1 w1|code w1|]; [|discriminate|discriminate].
    subst w1. destruct (fst r1 =? 0)%Z; [now apply IH in H|].
    destruct (key =? ARGP_KEY_ARG)%Z; [discriminate | now apply IH in H].
Qed.

(** [argp_parse] serves an option of its own only after calls that are all
    accepted. *)
Lemma argp_parse_served strtol atoi :
  forall calls arg_num input options w,
    argp_parse strtol atoi calls ARGP_SERVED arg_num input options w
    = Exit 0 w ->
    exists r, argp_parse strtol atoi calls ARGP_END arg_num input options w
              = Ret r w.
Proof.
  induction calls as [|[key value] rest IH];
    intros arg_num input options w H; cbn [argp_parse] in *; [eauto|].
  pose proof (parse_arg_outcome strtol atoi key value arg_num input
                options w) as Hp.
  unfold bind in *.
  destruct (parse_arg strtol atoi key value arg_num input options w)
    as [r1 w1|code w1|]; [| |contradiction].
  - subst w1. destruct (fst r1 =? 0)%Z; [now apply IH|].
    destruct (key =? ARGP_KEY_ARG)%Z; [discriminate | now apply IH].
  - destruct Hp as [-> ->]. discriminate.
Qed.

(** A valid window id is added to the list. *)
Lemma parse_arg_window_list_total strtol window_id windows w :
  valid_window_id strtol window_id ->
  parse_arg_window_list strtol window_id windows w =
  Ret (windows ++ [fst (strtol window_id)]) w.
Proof.
  unfold parse_arg_window_list, valid_window_id, bind, ret.
  destruct (strtol window_id) as [window errno]. cbn [fst snd].
  intros [-> [Hl Hu]]. cbn [Z.eqb negb orb].
  destruct (Z.leb_spec window 0) as [H0|_]; [lia|]. cbn [orb].
  destruct (Z.ltb_spec 4294967295 window) as [H1|_]; [lia|]. reflexivity.
Qed.

(** The calls that are all accepted are all made. *)
Lemma argp_parse_total strtol atoi :
  forall calls arg_num input options w,
    accepted strtol calls ->
    arg_num = 0 \/ values_of ARGP_KEY_ARG calls = [] ->
    exists r, argp_parse strtol atoi calls ARGP_END arg_num input options w
              = Ret r w.
Proof.
  unfold accepted.
  change (option_key "b") with 98%Z. change (option_key "w") with 119%Z.
  change (option_key "f") with 102%Z. change ARGP_KEY_ARG with 0%Z.
  induction calls as [|[key value] rest IH];
    intros arg_num input options w [Hone [Hpool [Hids Hfmt]]] Hnum;
    cbn [argp_parse]; [eauto|].
  rewrite !values_of_cons in *.
  assert (Hrest : forall n,
             n = 0 \/ values_of 0 rest = [] ->
             forall i o, exists r,
               argp_parse strtol atoi rest ARGP_END n i o w = Ret r w).
  { intros n Hn i o. apply IH; [|exact Hn].
    split; [destruct (key =? 0)%Z; cbn [length] in Hone; lia|].
    split; [intros pool Hin; apply Hpool;
            destruct (key =? 0)%Z; [now right | exact Hin]|].
    split.
    - apply Forall_app in Hids. destruct Hids as [Hb Hw].
      apply Forall_app. split.
      + destruct (key =? 98)%Z; [now inversion Hb | exact Hb].
      + destruct (key =? 119)%Z; [now inversion Hw | exact Hw].
    - intros v Hin. apply Hfmt.
      destruct (key =? 102)%Z; [now right | exact Hin]. }
  unfold parse_arg.
  change (option_key "b") with 98%Z. change (option_key "w") with 119%Z.
  change (option_key "f") with 102%Z. change (option_key "s") with 115%Z.
  change (option_key "t") with 116%Z. change ARGP_KEY_ARG with 0%Z.
  apply Forall_app in Hids. destruct Hids as [Hb Hw].
  destruct (Z.eqb_spec key 98) as [->|Kb].
  { inversion Hb as [|? ? Hv _]; subst. unfold bind at 1 2.
    rewrite (parse_arg_window_list_total strtol _ _ _ Hv).
    cbn [ret fst snd Z.eqb Pos.eqb]. apply Hrest. exact Hnum. }
  destruct (Z.eqb_spec key 119) as [->|Kw].
  { inversion Hw as [|? ? Hv _]; subst. unfold bind at 1 2.
    rewrite (parse_arg_window_list_total strtol _ _ _ Hv).
    cbn [ret fst snd Z.eqb Pos.eqb]. apply Hrest. exact Hnum. }
  destruct (Z.eqb_spec key 102) as [->|Kf].
  { specialize (Hfmt value (or_introl eq_refl)).
    unfold bind at 1 2. unfold parse_arg_format. unfold format_of in Hfmt.
    destruct (str_equal value _).
    - cbn [ret fst snd Z.eqb Pos.eqb]. apply Hrest. exact Hnum.
    - destruct (str_equal value _); [|congruence].
      cbn [ret fst snd Z.eqb Pos.eqb]. apply Hrest. exact Hnum. }
  destruct (Z.eqb_spec key 115) as [->|Ks].
  { cbv [bind parse_arg_font_size ret]. cbn [fst snd Z.eqb Pos.eqb].
    apply Hrest. exact Hnum. }
  destruct (Z.eqb_spec key 116) as [->|Kt].
  { cbv [bind parse_arg_font_path ret]. cbn [fst snd Z.eqb Pos.eqb].
    apply Hrest. exact Hnum. }
  destruct (Z.eqb_spec key 0) as [->|Ka].
  { destruct Hnum as [->|Hnil]; [|discriminate].
    cbn [Nat.eqb].
    destruct (Hpool value (or_introl eq_refl)) as [Hk Hlen].
    assert (Hc : parse_arg_characters value input w =
                 Ret (mk_input (map lookup (distinct_from [] value))
                               (format input)) w).
    { unfold parse_arg_characters, bind. rewrite parse_characters_eq, Hk.
      cbn [app map]. rewrite length_map.
      destruct (Nat.ltb_spec (length (distinct_from [] value)) 2);
        [lia | reflexivity]. }
    unfold bind at 1 2. rewrite Hc. cbn [ret fst snd Z.eqb].
    apply Hrest. right. cbn [length] in Hone.
    destruct (values_of 0 rest); [reflexivity | cbn [length] in Hone; lia]. }
  cbv [bind ret]. cbn [fst snd]. change (7 =? 0)%Z with false.
  cbv iota. apply Hrest. exact Hnum.
Qed.

(** X16.  Reading the command line sends nothing and prints no window id.
    It returns only at the end of the command line; otherwise it ends the
    process, with status 64 or, when [argp_parse] serves one of its own
    options ([--help], [--usage], [--version]), with status 0.  It ends the
    process with status 64 when two arguments or more are not options, when
    one of them has a character outside 0-9 and a-z or fewer than two
    different characters, when a window id given with [-b] or [-w] is one on
    which [strtol] sets an error or is not a 32-bit XID other than 0, when a
    value given with [-f] is neither [decimal] nor [hexadecimal], when
    [argp_parse] refuses an option, and when the command line ends without
    an argument that is not an option.  When the calls are all accepted, it
    ends the process with status 0 at an option that [argp_parse] serves,
    and it returns at the end of a command line with one argument. *)
Theorem invalid_command_line_exits_64 strtol atoi calls ending w :
  match parse_argv strtol atoi calls ending w with
  | Ret _ w' => w' = w /\ ending = ARGP_END
  | Exit code w' =>
      w' = w /\ (code = EX_USAGE \/ (code = 0%Z /\ ending = ARGP_SERVED))
  | Undef => False
  end /\
  (2 <= length (values_of ARGP_KEY_ARG calls) \/
   (exists char_pool,
       In char_pool (values_of ARGP_KEY_ARG calls) /\
       (forallb known char_pool = false \/
        length (distinct_from [] char_pool) < 2)) \/
   (exists window_id,
       In window_id (values_of (option_key "b") calls ++
                     values_of (option_key "w") calls) /\
       ~ valid_window_id strtol window_id) \/
   (exists value,
       In value (values_of (option_key "f") calls) /\
       format_of value = None) \/
   ending = ARGP_REFUSED \/
   (ending = ARGP_END /\ values_of ARGP_KEY_ARG calls = []) ->
   parse_argv strtol atoi calls ending w = Exit EX_USAGE w) /\
  (accepted strtol calls ->
   (ending = ARGP_SERVED ->
    parse_argv strtol atoi calls ending w = Exit 0 w) /\
   (ending = ARGP_END ->
    length (values_of ARGP_KEY_ARG calls) = 1 ->
    exists parsed, parse_argv strtol atoi calls ending w = Ret parsed w)).
Proof.
  pose proof (parse_argv_outcome strtol atoi calls ending w) as Ho.
  split; [exact Ho|]. split.
  - intros Hbad.
    assert (Hgood : forall r,
               argp_parse strtol atoi calls ARGP_END 0
                 (mk_input [] FORMAT_DEC) (mk_options [] [] 0%Z None) w
               = Ret r w ->
               ending = ARGP_SERVED \/
               (ending = ARGP_END /\ ksl (fst r) <> []) -> False).
    { intros r Hp He. apply argp_parse_Ret in Hp.
      destruct Hp as [_ [_ [_ [Fb [Fw [[fs [Hfs _]] [_ [_ Ha]]]]]]]].
      change (option_key "b") with 98%Z in Hbad.
      change (option_key "w") with 119%Z in Hbad.
      change (option_key "f") with 102%Z in Hbad.
      change ARGP_KEY_ARG with 0%Z in Hbad.
      destruct Hbad
        as [Hn | [[pool [Hin Hp]] | [[id [Hin Hid]]
           | [[v [Hin Hv']] | [Hr | [Hr Hnil]]]]]].
      - destruct Ha as [[Hnil _] | [_ [char_pool [Hv _]]]];
          [rewrite Hnil in Hn | rewrite Hv in Hn]; cbn [length] in Hn; lia.
      - destruct Ha as [[Hnil _] | [_ [char_pool [Hv [Hk [Hksl Hlen]]]]]];
          [rewrite Hnil in Hin; contradiction|].
        rewrite Hv in Hin. destruct Hin as [<-|[]].
        destruct Hp as [Hp|Hp]; [congruence|].
        rewrite Hksl, length_map in Hlen. lia.
      - apply Hid. apply in_app_or in Hin. rewrite Forall_forall in Fb, Fw.
        destruct Hin; auto.
      - apply (in_map format_of) in Hin. rewrite Hfs, Hv' in Hin.
        apply in_map_iff in Hin. destruct Hin as [f [Hf _]]. discriminate.
      - subst ending. destruct He as [He|[He _]]; discriminate.
      - subst ending. destruct He as [He|[_ He]]; [discriminate|].
        destruct Ha as [[_ Hk] | [_ [char_pool [Hv _]]]];
          [now apply He | rewrite Hv in Hnil; discriminate]. }
    destruct (parse_argv strtol atoi calls ending w)
      as [[input options] w'|code w'|] eqn:E; [exfalso| |contradiction].
    + destruct Ho as [_ ->].
      unfold parse_argv in E. bind_ret E as r w1 Hp.
      pose proof (argp_parse_outcome strtol atoi calls ARGP_END 0
                    (mk_input [] FORMAT_DEC) (mk_options [] [] 0%Z None) w)
        as Hq.
      rewrite Hp in Hq. destruct Hq as [-> _].
      apply (Hgood r Hp). right. split; [reflexivity|].
      destruct (ksl (fst r)); discriminate.
    + destruct Ho as [-> [->|[-> Hs]]]; [reflexivity|]. exfalso.
      subst ending. unfold parse_argv, bind in E.
      pose proof (argp_parse_outcome strtol atoi calls ARGP_SERVED 0
                    (mk_input [] FORMAT_DEC) (mk_options [] [] 0%Z None) w)
        as Hq.
      destruct (argp_parse strtol atoi calls ARGP_SERVED 0 _ _ w)
        as [r w1|code1 w1|] eqn:Hp; [| |discriminate].
      * destruct Hq as [_ Hq]. discriminate.
      * inversion E; subst. clear Hq.
        destruct (argp_parse_served strtol atoi _ _ _ _ _ Hp) as [r Hr].
        apply (Hgood r Hr). now left.
  - intros Hacc.
    destruct (argp_parse_total strtol atoi calls 0 (mk_input [] FORMAT_DEC)
                (mk_options [] [] 0%Z None) w Hacc (or_introl eq_refl))
      as [r Hr].
    split.
    + intros ->. unfold parse_argv, bind.
      destruct (argp_parse_ending strtol atoi _ _ _ _ _ _ _ Hr) as [-> _].
      reflexivity.
    + intros -> Hone. unfold parse_argv, bind. rewrite Hr.
      apply argp_parse_Ret in Hr.
      destruct Hr as [_ [_ [_ [_ [_ [_ [_ [_ Ha]]]]]]]].
      change ARGP_KEY_ARG with 0%Z in Hone.
      destruct Ha as [[Hnil _] | [_ [char_pool [_ [_ [Hksl Hlen]]]]]].
      * rewrite Hnil in Hone. discriminate.
      * destruct (ksl (fst r)); [cbn [length] in Hlen; lia | eauto].
Qed.

Lemma invalid_command_line_exits_64_witness :
  parse_argv sample_strtol sample_atoi
    [(option_key "b", ["x"]%char); (ARGP_KEY_ARG, ["a"; "b"]%char)]
    ARGP_END initial_world = Exit EX_USAGE initial_world /\
  parse_argv sample_strtol sample_atoi sample_calls ARGP_SERVED initial_world
  = Exit 0 initial_world.
Proof.
  split.
  - apply (proj1 (proj2 (invalid_command_line_exits_64 sample_strtol
                           sample_atoi
                           [(option_key "b", ["x"]%char);
                            (ARGP_KEY_ARG, ["a"; "b"]%char)]
                           ARGP_END initial_world))).
    right. right. left. exists ["x"]%char. split; [now left|].
    intros [_ H]. vm_compute in H. destruct H as [H _]. discriminate.
  - apply (proj2 (proj2 (invalid_command_line_exits_64 sample_strtol
                           sample_atoi sample_calls ARGP_SERVED
                           initial_world))); [|reflexivity].
    split; [vm_compute; lia|]. split.
    + intros pool Hin. vm_compute in Hin. destruct Hin as [<-|[]].
      split; [reflexivity | vm_compute; lia].
    + split.
      * assert (E : values_of (option_key "b") sample_calls ++
                    values_of (option_key "w") sample_calls = [["2"]%char])
          by (vm_compute; reflexivity).
        rewrite E. constructor; [|constructor].
        vm_compute. split; [reflexivity|].
        split; [reflexivity | discriminate].
      * intros v Hin. vm_compute in Hin. destruct Hin as [<-|[]].
        discriminate.
Defined.

(** * The program from the command line on *)

Lemma grab_loop_outcome xcon : forall todo s status w,
  match grab_loop xcon status todo s w with
  | Ret st w' => w' = w /\ (status <> None \/ todo <> 0 -> st <> None)
  | Exit code w' => code = EX_SOFTWARE /\ w' = w
  | Undef => False
  end.
Proof.
  induction todo as [|todo IH]; intros s status w; cbn [grab_loop].
  - split; [reflexivity|]. intros [H|H]; [exact H | congruence].
  - destruct (grab_keyboard_reply xcon s) as [g|]; [|now split].
    destruct (g =? XCB_GRAB_STATUS_ALREADY_GRABBED)%Z.
    + specialize (IH (S s) (Some g) w).
      destruct (grab_loop xcon (Some g) todo (S s) w); auto.
      destruct IH as [-> IH]. split; [reflexivity|]. intros _.
      apply IH. left. discriminate.
    + destruct (g =? XCB_GRAB_STATUS_SUCCESS)%Z; [|now split].
      split; [reflexivity|]. discriminate.
Qed.

Lemma initialise_input_outcome xcon w :
  match initialise_input xcon w with
  | Ret _ w' => w' = w
  | Exit code w' => code = EX_SOFTWARE /\ w' = w
  | Undef => False
  end.
Proof.
  unfold initialise_input, bind.
  pose proof (grab_loop_outcome xcon 1000 0 None w) as H.
  destruct (grab_loop xcon None 1000 0 w) as [st w1|code w1|];
    [|exact H|exact H].
  destruct H as [-> H]. destruct st as [st|].
  - destruct (st =? XCB_GRAB_STATUS_ALREADY_GRABBED)%Z;
      [now split | reflexivity].
  - exfalso. apply H; [right; discriminate | reflexivity].
Qed.

(** X17.  However the program is run from the command line on, when it
    waits for a key no window id was printed, and when the process has
    exited either no window id was printed and the status is 0, 64 or 70, or
    one window id was printed, with the conversion of the format that the
    command line asks for.  The status is then 0, the command line was read
    to its end, and the window printed is a child of the root window that is
    not among the window ids given with [-b], that is among those given with
    [-w] if there are any, that is viewable without overridden redirection,
    and whose [_NET_WM_WINDOW_TYPE] holds nothing. *)
Theorem a_window_printed_passes_every_test
    get_geometry log strtol atoi display calls ending events w :
  match main_argv get_geometry log strtol atoi display calls ending events w
  with
  | Ret _ w' => stdout w' = stdout w
  | Exit code w' =>
      (stdout w' = stdout w /\
       (code = 0%Z \/ code = EX_USAGE \/ code = EX_SOFTWARE)) \/
      (code = 0%Z /\
       exists input options all_windows win,
         parse_argv strtol atoi calls ARGP_END w = Ret (input, options) w /\
         ending = ARGP_END /\
         query_tree_reply (xcon display) (xroot display)
         = Some all_windows /\
         In win all_windows /\
         ~ In win (window_ids strtol (option_key "b") calls) /\
         (window_ids strtol (option_key "w") calls = [] \/
          In win (window_ids strtol (option_key "w") calls)) /\
         viewable (xcon display) win = true /\
         untyped display win = true /\
         stdout w' = (format input, win) :: stdout w)
  | Undef => True
  end.
Proof.
  unfold main_argv. unfold bind at 1.
  pose proof (parse_argv_outcome strtol atoi calls ending w) as Hp.
  destruct (parse_argv strtol atoi calls ending w)
    as [[input options] w0|code w0|] eqn:Ep; [| |contradiction].
  2:{ destruct Hp as [-> [->|[-> _]]]; left; auto. }
  destruct Hp as [-> ->]. cbn [fst snd].
  assert (Hlists : blacklist options = window_ids strtol 98 calls /\
                   whitelist options = window_ids strtol 119 calls).
  { pose proof Ep as Ep'. unfold parse_argv in Ep'.
    bind_ret Ep' as r w1 Ha.
    apply argp_parse_Ret in Ha. destruct Ha as [_ [Hb [Hw _]]].
    destruct (ksl (fst r)); [discriminate|]. inversion Ep'; subst.
    cbn [snd blacklist whitelist app] in *. auto. }
  destruct Hlists as [Hb Hw].
  unfold bind at 1.
  pose proof (initialise_input_outcome (xcon display) w) as Hi.
  destruct (initialise_input (xcon display) w) as [[] w0|code w0|];
    [| |contradiction].
  2:{ destruct Hi as [-> ->]. left. auto. }
  subst w0. unfold bind at 1.
  pose proof (initialise_tracked_windows_outcome display options w) as Ht.
  destruct (initialise_tracked_windows display options w)
    as [windows w0|code w0|] eqn:Et; [| |exact I].
  2:{ destruct Ht as [-> ->]. left. auto. }
  subst w0. apply initialise_tracked_windows_Ret in Et.
  destruct Et as [_ [all_windows [managed [Hq [_ [-> _]]]]]].
  pose proof (tracking_and_events_print get_geometry log input
                (eligible display options managed all_windows) events w)
    as H.
  unfold prints_at_most in H.
  match goal with
  | |- match ?o with _ => _ end => destruct o as [st w'|code w'|]
  end; [exact H| |exact I].
  destruct H as [[Hs Hc] | [-> [win [Hin Hs]]]].
  - left. split; [exact Hs|]. cbn [In] in Hc.
    destruct Hc as [<-|[<-|[]]]; auto.
  - right. split; [reflexivity|].
    apply eligible_In in Hin.
    destruct Hin as [Hall [_ [Hwl [Hbl [Hv Ha]]]]].
    exists input, options, all_windows, win.
    change (option_key "b") with 98%Z. change (option_key "w") with 119%Z.
    rewrite <- Hb, <- Hw. repeat split; auto.
Qed.

(** * Labels and the lines of the debug print *)

Lemma keys_typed_presses l : keys_typed (map KeyPress l) = l.
Proof.
  induction l as [|k l IH]; [reflexivity|]. cbn [map keys_typed].
  now rewrite IH.
Qed.

Lemma error_free_presses l : error_free (map KeyPress l).
Proof.
  intros code H. apply in_map_iff in H. destruct H as [k [E _]].
  discriminate.
Qed.

(** X18.  The program waits for its first key.  Then no label of the
    current array is the beginning of another one, and no two windows have
    the same label: a window is chosen as soon as its label is typed. *)
Theorem no_label_begins_another
    get_geometry log characters f windows w st w1 p r win win' :
  main get_geometry log characters f windows [] w = Ret st w1 ->
  In (p, win) (flat_map labels (wsetups st)) ->
  In (p ++ r, win') (flat_map labels (wsetups st)) ->
  r = [] /\ win' = win.
Proof.
  intros H Hp Hq. apply main_waiting in H. destruct H as [Hsel _].
  set (events := map KeyPress (map keysym_of p)).
  assert (Hk : keys_typed events = map keysym_of p)
    by apply keys_typed_presses.
  assert (Hef : error_free events) by apply error_free_presses.
  destruct (event_loop_chooses events st w1 p win [] Hsel Hef Hk Hp)
    as [w2 [H2 Hs2]].
  rewrite app_nil_r in H2.
  destruct r as [|c r].
  - split; [reflexivity|]. rewrite app_nil_r in Hq.
    destruct (event_loop_chooses events st w1 p win' [] Hsel Hef Hk Hq)
      as [w3 [H3 Hs3]].
    rewrite app_nil_r in H3. rewrite H2 in H3. inversion H3; subst w3.
    rewrite Hs2 in Hs3. now inversion Hs3.
  - exfalso.
    destruct (event_loop_waiting events st w1 p Hsel Hef Hk)
      as [st' [w' [H' _]]].
    + exists (c :: r), win'. split; [discriminate | exact Hq].
    + rewrite H2 in H'. discriminate.
Qed.

Lemma no_label_begins_another_witness :
  In (["a"; "b"]%char, 2%Z)
     (flat_map labels
        (wsetups (state_of (sample_run ["a"; "b"; "c"]%char 7 [])))) /\
  (@nil ascii = [] /\ 2%Z = 2%Z).
Proof.
  assert (Hin : In (["a"; "b"]%char, 2%Z)
                  (flat_map labels
                     (wsetups
                        (state_of (sample_run ["a"; "b"; "c"]%char 7 [])))))
    by (vm_compute; auto 10).
  split; [exact Hin|].
  apply (no_label_begins_another sample_geometry sample_log
           (Some ["a"; "b"; "c"]%char) FORMAT_DEC (sample_windows 7)
           initial_world
           (state_of (sample_run ["a"; "b"; "c"]%char 7 []))
           (world_of (sample_run ["a"; "b"; "c"]%char 7 []))
           ["a"; "b"]%char [] 2%Z 2%Z).
  - vm_compute. reflexivity.
  - exact Hin.
  - rewrite app_nil_r. exact Hin.
Defined.

Lemma last_cons_nonempty {A} (c : A) p d : p <> [] -> last (c :: p) d = last p d.
Proof. destruct p; [congruence | reflexivity]. Qed.

Lemma last_any_default {A} (l : list A) a d d' :
  last (a :: l) d = last (a :: l) d'.
Proof.
  revert a. induction l as [|b l IH]; intros a; [reflexivity|].
  change (last (b :: l) d = last (b :: l) d'). apply IH.
Qed.

Lemma debug_lines : forall x depth,
  well_formed x ->
  flat_map (fun l => match snd l with
                     | Some win => [(fst (fst l), snd (fst l), win)]
                     | None => []
                     end) (_wsetup_debug_print x depth) =
  map (fun l => (depth + (length (fst l) - 1), last (fst l) (character x),
                 snd l)) (labels x).
Proof.
  induction x as [ow fg bg r win c ch IH] using wsetup_ind.
  intros depth Hwf. pose proof (well_formed_children _ Hwf) as Hall.
  destruct ch as [|y ch].
  - destruct (labels_leaf _ Hwf eq_refl) as [wn [Hw ->]].
    cbn [window] in Hw. subst win.
    cbn [_wsetup_debug_print children flat_map map fst snd character window
         app length last Nat.sub]. now rewrite Nat.add_0_r.
  - rewrite (labels_internal _ Hwf) by discriminate.
    cbn [well_formed children window] in Hwf. destruct Hwf as [_ [-> _]].
    cbn [children] in Hall. remember (y :: ch) as l eqn:El. clear El y ch.
    cbn [_wsetup_debug_print flat_map snd fst children character window app].
    rewrite map_map.
    induction IH as [|z l Hz _ IHl]; [reflexivity|].
    inversion Hall; subst. cbn [flat_map]. rewrite flat_map_app, map_app.
    rewrite IHl by assumption. f_equal. rewrite Hz by assumption.
    apply map_ext_in. intros [p wn] Hin. cbn [fst snd length].
    destruct (labels_head _ _ Hin) as [t Ht]. cbn [fst] in Ht. subst p.
    cbn [length Nat.sub]. rewrite Nat.sub_0_r.
    rewrite (last_cons_nonempty c) by discriminate.
    rewrite (last_any_default t (character z) (character z) c).
    do 2 f_equal. lia.
Qed.

(** X19.  On a structure as the builder makes them, the lines of
    [wsetup_debug_print] that show a window are, in their order, those of
    the labels of the structure: each shows the window of the label and the
    last character of the label, indented by the length of the label less
    one. *)
Theorem debug_print_shows_the_labels x :
  well_formed x ->
  flat_map (fun l => match snd l with
                     | Some win => [(fst (fst l), snd (fst l), win)]
                     | None => []
                     end) (wsetup_debug_print x) =
  map (fun l => (length (fst l) - 1, last (fst l) (character x), snd l))
      (labels x).
Proof.
  intros Hwf. unfold wsetup_debug_print. rewrite (debug_lines x 0 Hwf).
  apply map_ext. intros l. reflexivity.
Qed.

(** The sample structure of two windows under the keys a and b. *)
Lemma debug_print_shows_the_labels_witness :
  flat_map (fun l => match snd l with
                     | Some win => [(fst (fst l), snd (fst l), win)]
                     | None => []
                     end)
           (wsetup_debug_print
              (mk_wsetup None None None None None "a"
                 [mk_wsetup (Some 100) None None
                    (Some (mk_rectangle 0 0 640 480)) (Some 1) "a" [];
                  mk_wsetup (Some 101) None None
                    (Some (mk_rectangle 0 0 640 480)) (Some 2) "b" []]%Z)) =
  [(1, "a"%char, 1%Z); (1, "b"%char, 2%Z)].
Proof.
  rewrite debug_print_shows_the_labels.
  - vm_compute. reflexivity.
  - vm_compute. intuition discriminate.
Defined.
